(** * Swing-trading frontend: a shallow embedding and its properties

    The development embeds the TypeScript sources of the presentation
    layer ([app/lib/api.ts], [lib/api.ts], [app/page.tsx] and
    [app/components/Strategies.tsx]) as Rocq functions over an explicit
    world (server, React state, trace of observable events), and proves
    the behaviour the specification states about them.

    Conventions.
    - An [async] function is a computation in the monad [M]: it threads
      the world, appends to the trace and either returns or throws.
      A handler runs to completion before the next one starts.
    - The backend is not part of the embedded sources.  It is a
      parameter: an arbitrary deterministic state machine answering
      requests ([Server]).
    - Reply bodies are typed the way the backend serialises them
      ([Payload]); a reply with no parseable body has [payload = None].
    - JSON numbers that are counts or identifiers are [nat]; scores and
      confidences are exact rationals ([Q]), so binary floating point
      rounding is not modelled.
    - [console.log]/[console.error] calls are not part of the trace, and
      of an antd message only its level and content are kept. *)

From Stdlib Require Import QArith Qround Qabs.
From stdpp Require Import base strings list gmap pretty.

(** ** JavaScript strings and numbers *)

Module Js.

(** [s.replace(pat, rep)] with a string pattern: first occurrence only. *)
Fixpoint replace (pat rep s : string) : string :=
  if String.prefix pat s
  then rep +:+ String.substring (String.length pat)
                 (String.length s - String.length pat) s
  else match s with
       | EmptyString => EmptyString
       | String c s' => String c (replace pat rep s')
       end.

(** [s.endsWith(suf)] *)
Definition endsWith (s suf : string) : bool :=
  let n := String.length suf in
  let m := String.length s in
  if decide (n ≤ m)
  then bool_decide (String.substring (m - n) n s = suf)
  else false.

(** [s.substring(0, n)] *)
Definition substring0 (n : nat) (s : string) : string :=
  String.substring 0 (Nat.min n (String.length s)) s.

(** [l.join(sep)] *)
Definition join (sep : string) (l : list string) : string :=
  String.concat sep l.

(** Truthiness of a string: the empty string is falsy. *)
Definition truthy_str (s : string) : bool :=
  negb (bool_decide (s = EmptyString)).

(** [s || d] for a string [s]. *)
Definition str_or (s d : string) : string :=
  if truthy_str s then s else d.

(** [o || d] for a possibly undefined string [o]. *)
Definition opt_or (o : option string) (d : string) : string :=
  match o with
  | Some s => str_or s d
  | None => d
  end.

(** Truthiness of a number: [0] is falsy. *)
Definition truthy_num (x : Q) : bool := negb (Qeq_bool x 0).

(** [n || 0] for a possibly undefined count. *)
Definition count_or_0 (o : option nat) : nat := default 0 o.

(** [x.toFixed(1)]: the nearest multiple of one tenth, ties upwards in
    magnitude, printed with exactly one digit after the point. *)
Definition toFixed1 (x : Q) : string :=
  let n := Z.to_N (Qfloor (Qabs x * (10 # 1) + (1 # 2))) in
  (if Qle_bool 0 x then EmptyString else "-")
    +:+ pretty (n / 10)%N +:+ "." +:+ pretty (n mod 10)%N.

(** The result of a numeric division: finite, or one of the two
    values a zero divisor produces. *)
Inductive Number :=
| Finite (x : Q)
| NaN
| Infinity.

(** [a / b] on counts.  JavaScript divides in IEEE doubles; the model
    keeps the quotient exact.  The two agree on whether the result is
    finite; they can differ in the last digit [toFixed1] prints when the
    exact percentage lies on a rounding boundary (23 of 80 is exactly
    28.75, printed 28.8 here, where the nearest double of the code's
    product is just below and prints 28.7). *)
Definition div (a b : nat) : Number :=
  match b with
  | O => match a with O => NaN | S _ => Infinity end
  | S _ => Finite (inject_Z (Z.of_nat a) / inject_Z (Z.of_nat b))
  end.

(** [x * 100] *)
Definition times100 (x : Number) : Number :=
  match x with
  | Finite q => Finite (q * (100 # 1))
  | NaN => NaN
  | Infinity => Infinity
  end.

(** [x.toFixed(1)] on a division result. *)
Definition toFixed1_number (x : Number) : string :=
  match x with
  | Finite q => toFixed1 q
  | NaN => "NaN"
  | Infinity => "Infinity"
  end.

(** Template-literal rendering of a possibly undefined count. *)
Definition show_count (o : option nat) : string :=
  match o with
  | Some n => pretty n
  | None => "undefined"
  end.

(** The value of a string of decimal digits. *)
Fixpoint decimal (acc : N) (s : string) : option N :=
  match s with
  | EmptyString => Some acc
  | String c s' =>
      let n := Ascii.N_of_ascii c in
      if ((48 <=? n) && (n <=? 57))%N
      then decimal (acc * 10 + (n - 48))%N s'
      else None
  end.

(** The array index a property key denotes: the key is the canonical
    decimal of an integer below 2^32 - 1. *)
Definition array_index (k : string) : option N :=
  match decimal 0 k with
  | Some n =>
      if bool_decide (pretty n = k) && (n <? 4294967295)%N then Some n else None
  | None => None
  end.

Fixpoint insert_by_index {A} (i : N) (v : A) (l : list (N * A)) : list (N * A) :=
  match l with
  | [] => [(i, v)]
  | (j, w) :: l' =>
      if (i <? j)%N then (i, v) :: l else (j, w) :: insert_by_index i v l'
  end.

(** [Object.values(o)] for an object with the properties [o], written in
    this order with distinct keys: the values of the integer-like keys
    come first, in ascending numeric order, then those of the other
    keys in the order they were written. *)
Definition values {A} (o : list (string * A)) : list A :=
  let indexed := omap (λ kv, (λ i, (i, kv.2)) <$> array_index kv.1) o in
  let others := List.filter (λ kv, bool_decide (array_index kv.1 = None)) o in
  (snd <$> foldr (λ iv acc, insert_by_index iv.1 iv.2 acc) [] indexed)
    ++ (snd <$> others).

End Js.

(** ** HTTP requests and replies *)

Inductive Method := GET | POST | PUT | DELETE.

(** JSON values as they appear in request bodies. *)
#[local] Unset Elimination Schemes.
Inductive json :=
| JNull
| JBool (b : bool)
| JNum (n : nat)
| JStr (s : string)
| JArr (items : list json)
| JObj (fields : list (string * json)).
#[local] Set Elimination Schemes.

Record File := { file_name : string; file_content : string }.

Inductive Body :=
| NoBody
| JsonBody (j : json)                       (* JSON.stringify(j) *)
| FormBody (parts : list (string * File)).   (* FormData *)

Record Request := {
  url : string;
  method : Method;
  headers : list (string * string);
  body : Body;
  signal : option nat   (* the AbortController whose signal is attached *)
}.

Definition API_BASE_URL : string := "http://localhost:8000".
Definition json_headers : list (string * string) :=
  [("Content-Type", "application/json")].

(** [fetch(url)] *)
Definition get (u : string) : Request :=
  {| url := u; method := GET; headers := []; body := NoBody; signal := None |}.

(** [fetch(url, { method: 'POST', headers: {...json}, body: JSON.stringify(j) })] *)
Definition post_json (u : string) (j : json) : Request :=
  {| url := u; method := POST; headers := json_headers;
     body := JsonBody j; signal := None |}.

(** [fetch(url, { method: 'DELETE' })] *)
Definition delete_req (u : string) : Request :=
  {| url := u; method := DELETE; headers := []; body := NoBody; signal := None |}.

(** *** Reply payloads *)

Record Stock := { stock_id : nat; stock_symbol : string }.

(** One strategy's verdict on one symbol, as serialised. *)
Record Outcome := {
  matched : bool;
  score : option Q;
  confidence : option Q;
  reason : option string
}.

(** A value of a row's [strategies] object: [null] or an outcome. *)
Inductive Entry :=
| NullEntry
| Verdict (o : Outcome).

Record ResultRow := {
  symbol : string;
  total_matches : nat;
  row_strategies : option (gmap string Entry)
}.

Record StrategyInfo := { name : string }.

(** The execution reply.  Every field is optional: an error object
    answered by the execute endpoint is an object without them. *)
Record Results := {
  strategy_count : option nat;
  watchlist_name : option string;
  total_stocks : option nat;
  results_rows : option (list ResultRow);
  strategies_info : option (list (string * StrategyInfo))
}.

Definition no_fields : Results :=
  {| strategy_count := None; watchlist_name := None; total_stocks := None;
     results_rows := None; strategies_info := None |}.

Inductive Payload :=
| PStocks (stocks : list Stock)
| PStock (s : Stock)
| PProblem (detail message : option string)
| PUploaded (message : option string)
| PScanReport (scanned : nat) (added updated : list string)
| PRun (r : Results)
| PWatchlist (id : nat).

Record Response := {
  ok : bool;
  payload : option Payload   (* [None]: no body, [json()] rejects *)
}.

(** A JavaScript error object. *)
Record Exn := { exn_name : string; exn_message : string }.

Definition Error (msg : string) : Exn :=
  {| exn_name := "Error"; exn_message := msg |}.
Definition TypeError (msg : string) : Exn :=
  {| exn_name := "TypeError"; exn_message := msg |}.
Definition SyntaxError : Exn :=
  {| exn_name := "SyntaxError"; exn_message := "Unexpected end of JSON input" |}.

Inductive FetchResult :=
| Resolved (r : Response)
| Rejected (e : Exn).

(** Property reads on a parsed reply ([any] in the source). *)
Definition get_detail (p : Payload) : option string :=
  match p with PProblem d _ => d | _ => None end.

Definition get_message (p : Payload) : option string :=
  match p with
  | PProblem _ m => m
  | PUploaded m => m
  | _ => None
  end.

Definition as_stocks (p : Payload) : option (list Stock) :=
  match p with PStocks l => Some l | _ => None end.

Definition as_results (p : Payload) : Results :=
  match p with PRun r => r | _ => no_fields end.

(** ** The backend as a parameter *)

Record Server := {
  srv_state : Type;
  srv_cur : srv_state;
  srv_step : srv_state → Request → srv_state * FetchResult
}.

Definition serves (sv : Server) (req : Request) : Server * FetchResult :=
  let '(s', res) := srv_step sv (srv_cur sv) req in
  ({| srv_state := srv_state sv; srv_cur := s'; srv_step := srv_step sv |}, res).

(** ** React state of the Strategies component *)

Record UI := {
  executeModal : bool;
  uploadModal : bool;
  createWatchlistModal : bool;
  results : option Results;
  loading : bool;
  uploading : bool;
  scanning : bool;
  scanAbortController : option nat;
  error : option string;
  selectedStocks : list string
}.

(** The [useState] initial values. *)
Definition initial_ui : UI :=
  {| executeModal := false; uploadModal := false;
     createWatchlistModal := false; results := None; loading := false;
     uploading := false; scanning := false; scanAbortController := None;
     error := None; selectedStocks := [] |}.

Definition with_executeModal (v : bool) (u : UI) : UI :=
  let '(Build_UI _ b c d e f g h i j) := u in Build_UI v b c d e f g h i j.
Definition with_uploadModal (v : bool) (u : UI) : UI :=
  let '(Build_UI a _ c d e f g h i j) := u in Build_UI a v c d e f g h i j.
Definition with_createWatchlistModal (v : bool) (u : UI) : UI :=
  let '(Build_UI a b _ d e f g h i j) := u in Build_UI a b v d e f g h i j.
Definition with_results (v : option Results) (u : UI) : UI :=
  let '(Build_UI a b c _ e f g h i j) := u in Build_UI a b c v e f g h i j.
Definition with_loading (v : bool) (u : UI) : UI :=
  let '(Build_UI a b c d _ f g h i j) := u in Build_UI a b c d v f g h i j.
Definition with_uploading (v : bool) (u : UI) : UI :=
  let '(Build_UI a b c d e _ g h i j) := u in Build_UI a b c d e v g h i j.
Definition with_scanning (v : bool) (u : UI) : UI :=
  let '(Build_UI a b c d e f _ h i j) := u in Build_UI a b c d e f v h i j.
Definition with_scanAbortController (v : option nat) (u : UI) : UI :=
  let '(Build_UI a b c d e f g _ i j) := u in Build_UI a b c d e f g v i j.
Definition with_error (v : option string) (u : UI) : UI :=
  let '(Build_UI a b c d e f g h _ j) := u in Build_UI a b c d e f g h v j.
Definition with_selectedStocks (v : list string) (u : UI) : UI :=
  let '(Build_UI a b c d e f g h i _) := u in Build_UI a b c d e f g h i v.

(** ** Observable events *)

Inductive Level := Success | Info | Warning | Failure.

Inductive FormOp :=
| ExecuteFormReset
| WatchlistFormReset
| WatchlistFormSet (form_name form_description : string).

Inductive Event :=
| EvFetch (req : Request) (res : FetchResult)   (* a request and its outcome *)
| EvJson (r : Response)                         (* [r.json()] was called *)
| EvMessage (lvl : Level) (content : option string)   (* antd message *)
| EvMessageDestroy
| EvRefresh                                     (* the [onRefresh] prop ran *)
| EvAbort (controller : nat)
| EvDelay (ms : nat)                            (* awaited [setTimeout] *)
| EvReload (after_ms : nat)                     (* scheduled page reload *)
| EvForm (op : FormOp).

(** ** The world and the monad of asynchronous code *)

Record World := {
  server : Server;
  ui : UI;
  fresh : nat;     (* next AbortController identity *)
  today : string   (* [new Date().toLocaleDateString()] *)
}.

Inductive Res (A : Type) :=
| Ok (a : A)
| Err (e : Exn).
Arguments Ok {A} a.
Arguments Err {A} e.

Definition M (A : Type) : Type := World → list Event * World * Res A.

#[global] Instance M_ret : MRet M := λ A a w, ([], w, Ok a).

#[global] Instance M_bind : MBind M := λ A B f m w,
  match m w with
  | (t1, w1, Ok a) =>
      match f a w1 with
      | (t2, w2, r) => (t1 ++ t2, w2, r)
      end
  | (t1, w1, Err e) => (t1, w1, Err e)
  end.

Definition throw {A} (e : Exn) : M A := λ w, ([], w, Err e).

(** [try { m } catch (e) { h e }] *)
Definition try_catch {A} (m : M A) (h : Exn → M A) : M A := λ w,
  match m w with
  | (t1, w1, Ok a) => (t1, w1, Ok a)
  | (t1, w1, Err e) =>
      match h e w1 with
      | (t2, w2, r) => (t1 ++ t2, w2, r)
      end
  end.

(** [try { m } finally { f }], for an [f] that does not throw or return. *)
Definition finally {A} (m : M A) (f : M unit) : M A := λ w,
  match m w with
  | (t1, w1, r) =>
      match f w1 with
      | (t2, w2, Ok _) => (t1 ++ t2, w2, r)
      | (t2, w2, Err e) => (t1 ++ t2, w2, Err e)
      end
  end.

(** [for (const x of l) { body x }] *)
Fixpoint for_of {A} (l : list A) (body : A → M unit) : M unit :=
  match l with
  | [] => mret tt
  | x :: l' => body x;; for_of l' body
  end.

Definition emit (e : Event) : M unit := λ w, ([e], w, Ok tt).

Definition get_ui : M UI := λ w, ([], w, Ok (ui w)).

Definition set_ui (f : UI → UI) : M unit := λ w,
  ([], {| server := server w; ui := f (ui w); fresh := fresh w;
          today := today w |}, Ok tt).

(** [await fetch(req)] *)
Definition fetch (req : Request) : M Response := λ w,
  let '(sv, res) := serves (server w) req in
  let w' := {| server := sv; ui := ui w; fresh := fresh w; today := today w |} in
  match res with
  | Resolved r => ([EvFetch req res], w', Ok r)
  | Rejected e => ([EvFetch req res], w', Err e)
  end.

(** [await r.json()] *)
Definition response_json (r : Response) : M Payload := λ w,
  match payload r with
  | Some p => ([EvJson r], w, Ok p)
  | None => ([EvJson r], w, Err SyntaxError)
  end.

(** [new AbortController()] *)
Definition new_AbortController : M nat := λ w,
  ([], {| server := server w; ui := ui w; fresh := S (fresh w);
          today := today w |}, Ok (fresh w)).

(** [new Date().toLocaleDateString()] *)
Definition get_today : M string := λ w, ([], w, Ok (today w)).

Definition message (lvl : Level) (content : string) : M unit :=
  emit (EvMessage lvl (Some content)).

(** Running a computation: its trace, final world and result. *)
Definition trace_of {A} (m : M A) (w : World) : list Event := (m w).1.1.
Definition world_of {A} (m : M A) (w : World) : World := (m w).1.2.
Definition result_of {A} (m : M A) (w : World) : Res A := (m w).2.

(** The requests of a trace, in order. *)
Definition requests (t : list Event) : list Request :=
  omap (λ e, match e with EvFetch req _ => Some req | _ => None end) t.

(** ** [app/lib/api.ts] *)

Module AppLibApi.

Definition getStocks : M Payload :=
  response ← fetch (get (API_BASE_URL +:+ "/api/stocks/"));
  response_json response.

Definition deleteStock (id : nat) : M unit :=
  response ← fetch (delete_req (API_BASE_URL +:+ "/api/stocks/" +:+ pretty id));
  if negb (ok response)
  then throw (Error "Failed to delete stock")
  else mret tt.   (* 204 No Content - no body to parse *)

Definition deleteWatchlist (id : nat) : M unit :=
  response ← fetch (delete_req (API_BASE_URL +:+ "/api/watchlists/" +:+ pretty id));
  if negb (ok response)
  then throw (Error "Failed to delete watchlist")
  else mret tt.

Definition removeStockFromWatchlist (watchlistId stockId : nat) : M unit :=
  response ← fetch (delete_req
    (API_BASE_URL +:+ "/api/watchlists/" +:+ pretty watchlistId
       +:+ "/stocks/" +:+ pretty stockId));
  if negb (ok response)
  then throw (Error "Failed to remove stock from watchlist")
  else mret tt.

Definition executeMultipleStrategies
    (watchlistId : nat) (strategyIds : list nat) : M Payload :=
  response ← fetch (post_json (API_BASE_URL +:+ "/api/strategies/execute-multiple")
    (JObj [("watchlist_id", JNum watchlistId);
           ("strategy_ids", JArr (JNum <$> strategyIds));
           ("save_results", JBool true)]));
  response_json response.

End AppLibApi.

(** ** [lib/api.ts], the older copy of the module *)

Module LibApi.

Definition deleteStock (id : nat) : M Payload :=
  response ← fetch (delete_req (API_BASE_URL +:+ "/api/stocks/" +:+ pretty id));
  response_json response.

Definition deleteWatchlist (id : nat) : M Payload :=
  response ← fetch (delete_req (API_BASE_URL +:+ "/api/watchlists/" +:+ pretty id));
  response_json response.

Definition executeMultipleStrategies
    (watchlistId : nat) (strategyIds : list nat) : M Payload :=
  response ← fetch (post_json (API_BASE_URL +:+ "/api/strategies/execute-multiple")
    (JObj [("watchlist_id", JNum watchlistId);
           ("strategy_ids", JArr (JNum <$> strategyIds));
           ("save_results", JBool true)]));
  response_json response.

End LibApi.

(** ** Props of the Strategies component

    [onRefresh] is declared as a function, but [app/page.tsx] renders the
    component without passing it; the field records whether the caller
    passed the prop.  A call of the prop is the event [EvRefresh]. *)

Record Props := {
  onExecuteStrategies : nat → list nat → M Payload;
  onRefresh : bool
}.

(** ** [app/page.tsx] *)

Module Page.

Definition matched_rows (rows : list ResultRow) : list ResultRow :=
  filter (λ r, 0 < total_matches r) rows.

Definition handleExecuteStrategies
    (watchlistId : nat) (strategyIds : list nat) : M Payload :=
  try_catch
    (result ← AppLibApi.executeMultipleStrategies watchlistId strategyIds;
     let totalMatches :=
       Js.count_or_0
         ((λ rows, length (matched_rows rows)) <$> results_rows (as_results result)) in
     message Success
       ("Executed " +:+ Js.show_count (strategy_count (as_results result))
          +:+ " strategies! Found " +:+ pretty totalMatches
          +:+ " stocks with matches");;
     mret result)
    (λ err, message Failure "Failed to execute strategies";; throw err).

(** [<Strategies strategies=... watchlists=... onExecuteStrategies=... />] *)
Definition strategies_props : Props :=
  {| onExecuteStrategies := handleExecuteStrategies; onRefresh := false |}.

End Page.

(** ** [app/components/Strategies.tsx] *)

Module Strategies.

Record ExecuteValues := { watchlist_id : nat; strategy_ids : list nat }.

Record WatchlistValues := {
  values_name : string;
  values_description : option string
}.

Record Summary := {
  totalStocks : nat;
  stocksWithMatches : nat;
  matchRate : string
}.

(** What a cell of a strategy column shows. *)
Inductive Child :=
| Nothing                        (* [undefined], [null], [false] or an empty string *)
| NumberText (x : Q)             (* a bare number is rendered as text *)
| ConfidenceText (fixed : string).   (* [| Confidence: fixed%] *)

Inductive Cell :=
| NoDataTag                      (* the "No Data" tag *)
| MatchBox (cell_score : option Q) (cell_confidence : Child)
           (cell_reason : option (string * bool))   (* MATCH, score, ... *)
| NoMatchTag.                    (* the "No Match" tag *)

Record CheckboxProps := { checked : bool; disabled : bool }.

Definition quote : string := String (Ascii.ascii_of_nat 34) EmptyString.

(** [xs.filter(r => r.total_matches > 0).map(r => r.symbol)] *)
Definition matched_symbols (rows : list ResultRow) : list string :=
  symbol <$> filter (λ r, 0 < total_matches r) rows.

(** [allStocks.some(...)] in [ensureStocksExist] and [allStocks.find(...)]
    in [handleSubmitWatchlist] run once per symbol: with no symbol they
    are never called, otherwise a reply that is not an array makes the
    call of [method_name] throw. *)
Definition stock_array (method_name : string) (allStocks : Payload)
    (symbols : list string) : M (list Stock) :=
  match symbols, as_stocks allStocks with
  | _, Some l => mret l
  | [], None => mret []
  | _ :: _, None =>
      throw (TypeError ("allStocks." +:+ method_name +:+ " is not a function"))
  end.

(** [allStocks.find(s => s.symbol === sym)] *)
Definition find_stock (allStocks : list Stock) (sym : string) : option Stock :=
  List.find (λ s, bool_decide (stock_symbol s = sym)) allStocks.

(** [symbols.filter(sym => !allStocks.some(s => s.symbol === sym))] *)
Definition missing_stocks (allStocks : list Stock) (symbols : list string)
    : list string :=
  List.filter
    (λ sym, negb (existsb (λ s, bool_decide (stock_symbol s = sym)) allStocks))
    symbols.

(** The loop that fills [stockIds] and [notFoundStocks]. *)
Fixpoint map_symbols (allStocks : list Stock) (symbols : list string)
    : list nat * list string :=
  match symbols with
  | [] => ([], [])
  | sym :: rest =>
      let '(stockIds, notFoundStocks) := map_symbols allStocks rest in
      match find_stock allStocks sym with
      | Some stock => (stock_id stock :: stockIds, notFoundStocks)
      | None => (stockIds, sym :: notFoundStocks)
      end
  end.

Definition stocks_url : string := API_BASE_URL +:+ "/api/stocks/".
Definition watchlists_url : string := API_BASE_URL +:+ "/api/watchlists/".

(** The body of the stock-creation request. *)
Definition new_stock (sym : string) : json :=
  JObj [("symbol", JStr sym);
        ("name", JStr (Js.replace ".BO" EmptyString (Js.replace ".NS" EmptyString sym)));
        ("exchange", JStr (if Js.endsWith sym ".NS" then "NSE" else "BSE"));
        ("sector", JStr "Unknown");
        ("is_active", JBool true)].

(** The body of the watchlist-creation request. *)
Definition new_watchlist (values : WatchlistValues) (stockIds : list nat) : json :=
  JObj [("name", JStr (values_name values));
        ("description", JStr (Js.opt_or (values_description values) EmptyString));
        ("stock_ids", JArr (JNum <$> stockIds))].

Definition scan_request (controller : nat) : Request :=
  {| url := API_BASE_URL +:+ "/api/strategies/scan"; method := POST;
     headers := []; body := NoBody; signal := Some controller |}.

Definition upload_request (file : File) : Request :=
  {| url := API_BASE_URL +:+ "/api/strategies/upload"; method := POST;
     headers := []; body := FormBody [("file", file)]; signal := None |}.

(** The body of the loop over the missing stocks. *)
Definition add_missing_stock (sym : string) : M unit :=
  try_catch
    (addResponse ← fetch (post_json stocks_url (new_stock sym));
     (* both outcomes are only logged to the console *)
     if ok addResponse then mret tt else mret tt)
    (λ _, mret tt).

Section Component.
Context (props : Props).

(** [onRefresh()] *)
Definition call_onRefresh : M unit :=
  if onRefresh props then emit EvRefresh
  else throw (TypeError "onRefresh is not a function").

Definition handleExecute (values : ExecuteValues) : M unit :=
  set_ui (with_loading true);;
  set_ui (with_error None);;
  set_ui (with_results None);;
  set_ui (with_selectedStocks []);;
  finally
    (try_catch
       (result ← onExecuteStrategies props (watchlist_id values) (strategy_ids values);
        set_ui (with_results (Some (as_results result)));;
        set_ui (with_executeModal false);;
        emit (EvForm ExecuteFormReset))
       (λ err,
          set_ui (with_error
            (Some (Js.str_or (exn_message err) "Failed to execute strategies")))))
    (set_ui (with_loading false)).

Definition handleUpload (file : File) : M bool :=
  set_ui (with_uploading true);;
  finally
    (try_catch
       (response ← fetch (upload_request file);
        (if negb (ok response)
         then err ← response_json response;
              throw (Error (Js.opt_or (get_detail err) "Upload failed"))
         else mret tt);;
        result ← response_json response;
        emit (EvMessage Success (get_message result));;
        set_ui (with_uploadModal false);;
        call_onRefresh)
       (λ err,
          message Failure (Js.str_or (exn_message err) "Failed to upload strategy")))
    (set_ui (with_uploading false));;
  mret false.

Definition handleScan : M unit :=
  u ← get_ui;
  if scanning u then mret tt   (* scan already in progress *)
  else
    (match scanAbortController u with
     | Some c => emit (EvAbort c)
     | None => mret tt
     end);;
    controller ← new_AbortController;
    set_ui (with_scanAbortController (Some controller));;
    set_ui (with_scanning true);;
    set_ui (with_error None);;
    emit EvMessageDestroy;;
    finally
      (try_catch
         (response ← fetch (scan_request controller);
          (if negb (ok response)
           then errorMessage ←
                  try_catch
                    (errorData ← response_json response;
                     mret (Js.opt_or (get_detail errorData)
                             (Js.opt_or (get_message errorData) "Scan failed")))
                    (λ _, mret "Scan failed");
                throw (Error errorMessage)
           else mret tt);;
          result ← response_json response;
          match result with
          | PScanReport scanned added updated =>
              message Success
                ("Scanned " +:+ pretty scanned +:+ " files. Added: "
                   +:+ pretty (length added) +:+ ", Updated: "
                   +:+ pretty (length updated))
          | _ => throw (TypeError "Cannot read properties of undefined (reading 'length')")
          end;;
          (* try { onRefresh?.() } catch { } *)
          if onRefresh props then emit EvRefresh else mret tt)
         (λ err,
            if bool_decide (exn_name err = "AbortError") then mret tt
            else message Failure
                   (Js.str_or (exn_message err) "Failed to scan strategies")))
      (set_ui (with_scanning false);;
       set_ui (with_scanAbortController None)).

Definition handleDelete (strategyId : nat) : M unit :=
  try_catch
    (response ← fetch (delete_req
       (API_BASE_URL +:+ "/api/strategies/" +:+ pretty strategyId
          +:+ "?delete_file=false"));
     (if negb (ok response) then throw (Error "Delete failed") else mret tt);;
     message Success "Strategy deleted";;
     call_onRefresh)
    (λ _, message Failure "Failed to delete strategy").

(** [Object.values(results.strategies || {}).map(s => s.name).join(', ')] *)
Definition strategy_names (r : Results) : string :=
  Js.join ", " (name <$> Js.values (default [] (strategies_info r))).

Definition handleCreateWatchlistFromResults : M unit :=
  u ← get_ui;
  match results u ≫= results_rows with
  | None => message Warning "No results available"
  | Some rows =>
      let r := default no_fields (results u) in
      if bool_decide (length (selectedStocks u) = 0) then
        let matchedStocks := matched_symbols rows in
        if bool_decide (length matchedStocks = 0)
        then message Warning "No matched stocks to add to watchlist"
        else
          set_ui (with_selectedStocks matchedStocks);;
          message Info
            ("Auto-selected all " +:+ pretty (length matchedStocks)
               +:+ " matched stocks. You can adjust selection in the modal.");;
          set_ui (with_createWatchlistModal true);;
          date ← get_today;
          emit (EvForm (WatchlistFormSet
            ("Strategy Results - " +:+ date)
            ("Created from strategies: " +:+ strategy_names r +:+ ". "
               +:+ pretty (length matchedStocks) +:+ " matched stocks.")))
      else
        set_ui (with_createWatchlistModal true);;
        date ← get_today;
        emit (EvForm (WatchlistFormSet
          ("Strategy Results - " +:+ date)
          ("Created from strategies: " +:+ strategy_names r +:+ ". "
             +:+ pretty (length (selectedStocks u)) +:+ " selected stocks.")))
  end.

(** Ensure stocks exist in database before creating watchlist. *)
Definition ensureStocksExist (symbols : list string) : M bool :=
  try_catch
    (stocksResponse ← fetch (get stocks_url);
     (if negb (ok stocksResponse)
      then throw (Error "Failed to fetch stocks") else mret tt);;
     reply ← response_json stocksResponse;
     allStocks ← stock_array "some" reply symbols;
     let missingStocks := missing_stocks allStocks symbols in
     (if bool_decide (0 < length missingStocks) then
        for_of missingStocks add_missing_stock;;
        message Success
          ("Added " +:+ pretty (length missingStocks)
             +:+ " new stocks to database");;
        (* wait for database to update *)
        emit (EvDelay 500)
      else mret tt);;
     mret true)
    (λ _, mret false).

Definition handleSubmitWatchlist (values : WatchlistValues) : M unit :=
  u ← get_ui;   (* the [selectedStocks] this render closed over *)
  finally
    (try_catch
       (set_ui (with_loading true);;
        (* FIRST: ensure all stocks exist in database *)
        ensureStocksExist (selectedStocks u);;
        (* SECOND: fetch all stocks to get IDs *)
        stocksResponse ← fetch (get stocks_url);
        (if negb (ok stocksResponse)
         then throw (Error "Failed to fetch stocks") else mret tt);;
        reply ← response_json stocksResponse;
        allStocks ← stock_array "find" reply (selectedStocks u);
        (* THIRD: map symbols to IDs *)
        let '(stockIds, notFoundStocks) :=
          map_symbols allStocks (selectedStocks u) in
        (if bool_decide (0 < length notFoundStocks) then
           message Warning
             (pretty (length notFoundStocks) +:+ " stocks could not be added: "
                +:+ Js.join ", " notFoundStocks)
         else mret tt);;
        if bool_decide (length stockIds = 0) then
          message Failure "No valid stocks found. Please try again.";;
          set_ui (with_loading false)
        else
          (* FOURTH: create watchlist with stock_ids *)
          createResponse ←
            fetch (post_json watchlists_url (new_watchlist values stockIds));
          (if negb (ok createResponse)
           then errorData ← response_json createResponse;
                throw (Error (Js.opt_or (get_detail errorData)
                                "Failed to create watchlist"))
           else mret tt);;
          newWatchlist ← response_json createResponse;
          message Success
            ("Watchlist " +:+ quote +:+ values_name values +:+ quote
               +:+ " created with " +:+ pretty (length stockIds) +:+ " stocks!");;
          set_ui (with_createWatchlistModal false);;
          emit (EvForm WatchlistFormReset);;
          set_ui (with_selectedStocks []);;
          (* refresh the page data *)
          (if onRefresh props then emit EvRefresh else mret tt);;
          (* force reload to show new watchlist *)
          emit (EvReload 1000))
       (λ err,
          message Failure (Js.str_or (exn_message err) "Failed to create watchlist")))
    (set_ui (with_loading false)).

(** The functional update of [toggleStockSelection]. *)
Definition toggle (sym : string) (prev : list string) : list string :=
  if bool_decide (sym ∈ prev)
  then filter (λ s, s ≠ sym) prev
  else prev ++ [sym].

Definition toggleStockSelection (sym : string) : M unit :=
  set_ui (λ u, with_selectedStocks (toggle sym (selectedStocks u)) u).

Definition selectAllMatched : M unit :=
  u ← get_ui;
  match results u with
  | None => mret tt
  | Some r =>
      match results_rows r with
      | None =>
          throw (TypeError "Cannot read properties of undefined (reading 'filter')")
      | Some rows =>
          let matchedStocks := matched_symbols rows in
          set_ui (with_selectedStocks matchedStocks);;
          message Success
            ("Selected all " +:+ pretty (length matchedStocks) +:+ " matched stocks")
      end
  end.

Definition clearSelection : M unit :=
  set_ui (with_selectedStocks []);;
  message Info "Selection cleared".

End Component.

(** [getSummary], on the [results] state. *)
Definition getSummary (res : option Results) : option Summary :=
  match res with
  | None => None
  | Some r =>
      let totalStocks := Js.count_or_0 (total_stocks r) in
      let stocksWithMatches :=
        Js.count_or_0
          ((λ rows, length (filter (λ r, 0 < total_matches r) rows))
             <$> results_rows r) in
      let matchRate :=
        if bool_decide (0 < totalStocks)
        then Js.toFixed1_number (Js.times100 (Js.div stocksWithMatches totalStocks))
        else "0.0" in
      Some {| totalStocks := totalStocks;
              stocksWithMatches := stocksWithMatches;
              matchRate := matchRate |}
  end.

(** The render function of the "Select" column. *)
Definition select_render (selected : list string) (record : ResultRow)
    : CheckboxProps :=
  {| checked := bool_decide (symbol record ∈ selected);
     disabled := bool_decide (total_matches record = 0) |}.

(** [strategyResult.confidence && (<> | Confidence: ...toFixed(1)% </>)] *)
Definition confidence_child (c : option Q) : Child :=
  match c with
  | None => Nothing
  | Some x =>
      if Js.truthy_num x then ConfidenceText (Js.toFixed1 x)
      else NumberText x   (* the falsy left operand is the value *)
  end.

(** [strategyResult.reason && (<div>{reason.substring(0, 80)}
    {reason.length > 80 && '...'}</div>)] *)
Definition reason_child (r : option string) : option (string * bool) :=
  match r with
  | None => None
  | Some s =>
      if Js.truthy_str s
      then Some (Js.substring0 80 s, bool_decide (80 < String.length s))
      else None
  end.

(** The render function of the column of strategy [strategyId]. *)
Definition strategy_cell (strategyId : string) (record : ResultRow) : Cell :=
  match row_strategies record ≫= (.!! strategyId) with
  | None => NoDataTag
  | Some NullEntry => NoDataTag
  | Some (Verdict strategyResult) =>
      if matched strategyResult
      then MatchBox (score strategyResult)
                    (confidence_child (confidence strategyResult))
                    (reason_child (reason strategyResult))
      else NoMatchTag
  end.

End Strategies.

(** ** The component as a transition system

    One transition is one user gesture the rendered page offers in the
    current state, followed by the handler it triggers.  [enabled] reads
    the guards of the JSX: what is rendered, and what is disabled.
    Downloading a strategy touches the document only and is left out. *)

Module Gestures.
Import Strategies.

Inductive Action :=
| OpenExecuteModal
| CancelExecuteModal
| SubmitExecute (values : ExecuteValues)
| OpenUploadModal
| CancelUploadModal
| DropFile (file : File)
| ScanFolder
| ConfirmDelete (strategyId : nat)
| CloseError
| TickCheckbox (record : ResultRow)
| ClickMatchedCard (record : ResultRow)
| SelectAllMatched
| CreateWatchlist
| ClearSelection
| CloseTag (sym : string)
| CancelCreateModal
| SubmitWatchlist (values : WatchlistValues).

(** [!loading && results]: the results panel is rendered. *)
Definition panel_shown (u : UI) : Prop :=
  loading u = false ∧ is_Some (results u).

(** [summary && summary.stocksWithMatches > 0] *)
Definition has_matches (u : UI) : Prop :=
  ∃ s, getSummary (results u) = Some s ∧ 0 < stocksWithMatches s.

(** [results.results || []], the rows of the table. *)
Definition table_rows (u : UI) : list ResultRow :=
  default [] (results u ≫= results_rows).

Definition enabled (u : UI) (a : Action) : Prop :=
  match a with
  | OpenExecuteModal | OpenUploadModal | ConfirmDelete _ => True
  | CancelExecuteModal => executeModal u = true
  | SubmitExecute _ => executeModal u = true ∧ loading u = false
  | CancelUploadModal => uploadModal u = true
  | DropFile _ => uploadModal u = true ∧ uploading u = false
  | ScanFolder => scanning u = false
  | CloseError => is_Some (error u)
  | TickCheckbox record =>
      panel_shown u ∧ record ∈ table_rows u
      ∧ disabled (select_render (selectedStocks u) record) = false
  | ClickMatchedCard record =>
      panel_shown u ∧ has_matches u
      ∧ record ∈ filter (λ r, 0 < total_matches r) (table_rows u)
  | SelectAllMatched => panel_shown u ∧ has_matches u
  | CreateWatchlist => panel_shown u ∧ has_matches u
  | ClearSelection => panel_shown u ∧ 0 < length (selectedStocks u)
  | CloseTag sym => createWatchlistModal u = true ∧ sym ∈ selectedStocks u
  | CancelCreateModal => createWatchlistModal u = true
  | SubmitWatchlist _ =>
      createWatchlistModal u = true ∧ loading u = false
      ∧ selectedStocks u ≠ []
  end.

Definition handler (props : Props) (a : Action) : M unit :=
  match a with
  | OpenExecuteModal => set_ui (with_executeModal true)
  | CancelExecuteModal => set_ui (with_executeModal false)
  | SubmitExecute values => handleExecute props values
  | OpenUploadModal => set_ui (with_uploadModal true)
  | CancelUploadModal => set_ui (with_uploadModal false)
  | DropFile file => handleUpload props file;; mret tt
  | ScanFolder => handleScan props
  | ConfirmDelete strategyId => handleDelete props strategyId
  | CloseError => set_ui (with_error None)
  | TickCheckbox record => toggleStockSelection (symbol record)
  | ClickMatchedCard record => toggleStockSelection (symbol record)
  | SelectAllMatched => selectAllMatched
  | CreateWatchlist => handleCreateWatchlistFromResults
  | ClearSelection => clearSelection
  | CloseTag sym => toggleStockSelection sym
  | CancelCreateModal =>
      set_ui (with_createWatchlistModal false);; emit (EvForm WatchlistFormReset)
  | SubmitWatchlist values => handleSubmitWatchlist props values
  end.

(** The worlds the component can be in, started from a fresh mount
    against any server. *)
Inductive reachable (props : Props) : World → Prop :=
| reach_mount w : ui w = initial_ui → reachable props w
| reach_step w a :
    reachable props w → enabled (ui w) a →
    reachable props (world_of (handler props a) w).

(** Every selected symbol is the symbol of a displayed row that matched. *)
Definition selection_matched (u : UI) : Prop :=
  ∀ sym, sym ∈ selectedStocks u →
    ∃ record, record ∈ table_rows u ∧ symbol record = sym
              ∧ 0 < total_matches record.

End Gestures.

(** ** Servers used in examples *)

(** A server that gives the scripted answers in turn, then fails. *)
Definition scripted (answers : list FetchResult) : Server :=
  {| srv_state := list FetchResult;
     srv_cur := answers;
     srv_step := λ st _,
       match st with
       | [] => ([], Rejected (TypeError "Failed to fetch"))
       | a :: st' => (st', a)
       end |}.

Definition reply (is_ok : bool) (p : Payload) : FetchResult :=
  Resolved {| ok := is_ok; payload := Some p |}.

(** A freshly mounted component in front of server [sv]. *)
Definition mount (sv : Server) : World :=
  {| server := sv; ui := initial_ui; fresh := 0; today := "11/1/2026" |}.

Definition showing (sv : Server) (u : UI) : World :=
  {| server := sv; ui := u; fresh := 0; today := "11/1/2026" |}.

(** ** The catalog store

    The backend that owns stocks and watchlists is not among the sources;
    a reference catalog is modelled from section 6 of the specification. *)
Module Catalog.

(** Modelled from the spec: the state of the Catalog Store (sections 1
    and 6), which owns stocks and watchlists. *)
Record Store := {
  held : list Stock;
  watchlists : list (string * list nat)
}.

Definition field (k : string) (j : json) : option json :=
  match j with
  | JObj fields => snd <$> List.find (λ kv, bool_decide (kv.1 = k)) fields
  | _ => None
  end.

Definition symbol_field (j : json) : option string :=
  match field "symbol" j with
  | Some (JStr s) => Some s
  | _ => None
  end.

Definition ids_field (j : json) : list nat :=
  match field "stock_ids" j with
  | Some (JArr items) =>
      omap (λ x, match x with JNum n => Some n | _ => None end) items
  | _ => []
  end.

Definition holds (st : Store) (sym : string) : bool :=
  existsb (λ s, bool_decide (stock_symbol s = sym)) (held st).

Definition next_id (st : Store) : nat :=
  S (list_max (stock_id <$> held st)).

Definition refuse (why : string) : FetchResult :=
  reply false (PProblem (Some why) None).

(** Modelled from the spec: the Catalog Store answering requests
    (section 6).  It lists its stocks; it creates a stock for a symbol it
    does not hold yet, unless its policy [accept] refuses the symbol, and
    then lists it; it creates watchlists; it refuses everything else. *)
Definition step (accept : string → bool) (st : Store) (req : Request)
    : Store * FetchResult :=
  if bool_decide (url req = Strategies.stocks_url) then
    match method req, body req with
    | GET, _ => (st, reply true (PStocks (held st)))
    | POST, JsonBody j =>
        match symbol_field j with
        | Some sym =>
            if accept sym && negb (holds st sym) then
              let s := {| stock_id := next_id st; stock_symbol := sym |} in
              ({| held := held st ++ [s]; watchlists := watchlists st |},
               reply true (PStock s))
            else (st, refuse "Stock not created")
        | None => (st, refuse "symbol required")
        end
    | _, _ => (st, refuse "Method Not Allowed")
    end
  else if bool_decide (url req = Strategies.watchlists_url) then
    match method req, body req with
    | POST, JsonBody j =>
        match field "name" j with
        | Some (JStr n) =>
            ({| held := held st;
                watchlists := watchlists st ++ [(n, ids_field j)] |},
             reply true (PWatchlist (S (length (watchlists st)))))
        | _ => (st, refuse "name required")
        end
    | _, _ => (st, refuse "Method Not Allowed")
    end
  else (st, refuse "Not Found").

(** Modelled from the spec: the Catalog Store as a server. *)
Definition server (accept : string → bool) (st : Store) : Server :=
  {| srv_state := Store; srv_cur := st; srv_step := step accept |}.

Definition holding (l : list Stock) : Store :=
  {| held := l; watchlists := [] |}.

End Catalog.

(** ** The strategy registry

    The backend that scans the strategies folder is not among the
    sources; the registry is modelled from sections 3 and 4.2 of the
    specification. *)
Module Registry.

(** Modelled from the spec: the [strategyType] enumeration of section 3. *)
Inductive StrategyType := AI_BASED | RULE_BASED.

(** Modelled from the spec: the self-description a strategy's [metadata()]
    returns (section 3, the descriptive fields of StrategyMetadata). *)
Record Description := {
  displayName : string;
  description : string;
  strategyType : StrategyType;
  timeframe : string;
  indicatorsUsed : list string;
  entryExitCriteria : string;
  scoringLogic : string
}.

(** Modelled from the spec: StrategyMetadata (section 3), the registry's
    entry for one discovered strategy. *)
Record StrategyMetadata := {
  scriptId : string;
  described : Description;
  sourceLocation : string;
  isActive : bool;
  lastScanned : nat
}.

(** Modelled from the spec: the outcome of loading a candidate source unit
    as a Strategy Contract implementor (section 4.2): the description it
    returns, or the reason it fails the contract. *)
Inductive Loaded :=
| Implements (d : Description)
| Violates (errorReason : string).

(** Modelled from the spec: a candidate source unit at a source location
    (section 4.2).  With the filesystem unchanged a location holds the
    same candidates and they load to the same outcome. *)
Record Candidate := {
  candidateId : string;   (* the script id derived from the source name *)
  load : Loaded
}.

(** Modelled from the spec: ScanReport (section 4.2). *)
Record ScanReport := {
  scanned : nat;
  added : list string;
  updated : list string;
  failed : list (string * string)
}.

#[global] Instance StrategyType_eq_dec : EqDecision StrategyType.
Proof. solve_decision. Defined.

#[global] Instance Description_eq_dec : EqDecision Description.
Proof. solve_decision. Defined.

(** Modelled from the spec: the three ways a candidate enters the report. *)
Definition report_added (id : string) (rep : ScanReport) : ScanReport :=
  {| scanned := scanned rep; added := added rep ++ [id];
     updated := updated rep; failed := failed rep |}.

Definition report_updated (id : string) (rep : ScanReport) : ScanReport :=
  {| scanned := scanned rep; added := added rep;
     updated := updated rep ++ [id]; failed := failed rep |}.

Definition report_failed (id why : string) (rep : ScanReport) : ScanReport :=
  {| scanned := scanned rep; added := added rep;
     updated := updated rep; failed := failed rep ++ [(id, why)] |}.

(** Modelled from the spec: one candidate of a scan (section 4.2).  A
    candidate that fails to load is recorded in [failed] and skipped.  A
    loadable one is upserted by its script id: added if the id is new;
    updated in place, keeping its activation state, if the id is known and
    the description changed ("updated on re-scan of a changed source",
    section 3); left alone if the id is known with the same description. *)
Definition scan_candidate (loc : string) (now : nat)
    (acc : gmap string StrategyMetadata * ScanReport) (c : Candidate)
    : gmap string StrategyMetadata * ScanReport :=
  let '(reg, rep) := acc in
  match load c with
  | Violates why => (reg, report_failed (candidateId c) why rep)
  | Implements d =>
      match reg !! candidateId c with
      | None =>
          (<[candidateId c :=
               {| scriptId := candidateId c; described := d;
                  sourceLocation := loc; isActive := true;
                  lastScanned := now |}]> reg,
           report_added (candidateId c) rep)
      | Some m =>
          if decide (described m = d) then (reg, rep)
          else
            (<[candidateId c :=
                 {| scriptId := candidateId c; described := d;
                    sourceLocation := loc; isActive := isActive m;
                    lastScanned := now |}]> reg,
             report_updated (candidateId c) rep)
      end
  end.

(** Modelled from the spec: [scan(sourceLocation)] (section 4.2), over the
    candidates enumerated at the location; one bad candidate never aborts
    the scan. *)
Definition scan (candidates : list Candidate) (loc : string) (now : nat)
    (reg : gmap string StrategyMetadata)
    : gmap string StrategyMetadata * ScanReport :=
  foldl (scan_candidate loc now)
    (reg, {| scanned := length candidates; added := []; updated := [];
             failed := [] |})
    candidates.

End Registry.

(** ** The execution engine and the result store

    The backend that runs the strategies and persists the runs is not
    among the sources: the frontend only posts the execute request.  One
    [execute] call is modelled from sections 4.3, 4.5 and 5 of the
    specification, as a machine whose steps are the things that can happen
    during the call. *)
Module Engine.

(** Modelled from the spec: what one strategy task leaves behind
    (section 4.3, step 3): the symbols it matched, or a strategy-level
    failure marker. *)
Inductive TaskResult :=
| Analysed (matched_symbols : list string)
| FailureMarker.

(** Modelled from the spec: ExecutionRun (section 3), as far as the
    strategies go: the strategies the run is for, its symbols, and the
    results of the strategy tasks it was assembled from. *)
Record ExecutionRun := {
  strategyIds : list string;
  symbols : list string;
  perStrategy : list (string * TaskResult)
}.

(** Modelled from the spec: the state of one [execute] call (sections 4.3
    and 5): the resolved strategies; the tasks not yet issued, those in
    flight, the results of those that completed or were marked failed,
    and those abandoned; whether the caller has cancelled and whether
    the call has returned; and the Result Store, a list that is only
    ever appended to (section 4.5). *)
Record Call := {
  resolved : list string;
  call_symbols : list string;
  saveResults : bool;
  pending : list string;
  in_flight : list string;
  finished : list (string * TaskResult);
  abandoned : list string;
  cancelled : bool;
  returned : bool;
  store : list ExecutionRun
}.

(** Modelled from the spec: the call after step 2 of [execute] (section
    4.3): the strategies are resolved and no task has been issued. *)
Definition start (strategies symbols : list string) (save : bool)
    (persisted : list ExecutionRun) : Call :=
  {| resolved := strategies; call_symbols := symbols; saveResults := save;
     pending := strategies; in_flight := []; finished := []; abandoned := [];
     cancelled := false; returned := false; store := persisted |}.

(** Modelled from the spec: the run object the engine has assembled so
    far (section 4.3, step 5). *)
Definition run_of (c : Call) : ExecutionRun :=
  {| strategyIds := resolved c; symbols := call_symbols c;
     perStrategy := finished c |}.

(** Modelled from the spec: a complete run object (section 5: "once all
    strategies have either completed or been marked failed"). *)
Definition complete (run : ExecutionRun) : Prop :=
  ∀ s, s ∈ strategyIds run → s ∈ (perStrategy run).*1.

(** Modelled from the spec: what can happen during a call. *)
Inductive Label :=
| Issue (strategy : string)                       (* a strategy task is started *)
| Finish (strategy : string) (result : TaskResult)   (* it completes or is marked failed *)
| Abandon (strategy : string)                     (* an in-flight task is given up *)
| Cancel                                          (* the caller aborts the request *)
| Return (saved : bool).                          (* the run is returned, saved or not *)

(** Modelled from the spec: the tasks that are left when the task of
    strategy [s] leaves a set of tasks. *)
Definition without (s : string) (l : list string) : list string :=
  filter (λ x, x ≠ s) l.

(** Modelled from the spec: the steps of a call (sections 4.3 and 5).
    Strategy tasks may run in parallel, so any pending task may be issued
    while others are in flight, but only while the call is not cancelled
    ("cancellation should stop issuing further work").  A task in flight
    may finish at any time, also after a cancellation, and after a
    cancellation it may be abandoned instead ("in-flight strategy tasks
    may be allowed to finish or be abandoned").  The caller may cancel at
    any time before the call returns.  The call returns once the run
    object is complete, and only then is the run handed to the Result
    Store, when [saveResults] asks for it ("Result Store save is
    all-or-nothing, gated on a complete run object"). *)
Inductive step : Call → Label → Call → Prop :=
| step_issue c s :
    cancelled c = false → returned c = false → s ∈ pending c →
    step c (Issue s)
      {| resolved := resolved c; call_symbols := call_symbols c;
         saveResults := saveResults c;
         pending := without s (pending c); in_flight := s :: in_flight c;
         finished := finished c; abandoned := abandoned c;
         cancelled := cancelled c; returned := returned c; store := store c |}
| step_finish c s result :
    returned c = false → s ∈ in_flight c →
    step c (Finish s result)
      {| resolved := resolved c; call_symbols := call_symbols c;
         saveResults := saveResults c;
         pending := pending c; in_flight := without s (in_flight c);
         finished := finished c ++ [(s, result)]; abandoned := abandoned c;
         cancelled := cancelled c; returned := returned c; store := store c |}
| step_abandon c s :
    cancelled c = true → returned c = false → s ∈ in_flight c →
    step c (Abandon s)
      {| resolved := resolved c; call_symbols := call_symbols c;
         saveResults := saveResults c;
         pending := pending c; in_flight := without s (in_flight c);
         finished := finished c; abandoned := s :: abandoned c;
         cancelled := cancelled c; returned := returned c; store := store c |}
| step_cancel c :
    returned c = false →
    step c Cancel
      {| resolved := resolved c; call_symbols := call_symbols c;
         saveResults := saveResults c;
         pending := pending c; in_flight := in_flight c;
         finished := finished c; abandoned := abandoned c;
         cancelled := true; returned := returned c; store := store c |}
| step_return c :
    returned c = false → complete (run_of c) →
    step c (Return (saveResults c))
      {| resolved := resolved c; call_symbols := call_symbols c;
         saveResults := saveResults c;
         pending := pending c; in_flight := in_flight c;
         finished := finished c; abandoned := abandoned c;
         cancelled := cancelled c; returned := true;
         store := if saveResults c then store c ++ [run_of c] else store c |}.

(** Modelled from the spec: a sequence of steps of one call. *)
Inductive steps : Call → list Label → Call → Prop :=
| steps_nil c : steps c [] c
| steps_cons c l c' ls c'' : step c l c' → steps c' ls c'' → steps c (l :: ls) c''.

End Engine.

(** ** The other calls of [app/lib/api.ts]

    They return [response.json()] whatever the status of the reply. *)

(** [fetch(url, { method: 'PUT', headers: {...json}, body: JSON.stringify(j) })] *)
Definition put_json (u : string) (j : json) : Request :=
  {| url := u; method := PUT; headers := json_headers;
     body := JsonBody j; signal := None |}.

Module Api.

Definition getStats : M Payload :=
  response ← fetch (get (API_BASE_URL +:+ "/api/stats"));
  response_json response.

Definition addStock (stock : json) : M Payload :=
  response ← fetch (post_json (API_BASE_URL +:+ "/api/stocks/") stock);
  response_json response.

Definition getWatchlists : M Payload :=
  response ← fetch (get (API_BASE_URL +:+ "/api/watchlists/?include_stocks=true"));
  response_json response.

Definition createWatchlist (watchlist : json) : M Payload :=
  response ← fetch (post_json (API_BASE_URL +:+ "/api/watchlists/") watchlist);
  response_json response.

Definition updateWatchlist (id : nat) (watchlist : json) : M Payload :=
  response ← fetch (put_json (API_BASE_URL +:+ "/api/watchlists/" +:+ pretty id) watchlist);
  response_json response.

Definition addStocksToWatchlist (watchlistId : nat) (stockIds : list nat) : M Payload :=
  response ← fetch (post_json
    (API_BASE_URL +:+ "/api/watchlists/" +:+ pretty watchlistId +:+ "/stocks")
    (JObj [("stock_ids", JArr (JNum <$> stockIds))]));
  response_json response.

Definition getStrategies : M Payload :=
  response ← fetch (get (API_BASE_URL +:+ "/api/strategies/"));
  response_json response.

End Api.

(** ** Promises

    A call that is started and not awaited on the spot runs at the point
    where it is started: the backend answers a request when it is issued,
    so the order of the requests, the replies and the final state do not
    depend on how the pending calls are scheduled. *)

(** A started call, settled: its outcome is kept for whoever awaits it. *)
Definition settled {A} (m : M A) : M (Res A) := λ w,
  let '(t, w', r) := m w in (t, w', Ok r).

(** [await p] on a settled promise. *)
Definition await {A} (p : Res A) : M A :=
  match p with
  | Ok a => mret a
  | Err e => throw e
  end.

(** ** The [Home] component of [app/page.tsx] *)

Module Home.

(** A state variable that holds what the backend sent ([any]): its
    [useState] initial value, or a parsed reply. *)
Inductive Data :=
| Initial
| Loaded (p : Payload).

Record State := {
  page : string;
  stocks : Data;
  watchlists : Data;
  strategies : Data;
  stats : Data
}.

Definition initial : State :=
  {| page := "dashboard"; stocks := Initial; watchlists := Initial;
     strategies := Initial; stats := Initial |}.

(** The state is threaded through the handlers explicitly: each takes
    the state it closed over and returns the state after its updates. *)
Definition fetchAll (s : State) : M State :=
  try_catch
    ((* the four calls of the array are started in turn *)
     stats_call ← settled Api.getStats;
     stocks_call ← settled AppLibApi.getStocks;
     watchlists_call ← settled Api.getWatchlists;
     strategies_call ← settled Api.getStrategies;
     (* [await Promise.all([...])] *)
     statsData ← await stats_call;
     stocksData ← await stocks_call;
     watchlistsData ← await watchlists_call;
     strategiesData ← await strategies_call;
     mret {| page := page s; stocks := Loaded stocksData;
             watchlists := Loaded watchlistsData;
             strategies := Loaded strategiesData;
             stats := Loaded statsData |})
    (λ _, message Failure "Failed to load data";; mret s).

Definition handleAddStock (stock : json) (s : State) : M State :=
  try_catch
    (Api.addStock stock;;
     message Success "Stock added successfully!";;
     fetchAll s)
    (λ error, message Failure "Failed to add stock";; throw error).

Definition handleDeleteStock (id : nat) (symbol : string) (s : State) : M State :=
  try_catch
    (AppLibApi.deleteStock id;;
     message Success ("Stock " +:+ symbol +:+ " deleted");;
     fetchAll s)
    (λ error, message Failure "Failed to delete stock";; throw error).

Definition handleCreateWatchlist (watchlist : json) (s : State) : M State :=
  try_catch
    (Api.createWatchlist watchlist;;
     message Success "Watchlist created successfully!";;
     fetchAll s)
    (λ error, message Failure "Failed to create watchlist";; throw error).

Definition handleUpdateWatchlist (id : nat) (watchlist : json) (s : State) : M State :=
  try_catch
    (Api.updateWatchlist id watchlist;;
     message Success "Watchlist updated successfully!";;
     fetchAll s)
    (λ error, message Failure "Failed to update watchlist";; throw error).

Definition handleDeleteWatchlist (id : nat) (name : string) (s : State) : M State :=
  try_catch
    (AppLibApi.deleteWatchlist id;;
     message Success ("Watchlist " +:+ Strategies.quote +:+ name
                        +:+ Strategies.quote +:+ " deleted");;
     fetchAll s)
    (λ error, message Failure "Failed to delete watchlist";; throw error).

Definition handleManageStocks (watchlistId : nat) (stockIds : list nat) (s : State)
    : M State :=
  try_catch
    (Api.addStocksToWatchlist watchlistId stockIds;;
     message Success "Stocks updated in watchlist!";;
     fetchAll s)
    (λ error, message Failure "Failed to update watchlist stocks";; throw error).

End Home.

(** ** More of JavaScript: [parseInt]

    Text is ASCII: white space is one of the six ASCII white space
    characters.  Identifiers are exact integers. *)

Module JsText.

Definition is_space (c : Ascii.ascii) : bool :=
  let n := Ascii.N_of_ascii c in
  ((9 <=? n) && (n <=? 13) || (n =? 32))%N.

(** The value of a character as a digit in the given radix. *)
Definition digit_value (radix : N) (c : Ascii.ascii) : option N :=
  let n := Ascii.N_of_ascii c in
  let v := if ((48 <=? n) && (n <=? 57))%N then Some (n - 48)%N
           else if ((97 <=? n) && (n <=? 122))%N then Some (n - 87)%N
           else if ((65 <=? n) && (n <=? 90))%N then Some (n - 55)%N
           else None in
  v ≫= λ d, if (d <? radix)%N then Some d else None.

Fixpoint skip_space (s : string) : string :=
  match s with
  | String c s' => if is_space c then skip_space s' else s
  | EmptyString => s
  end.

(** The value of the longest prefix of digits; [acc] is the value of the
    digits read so far, [None] when there is none. *)
Fixpoint parse_digits (radix : N) (acc : option N) (s : string) : option N :=
  match s with
  | EmptyString => acc
  | String c s' =>
      match digit_value radix c with
      | Some d => parse_digits radix (Some (default 0 acc * radix + d)%N) s'
      | None => acc
      end
  end.

Definition is_char (n : N) (c : Ascii.ascii) : bool := (Ascii.N_of_ascii c =? n)%N.

(** [parseInt(s)] without a radix: leading white space, an optional
    sign, an optional [0x] or [0X] that selects radix 16, then the
    longest prefix of digits.  [None] is [NaN]. *)
Definition parseInt (s : string) : option Z :=
  let s1 := skip_space s in
  let '(negative, s2) :=
    match s1 with
    | String c r =>
        if is_char 45 c then (true, r)          (* - *)
        else if is_char 43 c then (false, r)    (* + *)
        else (false, s1)
    | EmptyString => (false, s1)
    end in
  let '(radix, s3) :=
    match s2 with
    | String c (String x r) =>
        if is_char 48 c && (is_char 120 x || is_char 88 x)   (* 0x, 0X *)
        then (16%N, r) else (10%N, s2)
    | _ => (10%N, s2)
    end in
  (λ n, if negative then (- Z.of_N n)%Z else Z.of_N n) <$> parse_digits radix None s3.

End JsText.

(** ** Watchlists as the backend lists them *)

Record Watchlist := {
  wl_id : nat;
  wl_name : string;
  wl_description : option string;
  wl_stocks : option (list Stock)   (* absent unless asked for *)
}.

(** ** The [Watchlists] component: managing the stocks of a watchlist

    The component keeps its own state, threaded explicitly.  Its
    handlers that drive the antd forms are left out. *)

Module Watchlists.

Record Props := {
  onManageStocks : nat → list (option Z) → M unit
}.

Record State := {
  createModal : bool;
  editModal : bool;
  manageStocksModal : bool;
  editingWatchlist : option Watchlist;
  selectedWatchlistId : option nat;
  targetKeys : list string
}.

Definition initial : State :=
  {| createModal := false; editModal := false; manageStocksModal := false;
     editingWatchlist := None; selectedWatchlistId := None; targetKeys := [] |}.

Definition openManageStocks (watchlist : Watchlist) (st : State) : State :=
  let existingStockIds :=
    (λ s, pretty (stock_id s)) <$> default [] (wl_stocks watchlist) in
  {| createModal := createModal st; editModal := editModal st;
     manageStocksModal := true;
     editingWatchlist := editingWatchlist st;
     selectedWatchlistId := Some (wl_id watchlist);
     targetKeys := existingStockIds |}.

Definition handleTransferChange (nextTargetKeys : list string) (st : State) : State :=
  {| createModal := createModal st; editModal := editModal st;
     manageStocksModal := manageStocksModal st;
     editingWatchlist := editingWatchlist st;
     selectedWatchlistId := selectedWatchlistId st;
     targetKeys := nextTargetKeys |}.

Definition handleManageStocks (props : Props) (st : State) : M State :=
  match selectedWatchlistId st with
  | None => mret st
  | Some watchlistId =>
      if bool_decide (watchlistId = 0) then mret st   (* 0 is falsy as well *)
      else
        let stockIds := JsText.parseInt <$> targetKeys st in
        onManageStocks props watchlistId stockIds;;
        mret {| createModal := createModal st; editModal := editModal st;
                manageStocksModal := false;
                editingWatchlist := editingWatchlist st;
                selectedWatchlistId := selectedWatchlistId st;
                targetKeys := [] |}
  end.

End Watchlists.

(** ** The [NewsAnalysis] component: the stocks of the selected watchlists *)

Module NewsAnalysis.

(** [{ ...stock, watchlists: [...] }] *)
Record Row := {
  row_stock : Stock;
  row_watchlists : list string
}.

Record State := {
  selectedWatchlists : list nat;
  stocks : list Row;
  loading : bool;
  autoRefresh : bool
}.

Definition initial : State :=
  {| selectedWatchlists := []; stocks := []; loading := false;
     autoRefresh := false |}.

(** The [Map] from symbols to rows, as the list of its entries in
    insertion order. *)
Definition has (allStocks : list (string * Row)) (sym : string) : bool :=
  existsb (λ entry, bool_decide (entry.1 = sym)) allStocks.

(** [allStocks.get(sym).watchlists.push(name)] *)
Fixpoint push_watchlist (sym name : string) (allStocks : list (string * Row))
    : list (string * Row) :=
  match allStocks with
  | [] => []
  | (key, existing) :: rest =>
      if bool_decide (key = sym)
      then (key, {| row_stock := row_stock existing;
                    row_watchlists := row_watchlists existing ++ [name] |}) :: rest
      else (key, existing) :: push_watchlist sym name rest
  end.

(** The body of [watchlist.stocks.forEach]. *)
Definition add_stock (watchlistName : string) (allStocks : list (string * Row))
    (stock : Stock) : list (string * Row) :=
  if negb (has allStocks (stock_symbol stock))
  then allStocks ++ [(stock_symbol stock,
                      {| row_stock := stock; row_watchlists := [watchlistName] |})]
  else push_watchlist (stock_symbol stock) watchlistName allStocks.

(** The body of [selectedWatchlists.forEach]. *)
Definition add_watchlist (watchlists : list Watchlist)
    (allStocks : list (string * Row)) (watchlistId : nat) : list (string * Row) :=
  match List.find (λ wl, bool_decide (wl_id wl = watchlistId)) watchlists with
  | Some watchlist =>
      match wl_stocks watchlist with
      | Some l => foldl (add_stock (wl_name watchlist)) allStocks l
      | None => allStocks
      end
  | None => allStocks
  end.

Definition with_stocks (v : list Row) (st : State) : State :=
  {| selectedWatchlists := selectedWatchlists st; stocks := v;
     loading := loading st; autoRefresh := autoRefresh st |}.

Definition loadStocksFromWatchlists (watchlists : list Watchlist) (st : State) : State :=
  if bool_decide (length (selectedWatchlists st) = 0) then with_stocks [] st
  else
    (* collect all unique stocks from selected watchlists *)
    let allStocks := foldl (add_watchlist watchlists) [] (selectedWatchlists st) in
    with_stocks (snd <$> allStocks) st.

(** A change of the selection, followed by the effect that depends on
    it. *)
Definition select (watchlists : list Watchlist) (values : list nat) (st : State) : State :=
  loadStocksFromWatchlists watchlists
    {| selectedWatchlists := values; stocks := stocks st;
       loading := loading st; autoRefresh := autoRefresh st |}.

Definition handleWatchlistChange (watchlists : list Watchlist) (values : list nat)
    (st : State) : State :=
  select watchlists values st.

Definition removeWatchlist (watchlists : list Watchlist) (watchlistId : nat)
    (st : State) : State :=
  select watchlists (filter (λ id, id ≠ watchlistId) (selectedWatchlists st)) st.

Definition clearAll (watchlists : list Watchlist) (st : State) : State :=
  select watchlists [] st.

End NewsAnalysis.

(** ** Statements and sample data used by the properties *)

(** What a delete call does with the answer to its request: it
    throws exactly when the reply is not ok, returns otherwise, and never
    reads the body. *)
Definition delete_contract (call : M unit) (req : Request) (w : World) : Prop :=
  trace_of call w = [EvFetch req (serves (server w) req).2]
  ∧ match (serves (server w) req).2 with
    | Resolved r =>
        ((∃ e, result_of call w = Err e) ↔ ok r = false)
        ∧ (ok r = true → result_of call w = Ok tt)
    | Rejected e => result_of call w = Err e
    end.

(** A 204 reply: ok, no body. *)
Definition no_content : FetchResult := Resolved {| ok := true; payload := None |}.

Definition run_without_total : Results :=
  {| strategy_count := Some 1; watchlist_name := Some "Tech";
     total_stocks := None;
     results_rows := Some [ {| symbol := "AAA"; total_matches := 1;
                               row_strategies := None |} ];
     strategies_info := None |}.

(** A matched outcome whose confidence is zero. *)
Definition zero_confidence_row : ResultRow :=
  {| symbol := "AAA"; total_matches := 1;
     row_strategies :=
       Some {[ "1" := Verdict {| matched := true; score := Some (85 # 1);
                                 confidence := Some (0 # 1);
                                 reason := None |} ]} |}.

(** The server lists a stock with this symbol. *)
Definition listed (allStocks : list Stock) (sym : string) : Prop :=
  ∃ s, s ∈ allStocks ∧ stock_symbol s = sym.

(** The stock list a world's server answers to [GET /api/stocks/], when it
    answers with an ok reply carrying an array. *)
Definition fetched_stocks (w : World) : option (list Stock) :=
  match (serves (server w) (get Strategies.stocks_url)).2 with
  | Resolved r => if ok r then payload r ≫= as_stocks else None
  | Rejected _ => None
  end.

(** The stock-creation request for a symbol. *)
Definition stock_creation (sym : string) : Request :=
  post_json Strategies.stocks_url (Strategies.new_stock sym).

(** Every request of the trace was answered with an ok reply. *)
Definition all_answered_ok (t : list Event) : Prop :=
  ∀ req res, EvFetch req res ∈ t → ∃ r, res = Resolved r ∧ ok r = true.

(** The symbols [ensureStocksExist] has to create in world [w]. *)
Definition to_create (w : World) (symbols : list string) : list string :=
  match fetched_stocks w with
  | Some allStocks => Strategies.missing_stocks allStocks symbols
  | None => []
  end.

(** World [w] with the catalog store [st] as its server. *)
Definition at_catalog (accept : string → bool) (st : Catalog.Store) (w : World) : World :=
  {| server := Catalog.server accept st; ui := ui w; fresh := fresh w; today := today w |}.

(** A catalog holding one stock, and two catalog policies. *)
Definition one_stock : Catalog.Store :=
  Catalog.holding [ {| stock_id := 1; stock_symbol := "AAA.NS" |} ].
Definition accept_all : string → bool := λ _, true.
Definition refuse_all : string → bool := λ _, false.

(** The text [content] names the symbol [sym]. *)
Definition names (content sym : string) : Prop :=
  ∃ pre post, content = pre +:+ sym +:+ post.

(** World [w] once [setLoading(true)] has run. *)
Definition now_loading (w : World) : World :=
  {| server := server w; ui := with_loading true (ui w); fresh := fresh w;
     today := today w |}.

(** A request that creates a watchlist. *)
Definition creates_watchlist (req : Request) : Prop :=
  url req = Strategies.watchlists_url.

(** No request of the trace creates a watchlist. *)
Definition no_creation (t : list Event) : Prop :=
  ∀ req res, EvFetch req res ∈ t → ¬ creates_watchlist req.

(** The trace [t] starts with the trace [t1], which creates no watchlist. *)
Definition runs_first (t1 t : list Event) : Prop :=
  (∃ rest, t = t1 ++ rest) ∧ no_creation t1.

(** The stock a symbol resolves to: the first stock of the list that has
    this symbol. *)
Definition resolves_to (allStocks : list Stock) (sym : string) (stock : Stock)
    : Prop :=
  ∃ before after,
    allStocks = before ++ stock :: after
    ∧ stock_symbol stock = sym
    ∧ ∀ s, s ∈ before → stock_symbol s ≠ sym.

(** Symbol [sym] is resolved to a stock of the list, and the id of that
    stock is among [stockIds]. *)
Definition resolved_in (allStocks : list Stock) (stockIds : list nat)
    (sym : string) : Prop :=
  ∃ stock, resolves_to allStocks sym stock ∧ stock_id stock ∈ stockIds.

(** The trace shows a warning that names [sym]. *)
Definition warned_about (t : list Event) (sym : string) : Prop :=
  ∃ content, EvMessage Warning (Some content) ∈ t ∧ names content sym.

(** The watchlist-creation request, spelled out: the form's name and
    description (empty when there is none) and the stock ids, posted as
    JSON to /api/watchlists/. *)
Definition watchlist_creation (watchlist_name : string)
    (watchlist_description : option string) (stockIds : list nat) : Request :=
  {| url := "http://localhost:8000/api/watchlists/";
     method := POST;
     headers := [("Content-Type", "application/json")];
     body := JsonBody
       (JObj [("name", JStr watchlist_name);
              ("description", JStr (default EmptyString watchlist_description));
              ("stock_ids", JArr (JNum <$> stockIds))]);
     signal := None |}.

(** Every watchlist-creation request of [t] follows a successful read of
    the stock list and is the request spelled out above: its stock_ids
    are not empty and hold exactly the ids the selected symbols resolve
    to in that list, and every selected symbol is either resolved to one of
    the ids in the request or named in a warning. *)
Definition accounts_for (values : Strategies.WatchlistValues)
    (selected : list string) (fetched : option (list Stock))
    (t : list Event) : Prop :=
  ∀ req res, EvFetch req res ∈ t → creates_watchlist req →
    ∃ allStocks stockIds,
      fetched = Some allStocks
      ∧ req = watchlist_creation (Strategies.values_name values)
                (Strategies.values_description values) stockIds
      ∧ stockIds ≠ []
      ∧ (∀ id, id ∈ stockIds ↔
           ∃ sym stock, sym ∈ selected ∧ resolves_to allStocks sym stock
                        ∧ stock_id stock = id)
      ∧ ∀ sym, sym ∈ selected →
          resolved_in allStocks stockIds sym ∨ warned_about t sym.

(** Whether or not a watchlist is created: once the stock list has been
    read, every selected symbol is listed in it or named in a warning. *)
Definition none_dropped (selected : list string) (fetched : option (list Stock))
    (t : list Event) : Prop :=
  ∀ allStocks sym, fetched = Some allStocks → sym ∈ selected →
    listed allStocks sym ∨ warned_about t sym.

(** The symbol is resolved to a stock id that a creation request of the
    trace carries in its stock_ids. *)
Definition included_in_creation (values : Strategies.WatchlistValues)
    (fetched : option (list Stock)) (t : list Event) (sym : string) : Prop :=
  ∃ allStocks stock stockIds res,
    fetched = Some allStocks
    ∧ resolves_to allStocks sym stock
    ∧ stock_id stock ∈ stockIds
    ∧ EvFetch (watchlist_creation (Strategies.values_name values)
                 (Strategies.values_description values) stockIds) res ∈ t.

(** Every selected symbol is resolved to a stock id included in the
    creation request's stock_ids, or reported in a warning naming it. *)
Definition never_dropped (values : Strategies.WatchlistValues)
    (selected : list string) (fetched : option (list Stock)) (t : list Event) : Prop :=
  ∀ sym, sym ∈ selected →
    included_in_creation values fetched t sym ∨ warned_about t sym.

(** The attempt ends in an error message, with no creation request. *)
Definition fails_visibly (t : list Event) : Prop :=
  no_creation t ∧ ∃ content, EvMessage Failure content ∈ t.

(** A server that lists the stock AAA.NS when [ensureStocksExist] asks,
    and answers the next request, the second reading of the stock list,
    with an error. *)
Definition stocks_then_error : Server :=
  scripted [reply true (PStocks [ {| stock_id := 1; stock_symbol := "AAA.NS" |} ]);
            reply false (PProblem (Some "Internal Server Error") None)].

(** A catalog policy that refuses one symbol, and form values. *)
Definition picky : string → bool := λ sym, negb (bool_decide (sym = "ZZZ")).
Definition tech_watchlist : Strategies.WatchlistValues :=
  {| Strategies.values_name := "Tech"; Strategies.values_description := None |}.

(** The props of a caller that passes [onRefresh]. *)
Definition refreshing_props : Props :=
  {| onExecuteStrategies := Page.handleExecuteStrategies; onRefresh := true |}.

Definition strategy_file : File :=
  {| file_name := "broken.py"; file_content := "class Broken: pass" |}.

(** A strategy file the server accepts. *)
Definition rsi_strategy_file : File :=
  {| file_name := "rsi_oversold.py";
     file_content := "class RsiOversold(Strategy): ..." |}.

(** The reply to an upload that fails validation. *)
Definition rejected_upload : FetchResult :=
  reply false (PProblem (Some "Strategy must implement analyze(symbols)") None).

(** The execute request. *)
Definition execute_request (watchlistId : nat) (strategyIds : list nat) : Request :=
  {| url := "http://localhost:8000/api/strategies/execute-multiple";
     method := POST;
     headers := [("Content-Type", "application/json")];
     body := JsonBody (JObj [("watchlist_id", JNum watchlistId);
                             ("strategy_ids", JArr (JNum <$> strategyIds));
                             ("save_results", JBool true)]);
     signal := None |}.

Definition two_strategies : Strategies.ExecuteValues :=
  {| Strategies.watchlist_id := 1; Strategies.strategy_ids := [1; 2] |}.

(** The rejection of an aborted request. *)
Definition aborted : FetchResult :=
  Rejected {| exn_name := "AbortError"; exn_message := "The user aborted a request." |}.

(** What [handleScan] does before its request: it aborts a controller
    left in the state, if any. *)
Definition abort_previous (u : UI) : list Event :=
  match scanAbortController u with
  | Some c => [EvAbort c]
  | None => []
  end.

(** The props the page passes, with or without [onRefresh]. *)
Definition page_props (refresh : bool) : Props :=
  {| onExecuteStrategies := Page.handleExecuteStrategies; onRefresh := refresh |}.

(** The selection is kept or emptied. *)
Definition selection_kept_or_cleared (u u' : UI) : Prop :=
  selectedStocks u' = selectedStocks u ∨ selectedStocks u' = [].

(** The results are kept. *)
Definition results_kept (u u' : UI) : Prop := results u' = results u.

(** A computation whose effect on the React state stays within [R]. *)
Definition stable (R : UI → UI → Prop) {A} (m : M A) : Prop :=
  ∀ w, R (ui w) (ui (world_of m w)).

(** The registry knows every loadable candidate of [l] with the
    description it loads to. *)
Definition up_to_date (reg : gmap string Registry.StrategyMetadata)
    (l : list Registry.Candidate) : Prop :=
  ∀ c d, c ∈ l → Registry.load c = Registry.Implements d →
    ∃ m, reg !! Registry.candidateId c = Some m ∧ Registry.described m = d.

(** A strategies folder with one valid strategy and one broken file. *)
Definition nifty_swing : Registry.Description :=
  {| Registry.displayName := "NIFTY 50 A+ Swing Trading";
     Registry.description := "Advanced swing trading strategy";
     Registry.strategyType := Registry.AI_BASED;
     Registry.timeframe := "Daily + Weekly";
     Registry.indicatorsUsed := ["EMA20"; "EMA50"; "EMA200"; "RSI"];
     Registry.entryExitCriteria := "Entry at EMA20";
     Registry.scoringLogic := "AI Scoring System" |}.

Definition strategies_folder : list Registry.Candidate :=
  [ {| Registry.candidateId := "nifty_swing";
       Registry.load := Registry.Implements nifty_swing |};
    {| Registry.candidateId := "broken";
       Registry.load := Registry.Violates "missing analyze" |} ].

(** A run over two stocks, one of which matched. *)
Definition one_match_run : Results :=
  {| strategy_count := Some 1; watchlist_name := Some "Tech";
     total_stocks := Some 2;
     results_rows :=
       Some [ {| symbol := "AAA"; total_matches := 1; row_strategies := None |};
              {| symbol := "BBB"; total_matches := 0; row_strategies := None |} ];
     strategies_info := Some [("1", {| name := "NIFTY 50 A+ Swing Trading" |})] |}.

(** The world after: open the execute modal, submit, select all matched. *)
Definition after_select_all : World :=
  world_of (Gestures.handler (page_props false) Gestures.SelectAllMatched)
    (world_of (Gestures.handler (page_props false)
                 (Gestures.SubmitExecute two_strategies))
       (world_of (Gestures.handler (page_props false) Gestures.OpenExecuteModal)
          (mount (scripted [reply true (PRun one_match_run)])))).

(** ** The execute call seen from the engine *)

(** The strategy tasks of a call that have been issued: in flight,
    finished (completed or marked failed), or abandoned. *)
Definition engaged (c : Engine.Call) : list string :=
  Engine.in_flight c ++ (Engine.finished c).*1 ++ Engine.abandoned c.

(** What every state of a call over [strategies], started on a store
    holding [persisted], satisfies. *)
Record call_invariant (strategies : list string)
    (persisted : list Engine.ExecutionRun) (c : Engine.Call) : Prop := {
  inv_resolved : Engine.resolved c = strategies;
  inv_once : NoDup (engaged c);
  inv_pending : ∀ s, s ∈ Engine.pending c → s ∉ engaged c;
  inv_known : ∀ s, s ∈ engaged c → s ∈ strategies;
  inv_store :
    if Engine.returned c
    then Engine.store c = persisted
         ∨ (Engine.store c = persisted ++ [Engine.run_of c]
            ∧ Engine.complete (Engine.run_of c))
    else Engine.store c = persisted
}.

(** A run that holds exactly one result, an analysis or a failure marker,
    for every strategy of the call: what is not a partial run. *)
Definition whole_run (strategies : list string) (run : Engine.ExecutionRun) : Prop :=
  Engine.strategyIds run = strategies
  ∧ NoDup (Engine.perStrategy run).*1
  ∧ ∀ s, s ∈ (Engine.perStrategy run).*1 ↔ s ∈ strategies.

(** The call can be cancelled in state [c]: the caller's abort is a step
    of the engine, and it leaves the call cancelled. *)
Definition cancellable_at (c : Engine.Call) : Prop :=
  ∃ c', Engine.step c Engine.Cancel c' ∧ Engine.cancelled c' = true.

(** A call over two strategies that was cancelled when only the first
    task had been issued; that task was allowed to finish. *)
Definition cancelled_early : Engine.Call :=
  {| Engine.resolved := ["rsi_oversold"; "macd_cross"];
     Engine.call_symbols := ["AAA.NS"];
     Engine.saveResults := true;
     Engine.pending := ["macd_cross"];
     Engine.in_flight := [];
     Engine.finished := [("rsi_oversold", Engine.Analysed ["AAA.NS"])];
     Engine.abandoned := [];
     Engine.cancelled := true;
     Engine.returned := false;
     Engine.store := [] |}.

(** ** Statements used by the further properties *)

(** The messages of a trace, in order. *)
Definition messages (t : list Event) : list (Level * option string) :=
  omap (λ e, match e with EvMessage lvl c => Some (lvl, c) | _ => None end) t.

(** What [handleScan] tells the user about a reply that is not ok. *)
Definition scan_error (body : option Payload) : string :=
  match body with
  | Some errorData =>
      Js.opt_or (get_detail errorData) (Js.opt_or (get_message errorData) "Scan failed")
  | None => "Scan failed"
  end.

(** The request [handleDelete] sends for a strategy. *)
Definition strategy_deletion (strategyId : nat) : Request :=
  delete_req (API_BASE_URL +:+ "/api/strategies/" +:+ pretty strategyId
                +:+ "?delete_file=false").

(** The summary cards of a reply that is no run. *)
Definition empty_summary : Strategies.Summary :=
  {| Strategies.totalStocks := 0; Strategies.stocksWithMatches := 0;
     Strategies.matchRate := "0.0" |}.

(** No handler is at work: no busy flag is set and no scan controller is
    kept. *)
Definition idle (u : UI) : Prop :=
  loading u = false ∧ uploading u = false ∧ scanning u = false
  ∧ scanAbortController u = None.

(** The flags of the upload and of the scan are kept. *)
Definition upload_and_scan_kept (u u' : UI) : Prop :=
  uploading u' = uploading u ∧ scanning u' = scanning u
  ∧ scanAbortController u' = scanAbortController u.

Section Dotless.
Import Stdlib.Strings.Ascii.

(** The string contains no dot. *)
Fixpoint dotless (s : string) : bool :=
  match s with
  | EmptyString => true
  | String c s' => negb (Ascii.eqb c "."%char) && dotless s'
  end.

End Dotless.

(** The stock-creation body for [sym], with the given name and exchange. *)
Definition stock_named (sym name exchange : string) : json :=
  JObj [("symbol", JStr sym); ("name", JStr name); ("exchange", JStr exchange);
        ("sector", JStr "Unknown"); ("is_active", JBool true)].

(** The answers a server gives to a sequence of requests. *)
Fixpoint answers (sv : Server) (reqs : list Request) : list FetchResult :=
  match reqs with
  | [] => []
  | req :: rest => (serves sv req).2 :: answers (serves sv req).1 rest
  end.

(** The server after a sequence of requests. *)
Definition served (sv : Server) (reqs : list Request) : Server :=
  foldl (λ sv req, (serves sv req).1) sv reqs.

(** The parsed body of an answer, if it has one. *)
Definition parsed (res : FetchResult) : option Payload :=
  match res with
  | Resolved r => payload r
  | Rejected _ => None
  end.

(** The four requests of [fetchAll], in the order they are issued. *)
Definition load_requests : list Request :=
  [ get "http://localhost:8000/api/stats";
    get "http://localhost:8000/api/stocks/";
    get "http://localhost:8000/api/watchlists/?include_stocks=true";
    get "http://localhost:8000/api/strategies/" ].

(** The answer has a body that parses. *)
Definition has_body (res : FetchResult) : bool := bool_decide (is_Some (parsed res)).

(** The answer is an ok reply. *)
Definition is_ok (res : FetchResult) : bool :=
  match res with
  | Resolved r => ok r
  | Rejected _ => false
  end.

(** How a handler of the page reports on its request [req]: when the
    answer is [accepted], it shows [success], returns normally and reloads
    the page data; otherwise it shows [failure], rethrows the error and
    issues no further request. *)
Definition reports (h : Home.State → M Home.State) (req : Request)
    (success failure : string) (accepted : FetchResult → bool) : Prop :=
  ∀ s w,
    let run := h s w in
    let yes := accepted (serves (server w) req).2 in
    requests run.1.1 = req :: (if yes then load_requests else [])
    ∧ ((Success, Some success) ∈ messages run.1.1 ↔ yes = true)
    ∧ ((Failure, Some failure) ∈ messages run.1.1 ↔ yes = false)
    ∧ ((∃ s', run.2 = Ok s') ↔ yes = true).

(** A 400 reply that explains itself. *)
Definition duplicate_stock : FetchResult :=
  reply false (PProblem (Some "Stock already exists") None).

(** The key of a stock in the transfer list, and the number it is sent as. *)
Definition stock_key (s : Stock) : string := pretty (stock_id s).
Definition stock_number (s : Stock) : option Z := Some (Z.of_nat (stock_id s)).

(** A watchlist with two stocks. *)
Definition energy_watchlist : Watchlist :=
  {| wl_id := 5; wl_name := "Energy"; wl_description := None;
     wl_stocks := Some [ {| stock_id := 3; stock_symbol := "RELIANCE" |};
                         {| stock_id := 12; stock_symbol := "ONGC" |} ] |}.

(** The string consists of decimal digits. *)
Fixpoint digits_only (s : string) : bool :=
  match s with
  | EmptyString => true
  | String c s' => bool_decide (is_Some (JsText.digit_value 10 c)) && digits_only s'
  end.

(** The component wired to the page: the numbers it passes are the ids
    the page handler sends. *)
Definition managed_by_page : Watchlists.Props :=
  {| Watchlists.onManageStocks := λ watchlistId stockIds,
       Home.handleManageStocks watchlistId (Z.to_nat <$> omap id stockIds)
         Home.initial;;
       mret tt |}.

(** The stocks the selected watchlists offer, each with the name of its
    watchlist, in the order [loadStocksFromWatchlists] visits them. *)
Definition offered (watchlists : list Watchlist) (selected : list nat)
    : list (string * Stock) :=
  selected ≫= λ watchlistId,
    match List.find (λ wl, bool_decide (wl_id wl = watchlistId)) watchlists with
    | Some watchlist =>
        (λ stock, (wl_name watchlist, stock)) <$> default [] (wl_stocks watchlist)
    | None => []
    end.

(** The offers of the stock with symbol [sym]. *)
Definition offers_of (sym : string) (pairs : list (string * Stock))
    : list (string * Stock) :=
  filter (λ p, stock_symbol p.2 = sym) pairs.

(** The row expected for [sym]: the first stock offered under that
    symbol, with the names of all the watchlists that offer it. *)
Definition expected_row (sym : string) (pairs : list (string * Stock))
    : option NewsAnalysis.Row :=
  match offers_of sym pairs with
  | [] => None
  | (_, stock) :: _ =>
      Some {| NewsAnalysis.row_stock := stock;
              NewsAnalysis.row_watchlists := fst <$> offers_of sym pairs |}
  end.

(** Two watchlists that share a stock. *)
Definition it_watchlist : Watchlist :=
  {| wl_id := 6; wl_name := "IT"; wl_description := None;
     wl_stocks := Some [ {| stock_id := 20; stock_symbol := "TCS" |};
                         {| stock_id := 3; stock_symbol := "RELIANCE" |} ] |}.

(** The map holds exactly the expected rows of what it has seen. *)
Definition tracks (m : list (string * NewsAnalysis.Row)) (seen : list (string * Stock)) : Prop :=
  NoDup m.*1 ∧ ∀ k row, (k, row) ∈ m ↔ expected_row k seen = Some row.
(** * Properties *)

(** ** Running monadic code *)

Lemma run_bind {A B} (m : M A) (f : A → M B) (w : World) :
  (m ≫= f) w =
  match m w with
  | (t1, w1, Ok a) => let '(t2, w2, r) := f a w1 in (t1 ++ t2, w2, r)
  | (t1, w1, Err e) => (t1, w1, Err e)
  end.
Proof.
  unfold mbind, M_bind. destruct (m w) as [[t1 w1] [a|e]]; [|done].
  by destruct (f a w1) as [[??]?].
Qed.

Lemma run_fetch (req : Request) (w : World) :
  fetch req w =
  ([EvFetch req (serves (server w) req).2],
   {| server := (serves (server w) req).1; ui := ui w; fresh := fresh w;
      today := today w |},
   match (serves (server w) req).2 with
   | Resolved r => Ok r
   | Rejected e => Err e
   end).
Proof. unfold fetch. destruct (serves (server w) req) as [sv [r|e]]; done. Qed.

(** Expose the answer of the server to the next request and compute. *)
Ltac answer :=
  match goal with
  | |- context [serves ?sv ?req] =>
      let sv' := fresh "sv" in
      let res := fresh "res" in
      let E := fresh "Esrv" in
      destruct (serves sv req) as [sv' res] eqn:E; simpl in *
  end.

Ltac run :=
  unfold trace_of, result_of, world_of; simpl;
  unfold mbind, M_bind, mret, M_ret, fetch, response_json, throw, try_catch,
    finally, emit, message, set_ui, get_ui, get_today; simpl.

(** ** The execute request (both copies of the api module) *)

Lemma execute_request_eq (watchlistId : nat) (strategyIds : list nat) :
  post_json (API_BASE_URL +:+ "/api/strategies/execute-multiple")
    (JObj [("watchlist_id", JNum watchlistId);
           ("strategy_ids", JArr (JNum <$> strategyIds));
           ("save_results", JBool true)])
  = execute_request watchlistId strategyIds.
Proof. reflexivity. Qed.

(** The page's [handleExecute] issues the execute request and no other. *)
Lemma handleExecute_requests (values : Strategies.ExecuteValues) (w : World) :
  requests (trace_of (Strategies.handleExecute Page.strategies_props values) w)
  = [execute_request (Strategies.watchlist_id values) (Strategies.strategy_ids values)].
Proof.
  unfold Strategies.handleExecute, Page.strategies_props,
    Page.handleExecuteStrategies, AppLibApi.executeMultipleStrategies. run.
  answer. destruct res as [[o [p|]]|e]; done.
Qed.

(** C3: every execute request the frontend issues is a POST to
    /api/strategies/execute-multiple whose JSON body has exactly the
    fields watchlist_id, strategy_ids and save_results, the latter always
    true.  This holds for [executeMultipleStrategies] in both copies of the
    api module, and it is the only request [handleExecute] issues when it
    is wired as in the page. *)
Theorem execute_request_saves_results
    (watchlistId : nat) (strategyIds : list nat) (w : World) :
  let expected :=
    {| url := "http://localhost:8000/api/strategies/execute-multiple";
       method := POST;
       headers := [("Content-Type", "application/json")];
       body := JsonBody (JObj [("watchlist_id", JNum watchlistId);
                               ("strategy_ids", JArr (JNum <$> strategyIds));
                               ("save_results", JBool true)]);
       signal := None |} in
  requests (trace_of (AppLibApi.executeMultipleStrategies watchlistId strategyIds) w)
    = [expected]
  ∧ requests (trace_of (LibApi.executeMultipleStrategies watchlistId strategyIds) w)
    = [expected]
  ∧ requests (trace_of (Strategies.handleExecute Page.strategies_props
                 {| Strategies.watchlist_id := watchlistId;
                    Strategies.strategy_ids := strategyIds |}) w)
    = [expected].
Proof.
  repeat split.
  - unfold AppLibApi.executeMultipleStrategies. run. answer.
    destruct res as [[o [p|]]|e]; done.
  - unfold LibApi.executeMultipleStrategies. run. answer.
    destruct res as [[o [p|]]|e]; done.
  - apply (handleExecute_requests
             {| Strategies.watchlist_id := watchlistId;
                Strategies.strategy_ids := strategyIds |}).
Qed.

(** ** The delete calls of [app/lib/api.ts] *)

Lemma delete_shape (u msg : string) (w : World) :
  delete_contract
    (response ← fetch (delete_req u);
     if negb (ok response) then throw (Error msg) else mret tt)
    (delete_req u) w.
Proof.
  unfold delete_contract. run. answer.
  destruct res as [[[] p]|e]; simpl; repeat split; eauto; try done;
    by intros [e ?].
Qed.

(** C9: [deleteStock], [deleteWatchlist] and [removeStockFromWatchlist]
    of app/lib/api.ts throw if and only if the reply is not ok, and on an
    ok reply they return without parsing a body: the trace holds the
    request alone, so a 204 reply without body cannot make them fail. *)
Theorem delete_calls_throw_iff_not_ok (id watchlistId stockId : nat) (w : World) :
  delete_contract (AppLibApi.deleteStock id)
    (delete_req ("http://localhost:8000/api/stocks/" +:+ pretty id)) w
  ∧ delete_contract (AppLibApi.deleteWatchlist id)
      (delete_req ("http://localhost:8000/api/watchlists/" +:+ pretty id)) w
  ∧ delete_contract (AppLibApi.removeStockFromWatchlist watchlistId stockId)
      (delete_req ("http://localhost:8000/api/watchlists/" +:+ pretty watchlistId
                     +:+ "/stocks/" +:+ pretty stockId)) w.
Proof. repeat split; apply delete_shape. Qed.

Lemma delete_calls_throw_iff_not_ok_204 :
  result_of (AppLibApi.deleteStock 7) (mount (scripted [no_content])) = Ok tt
  ∧ trace_of (AppLibApi.deleteStock 7) (mount (scripted [no_content]))
    = [EvFetch (delete_req "http://localhost:8000/api/stocks/7") no_content].
Proof.
  destruct (delete_calls_throw_iff_not_ok 7 0 0 (mount (scripted [no_content])))
    as [[Ht [_ Hok]] _].
  split; [by apply Hok | exact Ht].
Defined.

(** The older copy parses the body of every reply and fails on a 204. *)
Example LibApi_deleteStock_204 :
  result_of (LibApi.deleteStock 7) (mount (scripted [no_content])) = Err SyntaxError.
Proof. reflexivity. Qed.

(** ** The summary of a run *)

(** C10: [getSummary] never divides by zero.  When total_stocks is 0 or
    missing the match rate is the literal "0.0"; a division is evaluated
    only for a positive total and its quotient is finite; and the number
    of stocks with matches is 0 when the results array is absent. *)
Theorem getSummary_no_division_by_zero (r : Results) :
  ∃ s, Strategies.getSummary (Some r) = Some s
    ∧ Strategies.totalStocks s = default 0 (total_stocks r)
    ∧ (total_stocks r = None ∨ total_stocks r = Some 0 →
         Strategies.matchRate s = "0.0")
    ∧ (∀ n, total_stocks r = Some (S n) →
         ∃ q, Js.div (Strategies.stocksWithMatches s) (S n) = Js.Finite q
              ∧ Strategies.matchRate s = Js.toFixed1 (q * (100 # 1)))
    ∧ (results_rows r = None → Strategies.stocksWithMatches s = 0).
Proof.
  eexists. split; [reflexivity|]. simpl. repeat split.
  - intros [-> | ->]; reflexivity.
  - intros n ->. simpl. eexists. split; reflexivity.
  - intros ->. reflexivity.
Qed.

Lemma getSummary_no_division_by_zero_missing_total :
  ∃ s, Strategies.getSummary (Some run_without_total) = Some s
       ∧ Strategies.matchRate s = "0.0" ∧ Strategies.stocksWithMatches s = 1.
Proof.
  destruct (getSummary_no_division_by_zero run_without_total)
    as (s & Hs & _ & Hzero & _ & _).
  exists s. split; [exact Hs|]. split.
  - apply Hzero. left. reflexivity.
  - injection Hs as <-. reflexivity.
Defined.

(** ** The cells of the strategy columns *)

(** The three kinds of cell, in general: no outcome or a null one gives
    the "No Data" tag; a matched outcome gives the MATCH box with its
    score, and its confidence to one decimal place when that confidence is
    not zero; an unmatched outcome gives the "No Match" tag. *)
Lemma strategy_cell_cases (strategyId : string) (record : ResultRow) :
  match row_strategies record ≫= (.!! strategyId) with
  | None | Some NullEntry =>
      Strategies.strategy_cell strategyId record = Strategies.NoDataTag
  | Some (Verdict o) =>
      if matched o then
        ∃ c, Strategies.strategy_cell strategyId record
             = Strategies.MatchBox (score o) c (Strategies.reason_child (reason o))
           ∧ (confidence o = None → c = Strategies.Nothing)
           ∧ (∀ x, confidence o = Some x → ¬ (x == 0)%Q →
                c = Strategies.ConfidenceText (Js.toFixed1 x))
      else Strategies.strategy_cell strategyId record = Strategies.NoMatchTag
  end.
Proof.
  unfold Strategies.strategy_cell.
  destruct (row_strategies record ≫= (.!! strategyId)) as [[|o]|]; try done.
  destruct (matched o); [|done].
  eexists. split; [reflexivity|]. split.
  - by intros ->.
  - intros x -> Hx. simpl. unfold Js.truthy_num.
    destruct (Qeq_bool x 0) eqn:E; [|done].
    by apply Qeq_bool_iff in E.
Qed.

(** C4: for a matched outcome whose confidence is present and equal to 0,
    the cell does not show the confidence to one decimal place: the guard
    [confidence && ...] leaves the bare number 0, which is rendered as text
    next to the score. *)
Theorem strategy_cell_zero_confidence :
  Strategies.strategy_cell "1" zero_confidence_row
    = Strategies.MatchBox (Some (85 # 1)) (Strategies.NumberText (0 # 1)) None
  ∧ Strategies.strategy_cell "1" zero_confidence_row
    ≠ Strategies.MatchBox (Some (85 # 1))
        (Strategies.ConfidenceText (Js.toFixed1 (0 # 1))) None.
Proof. split; [reflexivity | discriminate]. Qed.

(** ** Ensuring that stocks exist *)

Lemma missing_stocks_spec (allStocks : list Stock) (symbols : list string) (sym : string) :
  sym ∈ Strategies.missing_stocks allStocks symbols
  ↔ sym ∈ symbols ∧ ¬ listed allStocks sym.
Proof.
  unfold Strategies.missing_stocks, listed.
  rewrite list_elem_of_In, filter_In, <- list_elem_of_In, negb_true_iff.
  split; intros [Hin Hno]; split; try done.
  - intros (s & Hs & Heq). apply not_true_iff_false in Hno. apply Hno.
    apply existsb_exists. exists s. rewrite <- list_elem_of_In.
    split; [done|]. by apply bool_decide_eq_true.
  - apply not_true_iff_false. intros (s & Hs & Heq)%existsb_exists.
    apply Hno. exists s. rewrite list_elem_of_In.
    split; [done|]. by apply bool_decide_eq_true in Heq.
Qed.

Lemma missing_stocks_nil (allStocks : list Stock) (symbols : list string) :
  (∀ sym, sym ∈ symbols → listed allStocks sym) →
  Strategies.missing_stocks allStocks symbols = [].
Proof.
  intros Hall.
  destruct (Strategies.missing_stocks allStocks symbols) as [|sym l] eqn:E; [done|].
  assert (Hin : sym ∈ Strategies.missing_stocks allStocks symbols)
    by (rewrite E; left).
  apply missing_stocks_spec in Hin as [Hin Hno]. destruct Hno. by apply Hall.
Qed.

Lemma add_missing_stock_run (sym : string) (w : World) :
  Strategies.add_missing_stock sym w =
  ([EvFetch (stock_creation sym) (serves (server w) (stock_creation sym)).2],
   {| server := (serves (server w) (stock_creation sym)).1; ui := ui w;
      fresh := fresh w; today := today w |},
   Ok tt).
Proof.
  unfold Strategies.add_missing_stock, try_catch. rewrite run_bind, run_fetch.
  fold (stock_creation sym).
  destruct (serves (server w) (stock_creation sym)) as [sv [[[] p]|e]]; done.
Qed.

Lemma for_of_cons {A} (x : A) (l : list A) (body : A → M unit) (w : World) :
  for_of (x :: l) body w =
  match body x w with
  | (t1, w1, Ok _) => let '(t2, w2, r) := for_of l body w1 in (t1 ++ t2, w2, r)
  | (t1, w1, Err e) => (t1, w1, Err e)
  end.
Proof. simpl. by rewrite run_bind. Qed.

(** The loop issues one creation request per missing stock, in order,
    never throws and leaves the React state alone. *)
Lemma add_missing_loop (l : list string) (w : World) :
  ∃ t w', for_of l Strategies.add_missing_stock w = (t, w', Ok tt)
    ∧ requests t = stock_creation <$> l
    ∧ (∀ e, e ∈ t → ∃ req res, e = EvFetch req res)
    ∧ ui w' = ui w ∧ fresh w' = fresh w ∧ today w' = today w.
Proof.
  revert w. induction l as [|sym l IH]; intros w.
  - exists [], w. repeat split; try done. by intros e ?%elem_of_nil.
  - rewrite for_of_cons, add_missing_stock_run.
    match goal with
    | |- context [for_of l _ ?w1] =>
        destruct (IH w1) as (t & w' & -> & Hreq & Hev & Hui & Hfr & Hto)
    end.
    eexists _, w'. split; [reflexivity|]. simpl. rewrite Hreq.
    repeat split; try done.
    intros e [->|?]%elem_of_cons; eauto.
Qed.

Lemma stock_array_run method_name p symbols w :
  Strategies.stock_array method_name p symbols w =
  match as_stocks p, symbols with
  | Some l, _ => ([], w, Ok l)
  | None, [] => ([], w, Ok [])
  | None, _ :: _ =>
      ([], w, Err (TypeError ("allStocks." +:+ method_name +:+ " is not a function")))
  end.
Proof. unfold Strategies.stock_array. by destruct symbols, (as_stocks p). Qed.

Lemma requests_app t1 t2 : requests (t1 ++ t2) = requests t1 ++ requests t2.
Proof. apply omap_app. Qed.

(** Close a branch in which the run has been computed. *)
Ltac done_run := eexists _, _, _; split; [reflexivity|]; done.

Lemma ensureStocksExist_run (symbols : list string) (w : World) :
  ∃ t w' b, Strategies.ensureStocksExist symbols w = (t, w', Ok b)
    ∧ requests t = get Strategies.stocks_url :: (stock_creation <$> to_create w symbols)
    ∧ ui w' = ui w ∧ fresh w' = fresh w ∧ today w' = today w.
Proof.
  unfold Strategies.ensureStocksExist, try_catch, to_create, fetched_stocks.
  unfold mbind, M_bind. rewrite run_fetch.
  destruct (serves (server w) (get Strategies.stocks_url)) as [sv [[[] p]|e]];
    simpl; try done_run.
  destruct p as [p|]; simpl; try done_run.
  rewrite stock_array_run.
  destruct (as_stocks p) as [allStocks|]; [|destruct symbols];
    simpl; try done_run.
  case_bool_decide as Hlen; simpl.
  - match goal with
    | |- context [for_of _ _ ?w1] =>
        destruct (add_missing_loop (Strategies.missing_stocks allStocks symbols) w1)
          as (t & w' & -> & Hreq & Hev & Hui & Hfr & Hto)
    end.
    simpl. eexists _, _, _. split; [reflexivity|]. simpl.
    rewrite !requests_app, Hreq. simpl. by rewrite !app_nil_r.
  - eexists _, _, _. split; [reflexivity|]. simpl.
    destruct (Strategies.missing_stocks allStocks symbols); [done|simpl in Hlen; lia].
Qed.

Lemma catalog_post accept st sym :
  serves (Catalog.server accept st) (stock_creation sym)
  = if accept sym && negb (Catalog.holds st sym)
    then (Catalog.server accept
            {| Catalog.held := Catalog.held st
                 ++ [ {| stock_id := Catalog.next_id st; stock_symbol := sym |} ];
               Catalog.watchlists := Catalog.watchlists st |},
          reply true (PStock {| stock_id := Catalog.next_id st; stock_symbol := sym |}))
    else (Catalog.server accept st, Catalog.refuse "Stock not created").
Proof.
  unfold serves. simpl. unfold Catalog.step. simpl.
  by destruct (accept sym && negb (Catalog.holds st sym)).
Qed.

Lemma holds_listed st sym : Catalog.holds st sym = true ↔ listed (Catalog.held st) sym.
Proof.
  unfold Catalog.holds, listed. rewrite existsb_exists. split.
  - intros (s & Hs & Heq). exists s. rewrite list_elem_of_In.
    split; [done|]. by apply bool_decide_eq_true in Heq.
  - intros (s & Hs & Heq). exists s. rewrite <- list_elem_of_In.
    split; [done|]. by apply bool_decide_eq_true.
Qed.

Lemma catalog_loop accept (l : list string) :
  ∀ st w, ∃ t st',
    for_of l Strategies.add_missing_stock (at_catalog accept st w)
      = (t, at_catalog accept st' w, Ok tt)
    ∧ (∀ sym, listed (Catalog.held st) sym → listed (Catalog.held st') sym)
    ∧ (all_answered_ok t → ∀ sym, sym ∈ l → listed (Catalog.held st') sym).
Proof.
  induction l as [|sym l IH]; intros st w.
  - exists [], st. repeat split; try done. by intros _ sym ?%elem_of_nil.
  - rewrite for_of_cons, add_missing_stock_run. simpl.
    rewrite catalog_post.
    destruct (accept sym && negb (Catalog.holds st sym)) eqn:Hacc; simpl.
    + match goal with
      | |- context [for_of l _ ?w1] =>
          change w1 with (at_catalog accept
            {| Catalog.held := Catalog.held st
                 ++ [ {| stock_id := Catalog.next_id st; stock_symbol := sym |} ];
               Catalog.watchlists := Catalog.watchlists st |} w)
      end.
      match goal with
      | |- context [for_of l _ (at_catalog _ ?st1 _)] =>
          destruct (IH st1 w) as (t & st' & -> & Hmono & Hall)
      end.
      exists (EvFetch (stock_creation sym)
                (reply true (PStock {| stock_id := Catalog.next_id st;
                                       stock_symbol := sym |})) :: t), st'.
      split; [reflexivity|]. split.
      * intros s (x & Hx & Hs). apply Hmono. exists x. simpl.
        split; [|done]. apply elem_of_app. by left.
      * intros Hok s [->|Hin]%elem_of_cons.
        -- apply Hmono.
           exists {| stock_id := Catalog.next_id st; stock_symbol := sym |}.
           simpl. split; [|reflexivity]. apply elem_of_app. right. by left.
        -- apply Hall; [|done]. intros req res Hr. apply (Hok req res). by right.
    + match goal with
      | |- context [for_of l _ ?w1] => change w1 with (at_catalog accept st w)
      end.
      destruct (IH st w) as (t & st' & -> & Hmono & Hall).
      exists (EvFetch (stock_creation sym) (Catalog.refuse "Stock not created") :: t), st'.
      split; [reflexivity|]. split; [done|].
      intros Hok. exfalso. destruct (Hok (stock_creation sym) (Catalog.refuse "Stock not created"))
        as (r & Hr & Hokr); [by left|].
      injection Hr as <-. done.
Qed.

Lemma all_answered_ok_app t1 t2 :
  all_answered_ok (t1 ++ t2) ↔ all_answered_ok t1 ∧ all_answered_ok t2.
Proof.
  unfold all_answered_ok. split.
  - intros H. split; intros req res Hin; apply (H req res), elem_of_app; auto.
  - intros [H1 H2] req res [?|?]%elem_of_app; eauto.
Qed.

Lemma all_answered_ok_cons e t :
  all_answered_ok (e :: t) → all_answered_ok t.
Proof. intros H req res Hin. apply (H req res). by right. Qed.

Lemma ensureStocksExist_catalog accept (symbols : list string) st w :
  ∃ t st',
    Strategies.ensureStocksExist symbols (at_catalog accept st w)
      = (t, at_catalog accept st' w, Ok true)
    ∧ (all_answered_ok t → ∀ sym, sym ∈ symbols → listed (Catalog.held st') sym).
Proof.
  unfold Strategies.ensureStocksExist, try_catch.
  unfold mbind, M_bind. rewrite run_fetch. simpl.
  rewrite stock_array_run. simpl.
  case_bool_decide as Hlen; simpl.
  - match goal with
    | |- context [for_of ?l _ ?w1] =>
        change w1 with (at_catalog accept st w);
        destruct (catalog_loop accept l st w) as (t & st' & -> & Hmono & Hall)
    end.
    simpl. eexists _, st'. split; [reflexivity|].
    intros Hok sym Hin.
    destruct (Catalog.holds st sym) eqn:Hh.
    + by apply Hmono, holds_listed.
    + apply Hall.
      * do 2 apply all_answered_ok_cons in Hok.
        rewrite app_nil_r in Hok. by apply all_answered_ok_app in Hok as [Hok _].
      * apply missing_stocks_spec. split; [done|].
        intros Hl%holds_listed. congruence.
  - eexists _, st. split; [reflexivity|].
    intros _ sym Hin.
    destruct (Catalog.holds st sym) eqn:Hh; [by apply holds_listed|].
    assert (sym ∈ Strategies.missing_stocks (Catalog.held st) symbols) as Hm.
    { apply missing_stocks_spec. split; [done|]. intros Hl%holds_listed. congruence. }
    destruct (Strategies.missing_stocks (Catalog.held st) symbols);
      [by apply elem_of_nil in Hm | simpl in Hlen; lia].
Qed.

(** C2: [ensureStocksExist] issues a stock-creation POST exactly for the
    input symbols absent from the stock list it fetched, none when the
    fetch fails and none when every input symbol is listed; and against
    the catalog store a second call right after a first call whose
    requests were all answered ok issues no creation request. *)
Theorem ensureStocksExist_idempotent_upsert (symbols : list string) :
  (∀ w, requests (trace_of (Strategies.ensureStocksExist symbols) w)
        = get Strategies.stocks_url :: (stock_creation <$> to_create w symbols))
  ∧ (∀ w allStocks sym, fetched_stocks w = Some allStocks →
       (sym ∈ to_create w symbols ↔ sym ∈ symbols ∧ ¬ listed allStocks sym))
  ∧ (∀ w, fetched_stocks w = None → to_create w symbols = [])
  ∧ (∀ w allStocks, fetched_stocks w = Some allStocks →
       (∀ sym, sym ∈ symbols → listed allStocks sym) →
       requests (trace_of (Strategies.ensureStocksExist symbols) w)
       = [get Strategies.stocks_url])
  ∧ (∀ accept st w,
       let first := Strategies.ensureStocksExist symbols in
       all_answered_ok (trace_of first (at_catalog accept st w)) →
       result_of first (at_catalog accept st w) = Ok true
       ∧ requests (trace_of (Strategies.ensureStocksExist symbols)
                     (world_of first (at_catalog accept st w)))
         = [get Strategies.stocks_url]).
Proof.
  assert (Hreq : ∀ w, requests (trace_of (Strategies.ensureStocksExist symbols) w)
        = get Strategies.stocks_url :: (stock_creation <$> to_create w symbols)).
  { intros w. unfold trace_of.
    by destruct (ensureStocksExist_run symbols w) as (t & w' & b & -> & Hr & _). }
  split; [exact Hreq|]. split; [|split; [|split]].
  - intros w allStocks sym Hf. unfold to_create. rewrite Hf.
    apply missing_stocks_spec.
  - intros w Hf. unfold to_create. by rewrite Hf.
  - intros w allStocks Hf Hall. rewrite Hreq. unfold to_create. rewrite Hf.
    by rewrite missing_stocks_nil.
  - intros accept st w first. unfold trace_of, result_of, world_of, first.
    destruct (ensureStocksExist_catalog accept symbols st w)
      as (t & st' & -> & Hall).
    simpl. intros Hok. split; [done|].
    fold (trace_of (Strategies.ensureStocksExist symbols) (at_catalog accept st' w)).
    rewrite Hreq. unfold to_create, fetched_stocks. simpl.
    by rewrite missing_stocks_nil by auto.
Qed.

Lemma ensureStocksExist_idempotent_upsert_twice :
  let first := Strategies.ensureStocksExist ["AAA.NS"; "BBB.BO"] in
  let w := at_catalog accept_all one_stock (mount (scripted [])) in
  requests (trace_of first w)
    = [get Strategies.stocks_url; stock_creation "BBB.BO"]
  ∧ requests (trace_of first (world_of first w)) = [get Strategies.stocks_url].
Proof.
  split; [reflexivity|].
  destruct (ensureStocksExist_idempotent_upsert ["AAA.NS"; "BBB.BO"])
    as (_ & _ & _ & _ & Hsecond).
  apply (Hsecond accept_all one_stock (mount (scripted []))).
  intros req res Hin. vm_compute in Hin.
  repeat (apply elem_of_cons in Hin as [Hin|Hin];
          [inversion Hin; subst; eexists; split; reflexivity|]).
  by apply elem_of_nil in Hin.
Defined.

(** The return value [true] alone does not make the call a success: when
    the catalog refuses the creation, the second call writes again. *)
Example ensureStocksExist_refused_then_repeated :
  let first := Strategies.ensureStocksExist ["BBB.BO"] in
  let w := at_catalog refuse_all one_stock (mount (scripted [])) in
  result_of first w = Ok true
  ∧ requests (trace_of first (world_of first w))
    = [get Strategies.stocks_url; stock_creation "BBB.BO"].
Proof. split; reflexivity. Qed.

(** ** Creating a watchlist from results *)

Lemma string_app_cons (c : Ascii.ascii) (s1 s2 : string) :
  String c s1 +:+ s2 = String c (s1 +:+ s2).
Proof. reflexivity. Qed.

Lemma string_app_assoc (s1 s2 s3 : string) : (s1 +:+ s2) +:+ s3 = s1 +:+ (s2 +:+ s3).
Proof.
  induction s1 as [|c s1 IH]; [done|]. by rewrite !string_app_cons, IH.
Qed.

Lemma string_app_nil_r (s : string) : s +:+ EmptyString = s.
Proof. induction s as [|c s IH]; [done|]. by rewrite string_app_cons, IH. Qed.

Lemma names_app_r (pre content sym : string) :
  names content sym → names (pre +:+ content) sym.
Proof.
  intros (p & q & ->). exists (pre +:+ p), q. by rewrite string_app_assoc.
Qed.

Lemma join_names (sep : string) (l : list string) (sym : string) :
  sym ∈ l → names (Js.join sep l) sym.
Proof.
  unfold Js.join. induction l as [|x l IH]; [by intros ?%elem_of_nil|].
  intros [->|Hin]%elem_of_cons.
  - destruct l as [|y l]; simpl.
    + exists EmptyString, EmptyString. by rewrite string_app_nil_r.
    + by exists EmptyString, (sep +:+ String.concat sep (y :: l)).
  - destruct l as [|y l]; [by apply elem_of_nil in Hin|].
    change (String.concat sep (x :: y :: l))
      with (x +:+ (sep +:+ String.concat sep (y :: l))).
    by apply names_app_r, names_app_r, IH.
Qed.

Lemma map_symbols_spec (allStocks : list Stock) (selected : list string) (sym : string) :
  sym ∈ selected →
  (∃ stock, Strategies.find_stock allStocks sym = Some stock
            ∧ stock_id stock ∈ (Strategies.map_symbols allStocks selected).1)
  ∨ (Strategies.find_stock allStocks sym = None
     ∧ sym ∈ (Strategies.map_symbols allStocks selected).2).
Proof.
  induction selected as [|x l IH]; [by intros ?%elem_of_nil|].
  simpl. destruct (Strategies.map_symbols allStocks l) as [ids nf] eqn:E. simpl in IH.
  intros [->|Hin]%elem_of_cons.
  - destruct (Strategies.find_stock allStocks x) as [stock|] eqn:F; simpl.
    + left. exists stock. split; [done|]. by left.
    + right. split; [done|]. by left.
  - destruct (IH Hin) as [(stock & F & Hid)|[F Hnf]];
      destruct (Strategies.find_stock allStocks x); simpl.
    + left. exists stock. split; [done|]. by right.
    + left. by exists stock.
    + right. by split.
    + right. split; [done|]. by right.
Qed.

Lemma find_stock_listed (allStocks : list Stock) (sym : string) (stock : Stock) :
  Strategies.find_stock allStocks sym = Some stock →
  stock ∈ allStocks ∧ stock_symbol stock = sym.
Proof.
  unfold Strategies.find_stock. intros [Hin Heq]%find_some.
  split; [by apply list_elem_of_In | by apply bool_decide_eq_true in Heq].
Qed.

Lemma fetch_in_requests (t : list Event) (req : Request) (res : FetchResult) :
  EvFetch req res ∈ t → req ∈ requests t.
Proof.
  intros Hin. unfold requests. apply list_elem_of_omap.
  exists (EvFetch req res). by split.
Qed.

Lemma ensureStocksExist_creates_no_watchlist (symbols : list string) (w : World)
    (req : Request) (res : FetchResult) :
  EvFetch req res ∈ trace_of (Strategies.ensureStocksExist symbols) w →
  ¬ creates_watchlist req.
Proof.
  intros Hin%fetch_in_requests. unfold trace_of in Hin.
  destruct (ensureStocksExist_run symbols w) as (t & w' & b & E & Hreq & _).
  rewrite E in Hin. simpl in Hin. rewrite Hreq in Hin.
  unfold creates_watchlist.
  apply elem_of_cons in Hin as [->|Hin]; [discriminate|].
  apply list_elem_of_fmap in Hin as (sym & -> & _). discriminate.
Qed.

(** Split a membership hypothesis over a trace into its cases. *)
Ltac in_trace H :=
  repeat first
    [ apply elem_of_app in H as [H|H]
    | apply elem_of_cons in H as [H|H]
    | apply elem_of_nil in H; destruct H ].

Section WatchlistCreation.
Import Strategies.

Lemma no_creation_app t1 t2 : no_creation t1 → no_creation t2 → no_creation (t1 ++ t2).
Proof. intros H1 H2 req res [?|?]%elem_of_app; eauto. Qed.

(** [find] returns the first stock with the symbol. *)
Lemma find_stock_resolves (allStocks : list Stock) (sym : string) (stock : Stock) :
  find_stock allStocks sym = Some stock ↔ resolves_to allStocks sym stock.
Proof.
  unfold find_stock, resolves_to. induction allStocks as [|s l IH]; simpl.
  - split; [done|]. intros (before & after & E & _). by destruct before.
  - case_bool_decide as Hs.
    + split.
      * intros [= <-]. exists [], l. split; [done|]. split; [done|].
        by intros ? ?%elem_of_nil.
      * intros ([|b before] & after & E & Hsym & Hfirst).
        -- by injection E as -> _.
        -- injection E as -> _. destruct (Hfirst b); [by left|done].
    + rewrite IH. split.
      * intros (before & after & -> & Hsym & Hfirst).
        exists (s :: before), after. split; [done|]. split; [done|].
        intros x [->|Hx]%elem_of_cons; [done|by apply Hfirst].
      * intros ([|b before] & after & E & Hsym & Hfirst).
        -- injection E as <- _. done.
        -- injection E as <- ->. exists before, after. split; [done|].
           split; [done|]. intros x Hx. apply Hfirst. by right.
Qed.

Lemma find_stock_none (allStocks : list Stock) (sym : string) :
  find_stock allStocks sym = None → ¬ listed allStocks sym.
Proof.
  unfold find_stock. intros Hnone (s & Hin & Hsym).
  apply list_elem_of_In in Hin.
  pose proof (find_none _ _ Hnone s Hin) as Hs. simpl in Hs.
  by apply bool_decide_eq_false in Hs.
Qed.

Lemma opt_or_default (o : option string) :
  Js.opt_or o EmptyString = default EmptyString o.
Proof.
  destruct o as [s|]; [|done]. unfold Js.opt_or, Js.str_or, Js.truthy_str.
  by case_bool_decide.
Qed.

(** The request the code builds is the request spelled out. *)
Lemma watchlist_creation_eq (values : WatchlistValues) (stockIds : list nat) :
  post_json watchlists_url (new_watchlist values stockIds)
  = watchlist_creation (values_name values) (values_description values) stockIds.
Proof.
  unfold post_json, new_watchlist, watchlist_creation. by rewrite opt_or_default.
Qed.

Lemma map_symbols_ids (allStocks : list Stock) (selected : list string) (id : nat) :
  id ∈ (map_symbols allStocks selected).1 ↔
  ∃ sym stock, sym ∈ selected ∧ find_stock allStocks sym = Some stock
               ∧ stock_id stock = id.
Proof.
  induction selected as [|x l IH]; simpl.
  { split; [by intros ?%elem_of_nil|]. by intros (? & ? & ?%elem_of_nil & _). }
  destruct (map_symbols allStocks l) as [ids nf]. simpl in IH.
  destruct (find_stock allStocks x) as [stock|] eqn:F; simpl.
  - rewrite elem_of_cons, IH. split.
    + intros [->|(sym & st & ? & ? & ?)].
      * exists x, stock. split; [by left|done].
      * exists sym, st. split; [by right|done].
    + intros (sym & st & [->|Hin]%elem_of_cons & Hf & Hid).
      * left. by rewrite F in Hf; injection Hf as <-.
      * right. by exists sym, st.
  - rewrite IH. split.
    + intros (sym & st & ? & ? & ?). exists sym, st. split; [by right|done].
    + intros (sym & st & [->|Hin]%elem_of_cons & Hf & Hid).
      * by rewrite F in Hf.
      * by exists sym, st.
Qed.

(** What the mapping loop leaves: every selected symbol is resolved to
    an id of the list, or is listed nowhere and is among those not
    found. *)
Lemma map_symbols_accounts (allStocks : list Stock) (selected : list string)
    (t : list Event) :
  let notFound := (map_symbols allStocks selected).2 in
  (notFound ≠ [] →
   EvMessage Warning
     (Some (pretty (length notFound) +:+ " stocks could not be added: "
              +:+ Js.join ", " notFound)) ∈ t) →
  ∀ sym, sym ∈ selected →
    (resolved_in allStocks (map_symbols allStocks selected).1 sym
     ∧ listed allStocks sym)
    ∨ warned_about t sym.
Proof.
  intros notFound Hwarn sym Hsym.
  destruct (map_symbols_spec allStocks selected sym Hsym)
    as [(stock & F & Hid)|[F Hnf]].
  - left. split.
    + exists stock. split; [by apply find_stock_resolves|done].
    + apply find_stock_listed in F as [? ?]. by exists stock.
  - right. eexists. split.
    + apply Hwarn. intros E. fold notFound in Hnf. rewrite E in Hnf.
      by apply elem_of_nil in Hnf.
    + by apply names_app_r, names_app_r, join_names.
Qed.

(** A creation request of the trace that carries the id a symbol
    resolves to includes the symbol. *)
Lemma never_dropped_intro values selected allStocks t :
  accounts_for values selected (Some allStocks) t →
  none_dropped selected (Some allStocks) t →
  (∃ req res, EvFetch req res ∈ t ∧ creates_watchlist req)
  ∨ (∀ sym, sym ∈ selected → ¬ listed allStocks sym) →
  never_dropped values selected (Some allStocks) t.
Proof.
  intros Hacc Hnone [(req & res & Hin & Hc)|Hno] sym Hsym.
  - destruct (Hacc req res Hin Hc)
      as (allStocks' & stockIds & [= <-] & -> & _ & _ & Hall).
    destruct (Hall sym Hsym) as [(stock & Hres & Hid)|Hw]; [left|by right].
    by exists allStocks, stock, stockIds, res.
  - right. destruct (Hnone allStocks sym eq_refl Hsym) as [Hl|Hw]; [|done].
    by destruct (Hno sym Hsym).
Qed.

(** A run in which the stock list could not be read. *)
Lemma submit_unread values selected t1 tl :
  no_creation t1 → no_creation tl →
  (∃ content, EvMessage Failure content ∈ tl) →
  runs_first t1 (t1 ++ tl)
  ∧ accounts_for values selected None (t1 ++ tl)
  ∧ none_dropped selected None (t1 ++ tl)
  ∧ fails_visibly (t1 ++ tl).
Proof.
  intros H1 H2 [content Hfail]. pose proof (no_creation_app _ _ H1 H2) as H.
  split; [split; eauto|]. split; [|split].
  - intros req res Hin Hc. by destruct (H req res).
  - intros allStocks sym [=].
  - split; [done|]. exists content. apply elem_of_app. by right.
Qed.

(** A run that reads the stock list and issues no creation request. *)
Lemma submit_without_creation values selected allStocks t1 tl :
  no_creation t1 → no_creation tl →
  ((map_symbols allStocks selected).2 ≠ [] →
   EvMessage Warning
     (Some (pretty (length (map_symbols allStocks selected).2)
              +:+ " stocks could not be added: "
              +:+ Js.join ", " (map_symbols allStocks selected).2)) ∈ tl) →
  (map_symbols allStocks selected).1 = [] →
  runs_first t1 (t1 ++ tl)
  ∧ accounts_for values selected (Some allStocks) (t1 ++ tl)
  ∧ none_dropped selected (Some allStocks) (t1 ++ tl)
  ∧ never_dropped values selected (Some allStocks) (t1 ++ tl)
  ∧ no_creation (t1 ++ tl).
Proof.
  intros H1 H2 Hwarn Hids. pose proof (no_creation_app _ _ H1 H2) as H.
  assert (accounts_for values selected (Some allStocks) (t1 ++ tl)) as Hacc.
  { intros req res Hin Hc. by destruct (H req res). }
  assert (none_dropped selected (Some allStocks) (t1 ++ tl)) as Hnone.
  { intros allStocks' sym [= <-] Hsym.
    destruct (map_symbols_accounts allStocks selected (t1 ++ tl)) with (sym := sym)
      as [[_ ?]|?]; auto.
    intros Hne. apply elem_of_app. right. by apply Hwarn. }
  split; [split; eauto|]. split; [done|]. split; [done|]. split; [|done].
  apply never_dropped_intro; [done..|]. right.
  intros sym Hsym (s & Hin & Hs).
  destruct (find_stock allStocks sym) as [stock|] eqn:F.
  - assert (stock_id stock ∈ (map_symbols allStocks selected).1) as Hid.
    { apply map_symbols_ids. by exists sym, stock. }
    rewrite Hids in Hid. by apply elem_of_nil in Hid.
  - apply find_stock_none in F. apply F. by exists s.
Qed.

(** A run that issues the creation request after the events [mid]. *)
Lemma submit_with_creation values selected allStocks t1 mid res tl :
  let stockIds := (map_symbols allStocks selected).1 in
  let notFound := (map_symbols allStocks selected).2 in
  stockIds ≠ [] →
  no_creation t1 → no_creation mid → no_creation tl →
  (notFound ≠ [] →
   EvMessage Warning
     (Some (pretty (length notFound) +:+ " stocks could not be added: "
              +:+ Js.join ", " notFound)) ∈ mid) →
  let t := t1 ++ mid
             ++ EvFetch (post_json watchlists_url (new_watchlist values stockIds)) res
             :: tl in
  runs_first t1 t
  ∧ accounts_for values selected (Some allStocks) t
  ∧ none_dropped selected (Some allStocks) t
  ∧ never_dropped values selected (Some allStocks) t
  ∧ ((∀ allStocks' sym, Some allStocks = Some allStocks' → sym ∈ selected →
        ¬ listed allStocks' sym) →
     no_creation t).
Proof.
  intros stockIds notFound Hids H1 Hmid Htl Hwarn t.
  assert (Hall : ∀ sym, sym ∈ selected →
            (resolved_in allStocks stockIds sym ∧ listed allStocks sym)
            ∨ warned_about t sym).
  { apply map_symbols_accounts. intros Hne. subst t.
    apply elem_of_app. right. apply elem_of_app. left. by apply Hwarn. }
  split; [split; [by eexists|done]|]. split; [|split; [|split]].
  - intros req r Hin Hc. exists allStocks, stockIds.
    split; [done|]. split.
    { rewrite <- watchlist_creation_eq.
      apply elem_of_app in Hin as [Hin|Hin]; [by destruct (H1 req r)|].
      apply elem_of_app in Hin as [Hin|Hin]; [by destruct (Hmid req r)|].
      apply elem_of_cons in Hin as [Hin|Hin]; [by injection Hin as -> ->|].
      by destruct (Htl req r). }
    split; [done|]. split.
    + intros id. unfold stockIds. rewrite map_symbols_ids.
      by setoid_rewrite find_stock_resolves.
    + intros sym Hsym. destruct (Hall sym Hsym) as [[? _]|?]; auto.
  - intros allStocks' sym [= <-] Hsym.
    destruct (Hall sym Hsym) as [[_ ?]|?]; auto.
  - intros sym Hsym. destruct (Hall sym Hsym) as [[(stock & Hres & Hid) _]|?]; [left|by right].
    exists allStocks, stock, stockIds, res. split; [done|]. split; [done|].
    split; [done|]. rewrite <- watchlist_creation_eq. subst t.
    apply elem_of_app. right. apply elem_of_app. right. by left.
  - intros Hnone. exfalso.
    destruct stockIds as [|id ids] eqn:E; [done|].
    destruct (proj1 (map_symbols_ids allStocks selected id))
      as (sym & stock & Hsym & F & _).
    { fold stockIds. rewrite E. by left. }
    apply (Hnone allStocks sym eq_refl Hsym).
    apply find_stock_listed in F as [? ?]. by exists stock.
Qed.

Ltac no_create :=
  match goal with
  | |- no_creation _ =>
      let req := fresh "req" in let res := fresh "res" in let Hin := fresh "Hin" in
      intros req res Hin; in_trace Hin; inversion Hin; discriminate
  end.

(** The warning is in the computed trace, or there is nothing to warn
    about. *)
Ltac warned :=
  match goal with
  | Hnf : 0 < length _ |- _ → _ ∈ _ => intros _; repeat constructor
  | Hnf : ¬ 0 < length ?nf |- ?nf ≠ [] → _ =>
      intros Hne; destruct nf; [done | simpl in Hnf; lia]
  end.

(** The error message is in the computed trace. *)
Ltac failed := eexists; repeat constructor.

(** Where the stock list cannot be read after [ensureStocksExist], a
    selected symbol is not accounted for: the trace holds no creation
    request and no warning, so the selected symbol AAA.NS, which the
    server listed a moment before, is neither resolved to an id in a
    creation request nor named in a warning; the user is shown the
    error "Failed to fetch stocks". *)
Lemma handleSubmitWatchlist_unread_stock_list :
  let w := showing stocks_then_error (with_selectedStocks ["AAA.NS"] initial_ui) in
  let fetched := fetched_stocks
                   (world_of (ensureStocksExist ["AAA.NS"]) (now_loading w)) in
  let t := trace_of (handleSubmitWatchlist Page.strategies_props tech_watchlist) w in
  selectedStocks (ui w) = ["AAA.NS"]
  ∧ no_creation t
  ∧ (∀ content, EvMessage Warning content ∉ t)
  ∧ ¬ never_dropped tech_watchlist ["AAA.NS"] fetched t.
Proof.
  intros w fetched t.
  assert (∀ content, EvMessage Warning content ∉ t) as Hquiet.
  { intros content Hin. vm_compute in Hin. in_trace Hin; discriminate. }
  split; [reflexivity|]. split; [|split; [exact Hquiet|]].
  - intros req res Hin. vm_compute in Hin.
    in_trace Hin; inversion Hin; discriminate.
  - intros Hclaim.
    destruct (Hclaim "AAA.NS") as [(allStocks & _ & _ & _ & Hf & _)|(content & Hin & _)].
    + by left.
    + discriminate.
    + by apply (Hquiet (Some content)).
Qed.

(** C1, amended: when a watchlist is created from execution results,
    [ensureStocksExist] runs on the selected symbols before any
    watchlist-creation request.  Every creation request is the POST to
    /api/watchlists/ whose stock_ids hold exactly the ids the selected
    symbols resolve to in the stock list read just before, at least
    one.  When that stock list is read, every selected symbol is either
    resolved to an id in the stock_ids of a creation request that is
    issued, or named in a warning shown to the user, and every selected
    symbol the list does not hold is named in the warning, whether or
    not a request is issued.  When the stock list cannot be read, an
    error message is shown and no creation request is issued.  And
    when no selected symbol is listed, no creation request is issued
    at all. *)
Theorem handleSubmitWatchlist_no_symbol_dropped
    (props : Props) (values : WatchlistValues) (w : World) :
  let selected := selectedStocks (ui w) in
  let first := ensureStocksExist selected in
  let fetched := fetched_stocks (world_of first (now_loading w)) in
  let t := trace_of (handleSubmitWatchlist props values) w in
  runs_first (trace_of first (now_loading w)) t
  ∧ accounts_for values selected fetched t
  ∧ none_dropped selected fetched t
  ∧ (fetched ≠ None → never_dropped values selected fetched t)
  ∧ (fetched = None → fails_visibly t)
  ∧ ((∀ allStocks sym, fetched = Some allStocks → sym ∈ selected →
        ¬ listed allStocks sym) →
     no_creation t).
Proof.
  intros selected first fetched t.
  pose proof (ensureStocksExist_creates_no_watchlist selected (now_loading w)) as Hfirst.
  fold (no_creation (trace_of (ensureStocksExist selected) (now_loading w))) in Hfirst.
  destruct (ensureStocksExist_run selected (now_loading w))
    as (t1 & w1 & b & E & Hreq & Hui & _).
  assert (Ht : t = (handleSubmitWatchlist props values w).1.1) by reflexivity.
  clearbody t. subst fetched. unfold world_of, trace_of, first in *. clear first.
  unfold handleSubmitWatchlist, finally, try_catch in Ht.
  unfold mbind, M_bind, get_ui, set_ui in Ht. simpl in Ht.
  fold (now_loading w) in Ht. fold selected in Ht.
  rewrite E in *. simpl in *. rewrite run_fetch in Ht. unfold fetched_stocks.
  destruct (serves (server w1) (get stocks_url)) as [sv res] eqn:Esrv.
  simpl in *.
  assert (Hunread : ∀ tl, no_creation tl →
    (∃ content, EvMessage Failure content ∈ tl) → t = t1 ++ tl →
    runs_first t1 t
    ∧ accounts_for values selected None t
    ∧ none_dropped selected None t
    ∧ (@None (list Stock) ≠ None → never_dropped values selected None t)
    ∧ (@None (list Stock) = None → fails_visibly t)
    ∧ ((∀ allStocks sym, None = Some allStocks → sym ∈ selected →
          ¬ listed allStocks sym) → no_creation t)).
  { intros tl Htl Hfail ->.
    destruct (submit_unread values selected t1 tl Hfirst Htl Hfail)
      as (? & ? & ? & Hvis).
    repeat (split; [done|]). intros _. apply Hvis. }
  destruct res as [[[] [p|]]|e]; simpl in *;
    try (rewrite <- !app_assoc in Ht; eapply Hunread; [| |exact Ht];
         [no_create|failed]).
  rewrite stock_array_run in Ht.
  destruct (as_stocks p) as [allStocks|] eqn:Hp.
  2: { destruct selected; simpl in Ht;
       rewrite <- !app_assoc in Ht;
       (eapply Hunread; [| |exact Ht]; [no_create|failed]). }
  clear Hunread. simpl in Ht.
  pose proof (submit_without_creation values selected allStocks t1) as Hwithout.
  pose proof (submit_with_creation values selected allStocks t1) as Hwith.
  destruct (map_symbols allStocks selected) as [stockIds notFoundStocks] eqn:Hmap.
  simpl in *.
  assert (Hread : ∀ t',
    runs_first t1 t'
    ∧ accounts_for values selected (Some allStocks) t'
    ∧ none_dropped selected (Some allStocks) t'
    ∧ never_dropped values selected (Some allStocks) t'
    ∧ ((∀ allStocks' sym, Some allStocks = Some allStocks' → sym ∈ selected →
          ¬ listed allStocks' sym) → no_creation t') →
    runs_first t1 t'
    ∧ accounts_for values selected (Some allStocks) t'
    ∧ none_dropped selected (Some allStocks) t'
    ∧ (Some allStocks ≠ None → never_dropped values selected (Some allStocks) t')
    ∧ (Some allStocks = None → fails_visibly t')
    ∧ ((∀ allStocks' sym, Some allStocks = Some allStocks' → sym ∈ selected →
          ¬ listed allStocks' sym) → no_creation t')).
  { intros t' (? & ? & ? & ? & ?). repeat (split; [done|]). done. }
  apply Hread. clear Hread.
  case_bool_decide as Hnf; case_bool_decide as Hids; simpl in Ht.
  1, 3: rewrite <- ?app_assoc in Ht; simpl in Ht; subst t;
    match goal with
    | |- runs_first _ (_ ++ ?tl) ∧ _ =>
        destruct (Hwithout tl Hfirst) as (? & ? & ? & ? & ?);
          [no_create | warned | by destruct stockIds | by auto]
    end.
  all: assert (stockIds ≠ []) by (by intros ->).
  all: rewrite run_fetch in Ht;
    match type of Ht with
    | context [serves ?sv1 ?req] =>
        destruct (serves sv1 req) as [sv2 [[[] [p2|]]|e2]]
    end;
    simpl in Ht; try destruct (onRefresh props); simpl in Ht;
    rewrite <- ?app_assoc in Ht; simpl in Ht; subst t.
  all: first
    [ apply (Hwith [_; _; _]) | apply (Hwith [_; _]) ];
    try done; try no_create; warned.
Qed.

Lemma handleSubmitWatchlist_no_symbol_dropped_partial :
  let w := at_catalog picky one_stock
             (showing (scripted []) (with_selectedStocks ["AAA.NS"; "ZZZ"] initial_ui)) in
  let t := trace_of (handleSubmitWatchlist Page.strategies_props tech_watchlist) w in
  watchlist_creation "Tech" None [1] ∈ requests t
  ∧ warned_about t "ZZZ".
Proof.
  intros w t.
  destruct (handleSubmitWatchlist_no_symbol_dropped Page.strategies_props
              tech_watchlist w) as (_ & Hacc & Hnone & _).
  destruct (Hacc (watchlist_creation "Tech" None [1]) (reply true (PWatchlist 1)))
    as (allStocks & stockIds & Hf & Hreq & Hne & Hids & Hsyms).
  { vm_compute. repeat constructor. }
  { reflexivity. }
  split.
  - apply (fetch_in_requests _ _ (reply true (PWatchlist 1))).
    vm_compute. repeat constructor.
  - destruct (Hnone [ {| stock_id := 1; stock_symbol := "AAA.NS" |} ] "ZZZ")
      as [(s & Hin & Hsym)|Hw]; [reflexivity | by right; left | | exact Hw].
    apply list_elem_of_singleton in Hin. subst s. discriminate.
Defined.

End WatchlistCreation.

Section Upload.
Import Strategies.

(** ** Uploading a strategy *)

Lemma opt_or_truthy (o : option string) (d alt : string) :
  d ≠ EmptyString → Js.str_or (Js.opt_or o d) alt = Js.opt_or o d.
Proof.
  intros Hd. unfold Js.str_or, Js.opt_or, Js.truthy_str.
  destruct o as [s|].
  - unfold Js.str_or, Js.truthy_str.
    destruct (bool_decide (s = EmptyString)) eqn:E; simpl.
    + by rewrite bool_decide_eq_false_2.
    + by rewrite E.
  - by rewrite bool_decide_eq_false_2.
Qed.

(** Whatever the server and the props, a refresh only follows an ok reply. *)
Lemma handleUpload_refresh_only_if_ok (props : Props) (file : File) (w : World) :
  EvRefresh ∈ trace_of (handleUpload props file) w →
  ∃ r, (serves (server w) (upload_request file)).2 = Resolved r ∧ ok r = true.
Proof.
  unfold trace_of, handleUpload, call_onRefresh, finally, try_catch.
  unfold mbind, M_bind, set_ui. simpl. rewrite run_fetch. simpl.
  destruct (serves (server w) (upload_request file)) as [sv [[[] [p|]]|e]];
    simpl; try destruct (onRefresh props); simpl;
    intros Hin; in_trace Hin; try discriminate; eexists; split; reflexivity.
Qed.

(** For a caller that passes [onRefresh], as [StrategiesProps] requires,
    and a reply that carries a body: [handleUpload] calls [onRefresh] if
    and only if the upload reply is ok; on a reply that is not ok it
    shows the error detail the server sent ("Upload failed" when there
    is none) as an error message, shows no other message, does not
    refresh and leaves the upload modal as it was. *)
Lemma handleUpload_wired
    (props : Props) (file : File) (w : World) (r : Response) (p : Payload) :
  onRefresh props = true →
  (serves (server w) (upload_request file)).2 = Resolved r →
  payload r = Some p →
  let t := trace_of (handleUpload props file) w in
  let w' := world_of (handleUpload props file) w in
  (EvRefresh ∈ t ↔ ok r = true)
  ∧ (ok r = false →
       (EvRefresh ∉ t)
       ∧ EvMessage Failure (Some (Js.opt_or (get_detail p) "Upload failed")) ∈ t
       ∧ (∀ lvl content, EvMessage lvl content ∈ t → lvl = Failure)
       ∧ uploadModal (ui w') = uploadModal (ui w)).
Proof.
  intros Hprop Hsrv Hp t w'. subst t w'.
  unfold trace_of, world_of, handleUpload, call_onRefresh, finally, try_catch.
  unfold mbind, M_bind, set_ui. simpl. rewrite run_fetch. simpl.
  rewrite Hsrv, Hprop.
  destruct r as [[] pl]; simpl in *; subst pl; simpl.
  - split; [split; [done|]|done]. intros _. repeat constructor.
  - rewrite opt_or_truthy by done.
    assert (EvRefresh ∉ [EvFetch (upload_request file)
              (Resolved {| ok := false; payload := Some p |});
            EvJson {| ok := false; payload := Some p |};
            EvMessage Failure (Some (Js.opt_or (get_detail p) "Upload failed"))])
      as Hno.
    { intros Hin. in_trace Hin; discriminate. }
    split; [split; [by intros ?|done]|]. intros _.
    split; [done|]. split; [repeat constructor|]. split.
    + intros lvl content Hin. in_trace Hin; try discriminate. by injection Hin as -> _.
    + by destruct (ui w).
Qed.

Example handleUpload_wired_rejected :
  let t := trace_of (handleUpload refreshing_props strategy_file)
             (mount (scripted [rejected_upload])) in
  (EvRefresh ∉ t)
  ∧ EvMessage Failure (Some "Strategy must implement analyze(symbols)") ∈ t.
Proof.
  intros t.
  destruct (handleUpload_wired refreshing_props strategy_file
              (mount (scripted [rejected_upload]))
              {| ok := false;
                 payload := Some (PProblem
                   (Some "Strategy must implement analyze(symbols)") None) |}
              (PProblem (Some "Strategy must implement analyze(symbols)") None))
    as [_ Hrej]; [reflexivity..|].
  destruct (Hrej eq_refl) as (Hno & Hmsg & _). split; [exact Hno | exact Hmsg].
Qed.

(** C5 fails on the page as [app/page.tsx] renders it.  The page passes
    no [onRefresh] to the component, although [StrategiesProps] requires
    one and [handleScan] guards its own call.  When the server accepts
    the upload of a strategy file, [handleUpload] shows the success
    message, then fails on calling [onRefresh] and shows the TypeError
    as an error message: the reply is ok and no refresh follows. *)
Theorem handleUpload_accepted_but_not_refreshed :
  let w := mount (scripted [reply true (PUploaded (Some "Strategy uploaded"))]) in
  let t := trace_of (handleUpload Page.strategies_props rsi_strategy_file) w in
  (serves (server w) (upload_request rsi_strategy_file)).2
    = Resolved {| ok := true; payload := Some (PUploaded (Some "Strategy uploaded")) |}
  ∧ t = [EvFetch (upload_request rsi_strategy_file)
           (reply true (PUploaded (Some "Strategy uploaded")));
         EvJson {| ok := true; payload := Some (PUploaded (Some "Strategy uploaded")) |};
         EvMessage Success (Some "Strategy uploaded");
         EvMessage Failure (Some "onRefresh is not a function")]
  ∧ EvRefresh ∉ t.
Proof.
  intros w t. split; [reflexivity|]. split; [reflexivity|].
  intros Hin. vm_compute in Hin. in_trace Hin; discriminate.
Qed.

End Upload.

Section Cancelling.
Import Strategies.

(** ** Cancelling *)

(** What the caller in the sources does: the execute call of the page
    issues exactly one request, the execute POST, with no abort signal
    and with save_results true, and aborts nothing; when the reply
    parses it is stored as the results.  Only the scan request carries
    an abort signal, and when that request is aborted [handleScan]
    shows no message, does not refresh and clears its scanning state. *)
Lemma execute_carries_no_abort_signal
    (props : Props) (values : ExecuteValues) (w : World) :
  let t := trace_of (handleExecute Page.strategies_props values) w in
  let req := execute_request (watchlist_id values) (strategy_ids values) in
  requests t = [req]
  ∧ signal req = None
  ∧ (∀ c, EvAbort c ∉ t)
  ∧ (∀ r p, (serves (server w) req).2 = Resolved r → payload r = Some p →
       results (ui (world_of (handleExecute Page.strategies_props values) w))
       = Some (as_results p))
  ∧ (scanning (ui w) = false →
     (serves (server w) (scan_request (fresh w))).2 = aborted →
     trace_of (handleScan props) w
     = abort_previous (ui w)
         ++ [EvMessageDestroy; EvFetch (scan_request (fresh w)) aborted]
     ∧ scanning (ui (world_of (handleScan props) w)) = false
     ∧ scanAbortController (ui (world_of (handleScan props) w)) = None).
Proof.
  intros t req. subst t req. split; [|split; [done|split; [|split]]].
  - apply handleExecute_requests.
  - intros c. unfold trace_of, handleExecute, Page.strategies_props,
      Page.handleExecuteStrategies, AppLibApi.executeMultipleStrategies,
      finally, try_catch.
    unfold mbind, M_bind, set_ui. simpl. rewrite run_fetch. simpl.
    match goal with
    | |- context [serves ?sv ?q] => destruct (serves sv q) as [sv' [[o [p|]]|e]]
    end; simpl; intros Hin; in_trace Hin; discriminate.
  - intros r p Hsrv Hp. unfold world_of, handleExecute, Page.strategies_props,
      Page.handleExecuteStrategies, AppLibApi.executeMultipleStrategies,
      finally, try_catch.
    unfold mbind, M_bind, set_ui. simpl. rewrite run_fetch. simpl.
    rewrite execute_request_eq, Hsrv. unfold response_json. rewrite Hp. simpl.
    by destruct (ui w).
  - intros Hscan Hsrv.
    unfold trace_of, world_of, handleScan, finally, try_catch, abort_previous.
    unfold mbind, M_bind, set_ui, get_ui, new_AbortController. simpl.
    rewrite Hscan.
    destruct (scanAbortController (ui w)) as [c|]; simpl;
      rewrite run_fetch; simpl; rewrite Hsrv; simpl;
      repeat split; by destruct (ui w).
Qed.

Example handleScan_aborted :
  trace_of (handleScan Page.strategies_props) (mount (scripted [aborted]))
  = [EvMessageDestroy; EvFetch (scan_request 0) aborted].
Proof.
  destruct (execute_carries_no_abort_signal Page.strategies_props two_strategies
              (mount (scripted [aborted]))) as (_ & _ & _ & _ & Hscan).
  destruct Hscan as (Ht & _); [reflexivity..|]. exact Ht.
Qed.

End Cancelling.

Section EngineCancellation.
Import Engine.

(** ** Cancelling, in the engine *)

Lemma steps_app (c c'' : Call) (l1 l2 : list Label) :
  steps c (l1 ++ l2) c'' ↔ ∃ c', steps c l1 c' ∧ steps c' l2 c''.
Proof.
  revert c. induction l1 as [|l l1 IH]; intros c; simpl.
  - split.
    + intros H. exists c. split; [constructor | exact H].
    + intros (c' & H1 & H2). by inversion H1; subst.
  - split.
    + intros H. inversion H as [|? ? c1 ? ? Hstep Hrest]; subst.
      apply IH in Hrest as (c' & H1 & H2).
      exists c'. split; [by econstructor | exact H2].
    + intros (c' & H1 & H2).
      inversion H1 as [|? ? c1 ? ? Hstep Hrest]; subst.
      econstructor; [exact Hstep|]. apply IH. by exists c'.
Qed.

Lemma elem_of_without (s x : string) (l : list string) :
  x ∈ without s l ↔ x ∈ l ∧ x ≠ s.
Proof. unfold without. rewrite list_elem_of_filter. tauto. Qed.

Lemma NoDup_without (s : string) (l : list string) :
  NoDup l → NoDup (without s l).
Proof. apply NoDup_filter. Qed.

(** A cancellation is never taken back, and a cancelled call issues no
    task. *)
Lemma steps_cancelled (c c' : Call) (ls : list Label) :
  steps c ls c' → cancelled c = true →
  cancelled c' = true ∧ ∀ s, Issue s ∉ ls.
Proof.
  induction 1 as [c|c l c1 ls c2 Hstep Hrest IH]; intros Hc.
  - split; [done|]. intros s Hin. by apply elem_of_nil in Hin.
  - inversion Hstep; subst; simpl in *; try congruence;
      (destruct IH as [Hc2 Hno]; [done|]; split; [done|];
       intros s' Hin; apply elem_of_cons in Hin as [Heq|Hin];
       [discriminate | by apply (Hno s')]).
Qed.

(** A task that is not issued stays pending. *)
Lemma steps_pending (c c' : Call) (ls : list Label) (s : string) :
  steps c ls c' → s ∈ pending c → Issue s ∉ ls → s ∈ pending c'.
Proof.
  induction 1 as [c|c l c1 ls c2 Hstep Hrest IH]; intros Hin Hno; [done|].
  apply IH.
  - inversion Hstep; subst; simpl; try done.
    apply elem_of_without. split; [done|]. intros ->. apply Hno. by left.
  - intros Hin'. apply Hno. by right.
Qed.

(** An abandoned task stays abandoned. *)
Lemma steps_abandoned (c c' : Call) (ls : list Label) (s : string) :
  steps c ls c' → s ∈ abandoned c ∨ Abandon s ∈ ls → s ∈ abandoned c'.
Proof.
  induction 1 as [c|c l c1 ls c2 Hstep Hrest IH]; intros [Hin|Hin].
  - done.
  - by apply elem_of_nil in Hin.
  - apply IH. left. inversion Hstep; subst; simpl; try done. by right.
  - apply elem_of_cons in Hin as [Heq|Hin].
    + subst l. apply IH. left. inversion Hstep; subst. simpl. by left.
    + apply IH. by right.
Qed.

Lemma start_invariant (strategies symbols : list string) (save : bool)
    (persisted : list ExecutionRun) :
  call_invariant strategies persisted (start strategies symbols save persisted).
Proof.
  split; simpl; try done.
  - unfold engaged. simpl. constructor.
  - intros s _ Hin. unfold engaged in Hin. simpl in Hin. by apply elem_of_nil in Hin.
  - intros s Hin. unfold engaged in Hin. simpl in Hin. by apply elem_of_nil in Hin.
Qed.

Lemma without_fresh (s : string) (l : list string) :
  s ∉ l → without s l = l.
Proof.
  unfold without. induction l as [|x l IH]; intros Hno; [done|].
  apply not_elem_of_cons in Hno as [Hne Hno].
  rewrite filter_cons_True by done. by rewrite IH.
Qed.

Lemma without_perm (s : string) (l : list string) :
  NoDup l → s ∈ l → l ≡ₚ s :: without s l.
Proof.
  induction 1 as [|x l Hx Hl IH]; intros Hin.
  - by apply elem_of_nil in Hin.
  - apply elem_of_cons in Hin as [->|Hin].
    + unfold without. rewrite filter_cons_False by (by intros H; apply H).
      fold (without x l). by rewrite without_fresh.
    + unfold without. rewrite filter_cons_True by (by intros ->).
      fold (without s l). rewrite IH at 1 by done. apply perm_swap.
Qed.

(** A task that finishes or is abandoned stays among the engaged ones,
    once. *)
Lemma engaged_finish (s : string) (inf fin ab : list string) :
  NoDup inf → s ∈ inf →
  without s inf ++ (fin ++ [s]) ++ ab ≡ₚ inf ++ fin ++ ab.
Proof.
  intros Hnd Hin. rewrite (without_perm s inf) at 2 by done.
  rewrite <- (assoc_L (++) fin). simpl.
  rewrite <- !Permutation_middle. done.
Qed.

Lemma engaged_abandon (s : string) (inf fin ab : list string) :
  NoDup inf → s ∈ inf →
  without s inf ++ fin ++ s :: ab ≡ₚ inf ++ fin ++ ab.
Proof.
  intros Hnd Hin. rewrite (without_perm s inf) at 2 by done.
  simpl. rewrite <- !Permutation_middle. done.
Qed.

Lemma step_invariant (strategies : list string) (persisted : list ExecutionRun)
    (c c' : Call) (l : Label) :
  (∀ s, s ∈ pending c → s ∈ strategies) →
  call_invariant strategies persisted c → step c l c' →
  call_invariant strategies persisted c' ∧ (∀ s, s ∈ pending c' → s ∈ strategies).
Proof.
  intros Hsub [Hres Honce Hpend Hknown Hstore] Hstep.
  unfold engaged in *.
  inversion Hstep as [c0 s Hc Hr Hin|c0 s result Hr Hin|c0 s Hc Hr Hin
                      |c0 Hr|c0 Hr Hcomplete]; subst; simpl in *.
  - split; [split; unfold engaged; simpl|].
    + done.
    + constructor; [by apply Hpend | done].
    + intros s' [Hin' Hne]%elem_of_without Hs'.
      apply elem_of_cons in Hs' as [->|Hs']; [done|]. by apply (Hpend s').
    + intros s' Hs'. apply elem_of_cons in Hs' as [->|Hs']; [by apply Hsub|].
      by apply Hknown.
    + by rewrite Hr in *.
    + intros s' [Hin' _]%elem_of_without. by apply Hsub.
  - assert (without s (in_flight c) ++ (finished c ++ [(s, result)]).*1 ++ abandoned c
            ≡ₚ in_flight c ++ (finished c).*1 ++ abandoned c) as Hperm.
    { rewrite fmap_app. simpl. apply engaged_finish; [|done].
      by apply NoDup_app in Honce as [? _]. }
    split; [split; unfold engaged; simpl|done].
    + done.
    + by rewrite Hperm.
    + intros s' Hs'. rewrite Hperm. by apply Hpend.
    + intros s'. rewrite Hperm. apply Hknown.
    + by rewrite Hr in *.
  - assert (without s (in_flight c) ++ (finished c).*1 ++ s :: abandoned c
            ≡ₚ in_flight c ++ (finished c).*1 ++ abandoned c) as Hperm.
    { apply engaged_abandon; [|done]. by apply NoDup_app in Honce as [? _]. }
    split; [split; unfold engaged; simpl|done].
    + done.
    + by rewrite Hperm.
    + intros s' Hs'. rewrite Hperm. by apply Hpend.
    + intros s'. rewrite Hperm. apply Hknown.
    + by rewrite Hr in *.
  - split; [split; unfold engaged; simpl; try done|done].
  - split; [split; unfold engaged; simpl; try done|done].
    rewrite Hr in Hstore. rewrite Hstore.
    destruct (saveResults c); [right|left]; done.
Qed.

Lemma steps_invariant (strategies : list string) (persisted : list ExecutionRun)
    (c c' : Call) (ls : list Label) :
  steps c ls c' →
  (∀ s, s ∈ pending c → s ∈ strategies) →
  call_invariant strategies persisted c →
  call_invariant strategies persisted c'.
Proof.
  induction 1 as [c|c l c1 ls c2 Hstep Hrest IH]; intros Hsub Hinv; [done|].
  destruct (step_invariant strategies persisted c c1 l Hsub Hinv Hstep) as [Hinv1 Hsub1].
  by apply IH.
Qed.

(** A call whose run misses the result of one of its strategies has
    persisted nothing. *)
Lemma unfinished_not_persisted (strategies : list string)
    (persisted : list ExecutionRun) (c : Call) (s : string) :
  call_invariant strategies persisted c →
  s ∈ strategies → s ∉ (finished c).*1 → store c = persisted.
Proof.
  intros [Hres _ _ _ Hstore] Hin Hno.
  destruct (returned c); [|done].
  destruct Hstore as [Hstore|[_ Hcomplete]]; [done|].
  destruct Hno. apply Hcomplete. simpl. by rewrite Hres.
Qed.

(** C6: the execute call is cancellable by the caller: whenever the call
    has not returned, the caller's abort is a step of the engine.  Once
    the caller has cancelled, no further strategy task is issued for
    the call, and no partial run is persisted: the Result Store is as
    it was before the call, or holds one more run, and that run has
    exactly one result for every strategy of the call.  When the
    cancellation came before every task had been issued, or a task in
    flight was abandoned after it, nothing is persisted at all. *)
Theorem execute_cancel_stops_work_and_saves_no_partial_run
    (strategies symbols : list string) (save : bool)
    (persisted : list ExecutionRun) (before after : list Label) (c : Call) :
  steps (start strategies symbols save persisted) (before ++ Cancel :: after) c →
  (∀ c0, returned c0 = false → cancellable_at c0)
  ∧ (∀ s, Issue s ∉ after)
  ∧ (store c = persisted
     ∨ ∃ run, store c = persisted ++ [run] ∧ whole_run strategies run)
  ∧ ((∃ s, s ∈ strategies ∧ Issue s ∉ before) ∨ (∃ s, Abandon s ∈ after) →
     store c = persisted).
Proof.
  intros Hsteps.
  assert (call_invariant strategies persisted c) as Hinv.
  { eapply steps_invariant; [exact Hsteps|done|apply start_invariant]. }
  apply steps_app in Hsteps as (c1 & Hbefore & Hafter).
  inversion Hafter as [|? ? c2 ? ? Hcancel Hrest]; subst.
  destruct (steps_cancelled c2 c after Hrest) as [_ Hno].
  { by inversion Hcancel. }
  split; [|split; [exact Hno|split]].
  - intros c0 Hr. eexists. split; [by constructor | done].
  - destruct Hinv as [Hres Honce _ Hknown Hstore].
    destruct (returned c); [|by left].
    destruct Hstore as [Hstore|[Hstore Hcomplete]]; [by left|right].
    exists (run_of c). split; [done|]. split; [done|].
    unfold engaged in *. simpl. split.
    + apply NoDup_app in Honce as (_ & _ & Honce).
      by apply NoDup_app in Honce as [? _].
    + intros s. split.
      * intros Hin. apply Hknown. rewrite !elem_of_app. by right; left.
      * intros Hin. apply Hcomplete. simpl. by rewrite Hres.
  - intros [(s & Hin & Hnot)|(s & Hab)].
    + apply (unfinished_not_persisted strategies persisted c s Hinv Hin).
      assert (s ∈ pending c) as Hpend.
      { apply (steps_pending c2 c after s Hrest); [|apply Hno].
        inversion Hcancel; subst; simpl.
        by apply (steps_pending _ _ before s Hbefore). }
      intros Hfin. apply (inv_pending _ _ _ Hinv s Hpend).
      unfold engaged. rewrite !elem_of_app. by right; left.
    + assert (s ∈ abandoned c) as Hin.
      { apply (steps_abandoned c2 c after s Hrest). by right. }
      destruct Hinv as [Hres Honce Hpend Hknown Hstore] eqn:E. clear E.
      assert (s ∈ strategies) as Hs.
      { apply Hknown. unfold engaged. rewrite !elem_of_app. by right; right. }
      apply (unfinished_not_persisted strategies persisted c s); [done..|].
      unfold engaged in Honce.
      apply NoDup_app in Honce as (_ & _ & Honce).
      apply NoDup_app in Honce as (_ & Hdisj & _).
      intros Hfin. by apply (Hdisj s).
Qed.

Lemma execute_cancel_stops_work_and_saves_no_partial_run_early :
  steps (start ["rsi_oversold"; "macd_cross"] ["AAA.NS"] true [])
    ([Issue "rsi_oversold"] ++ Cancel :: [Finish "rsi_oversold" (Analysed ["AAA.NS"])])
    cancelled_early
  ∧ store cancelled_early = []
  ∧ Issue "macd_cross" ∉ [Finish "rsi_oversold" (Analysed ["AAA.NS"])].
Proof.
  assert (steps (start ["rsi_oversold"; "macd_cross"] ["AAA.NS"] true [])
            ([Issue "rsi_oversold"] ++ Cancel :: [Finish "rsi_oversold" (Analysed ["AAA.NS"])])
            cancelled_early) as Hsteps.
  { simpl. eapply steps_cons.
    { apply (step_issue _ "rsi_oversold"); [done..|]. simpl. by left. }
    eapply steps_cons.
    { by apply step_cancel. }
    eapply steps_cons.
    { apply (step_finish _ "rsi_oversold"); [done|]. simpl. by left. }
    vm_compute. apply steps_nil. }
  destruct (execute_cancel_stops_work_and_saves_no_partial_run
              ["rsi_oversold"; "macd_cross"] ["AAA.NS"] true []
              [Issue "rsi_oversold"] [Finish "rsi_oversold" (Analysed ["AAA.NS"])]
              cancelled_early Hsteps) as (_ & Hno & _ & Hnone).
  split; [exact Hsteps|]. split; [|apply Hno].
  apply Hnone. left. exists "macd_cross". split.
  - by right; left.
  - intros Hin. apply list_elem_of_singleton in Hin. discriminate.
Defined.

End EngineCancellation.

Section Selection.
Import Strategies Gestures.

(** ** What a handler may do to the React state *)

Section Stable.
Context (R : UI → UI → Prop) `{!Reflexive R, !Transitive R}.

Lemma stable_ret {A} (a : A) : stable R (mret a).
Proof. intros w. apply reflexivity. Qed.

Lemma stable_throw {A} (e : Exn) : stable R (throw (A := A) e).
Proof. intros w. apply reflexivity. Qed.

Lemma stable_emit (e : Event) : stable R (emit e).
Proof. intros w. apply reflexivity. Qed.

Lemma stable_message (lvl : Level) (s : string) : stable R (message lvl s).
Proof. apply stable_emit. Qed.

Lemma stable_get_ui : stable R get_ui.
Proof. intros w. apply reflexivity. Qed.

Lemma stable_get_today : stable R get_today.
Proof. intros w. apply reflexivity. Qed.

Lemma stable_new_AbortController : stable R new_AbortController.
Proof. intros w. apply reflexivity. Qed.

Lemma stable_fetch (req : Request) : stable R (fetch req).
Proof.
  intros w. unfold world_of. rewrite run_fetch.
  destruct (serves (server w) req) as [sv [r|e]]; apply reflexivity.
Qed.

Lemma stable_response_json (r : Response) : stable R (response_json r).
Proof.
  intros w. unfold world_of, response_json.
  destruct (payload r); apply reflexivity.
Qed.

Lemma stable_set_ui (f : UI → UI) : (∀ u, R u (f u)) → stable R (set_ui f).
Proof. intros Hf w. apply Hf. Qed.

Lemma stable_bind {A B} (m : M A) (f : A → M B) :
  stable R m → (∀ a, stable R (f a)) → stable R (m ≫= f).
Proof.
  intros Hm Hf w. unfold world_of. rewrite run_bind.
  specialize (Hm w). unfold world_of in Hm.
  destruct (m w) as [[t1 w1] [a|e]]; simpl in *; [|done].
  specialize (Hf a w1). unfold world_of in Hf.
  destruct (f a w1) as [[t2 w2] r]. simpl in *. by etrans.
Qed.

Lemma stable_try_catch {A} (m : M A) (h : Exn → M A) :
  stable R m → (∀ e, stable R (h e)) → stable R (try_catch m h).
Proof.
  intros Hm Hh w. unfold world_of, try_catch.
  specialize (Hm w). unfold world_of in Hm.
  destruct (m w) as [[t1 w1] [a|e]]; simpl in *; [done|].
  specialize (Hh e w1). unfold world_of in Hh.
  destruct (h e w1) as [[t2 w2] r]. simpl in *. by etrans.
Qed.

Lemma stable_finally {A} (m : M A) (f : M unit) :
  stable R m → stable R f → stable R (finally m f).
Proof.
  intros Hm Hf w. unfold world_of, finally.
  specialize (Hm w). unfold world_of in Hm.
  destruct (m w) as [[t1 w1] r]; simpl in *.
  specialize (Hf w1). unfold world_of in Hf.
  destruct (f w1) as [[t2 w2] [[]|e]]; simpl in *; by etrans.
Qed.

Lemma stable_for_of {A} (l : list A) (body : A → M unit) :
  (∀ x, stable R (body x)) → stable R (for_of l body).
Proof.
  intros Hb. induction l as [|x l IH]; simpl.
  - apply stable_ret.
  - apply stable_bind; [apply Hb | intros _; apply IH].
Qed.
End Stable.

(** Decompose a handler into its steps. *)
Ltac stable_rule :=
first
  [ apply stable_bind | apply stable_try_catch | apply stable_finally
  | apply stable_for_of | apply stable_ret | apply stable_throw
  | apply stable_emit | apply stable_message | apply stable_get_ui
  | apply stable_get_today | apply stable_new_AbortController
  | apply stable_fetch | apply stable_response_json ].

Ltac stable_steps :=
repeat first
  [ stable_rule; try typeclasses eauto; intros
  | match goal with
    | |- stable _ (if ?b then _ else _) => destruct b
    | |- stable _ (match ?x with _ => _ end) => destruct x
    end ].

#[local] Instance selection_kept_or_cleared_refl : Reflexive selection_kept_or_cleared.
Proof. intros u. by left. Qed.

#[local] Instance selection_kept_or_cleared_trans : Transitive selection_kept_or_cleared.
Proof.
intros u1 u2 u3 [H12|H12] [H23|H23]; unfold selection_kept_or_cleared;
  rewrite ?H23, ?H12; auto.
Qed.

#[local] Instance results_kept_refl : Reflexive results_kept.
Proof. by intros u. Qed.

#[local] Instance results_kept_trans : Transitive results_kept.
Proof. intros u1 u2 u3 H12 H23. unfold results_kept in *. congruence. Qed.

Ltac stable_sets :=
try (apply stable_set_ui; intros []; simpl;
     first [ reflexivity | by left | by right ]).

Ltac stable_handler := stable_steps; stable_sets.

Lemma stock_array_stable R `{!Reflexive R} method_name p symbols :
stable R (stock_array method_name p symbols).
Proof.
intros w. unfold world_of. rewrite stock_array_run.
destruct (as_stocks p), symbols; apply reflexivity.
Qed.

Lemma handleSubmitWatchlist_selection props values :
stable selection_kept_or_cleared (handleSubmitWatchlist props values).
Proof.
unfold handleSubmitWatchlist, ensureStocksExist, add_missing_stock.
stable_handler; apply stock_array_stable; apply _.
Qed.

Lemma handleSubmitWatchlist_results props values :
stable results_kept (handleSubmitWatchlist props values).
Proof.
unfold handleSubmitWatchlist, ensureStocksExist, add_missing_stock.
stable_handler; apply stock_array_stable; apply _.
Qed.

Lemma handleUpload_stable props file :
stable selection_kept_or_cleared (handleUpload props file)
∧ stable results_kept (handleUpload props file).
Proof. unfold handleUpload, call_onRefresh. split; stable_handler. Qed.

Lemma handleScan_stable props :
stable selection_kept_or_cleared (handleScan props)
∧ stable results_kept (handleScan props).
Proof. unfold handleScan. split; stable_handler. Qed.

Lemma handleDelete_stable props strategyId :
stable selection_kept_or_cleared (handleDelete props strategyId)
∧ stable results_kept (handleDelete props strategyId).
Proof. unfold handleDelete, call_onRefresh. split; stable_handler. Qed.

Lemma world_of_set_ui_bind {A} (f : UI → UI) (k : unit → M A) (w : World) :
world_of (set_ui f ≫= k) w
= world_of (k tt) {| server := server w; ui := f (ui w); fresh := fresh w;
                     today := today w |}.
Proof.
unfold world_of. rewrite run_bind. unfold set_ui at 1.
match goal with |- context [k tt ?w1] => by destruct (k tt w1) as [[??]?] end.
Qed.

(** After [handleExecute] nothing is selected. *)
Lemma handleExecute_clears_selection refresh values w :
selectedStocks (ui (world_of (handleExecute (page_props refresh) values) w)) = [].
Proof.
unfold handleExecute. rewrite !world_of_set_ui_bind.
match goal with
| |- context [world_of ?k ?w4] =>
    assert (stable selection_kept_or_cleared k) as Hk;
      [|destruct (Hk w4) as [-> | ->]; [by destruct (ui w)|done]]
end.
unfold page_props, Page.handleExecuteStrategies,
  AppLibApi.executeMultipleStrategies. simpl.
stable_handler.
Qed.

Lemma toggle_subset (sym : string) (prev : list string) (s : string) :
s ∈ toggle sym prev → s ∈ prev ∨ (s = sym ∧ sym ∉ prev).
Proof.
unfold toggle. case_bool_decide as Hin.
- intros [? ?]%list_elem_of_filter. by left.
- intros [?|?%list_elem_of_singleton]%elem_of_app; [by left|]. by right.
Qed.

Lemma matched_symbols_spec (rows : list ResultRow) (sym : string) :
sym ∈ matched_symbols rows ↔
∃ record, record ∈ rows ∧ symbol record = sym ∧ 0 < total_matches record.
Proof.
unfold matched_symbols. rewrite list_elem_of_fmap. split.
- intros (record & -> & [? ?]%list_elem_of_filter). by exists record.
- intros (record & ? & <- & ?). exists record. split; [done|].
  by apply list_elem_of_filter.
Qed.


Lemma selection_matched_stable (u u' : UI) :
selection_kept_or_cleared u u' → results_kept u u' →
selection_matched u → selection_matched u'.
Proof.
unfold selection_matched, table_rows. intros [Hs|Hs] Hr Hinv sym; rewrite Hs, Hr.
- apply Hinv.
- by intros ?%elem_of_nil.
Qed.

Lemma selection_matched_toggle (u : UI) (sym : string) :
selection_matched u →
(sym ∈ selectedStocks u ∨
 ∃ record, record ∈ table_rows u ∧ symbol record = sym ∧ 0 < total_matches record) →
selection_matched (with_selectedStocks (toggle sym (selectedStocks u)) u).
Proof.
intros Hinv Hsym s Hs.
assert (table_rows (with_selectedStocks (toggle sym (selectedStocks u)) u)
        = table_rows u) as -> by (by destruct u).
assert (s ∈ toggle sym (selectedStocks u)) as Hin by (by destruct u).
apply toggle_subset in Hin as [Hin|[-> Hnot]]; [by apply Hinv|].
destruct Hsym as [?|?]; [done|done].
Qed.

Lemma selection_matched_set (u : UI) (rows : list ResultRow) :
table_rows u = rows →
selection_matched (with_selectedStocks (matched_symbols rows) u).
Proof.
intros <- sym Hs.
assert (table_rows (with_selectedStocks (matched_symbols (table_rows u)) u)
        = table_rows u) as -> by (by destruct u).
apply matched_symbols_spec. by destruct u.
Qed.

Lemma selectAllMatched_run (w : World) (r : Results) (rows : list ResultRow) :
results (ui w) = Some r → results_rows r = Some rows →
ui (world_of selectAllMatched w)
= with_selectedStocks (matched_symbols rows) (ui w).
Proof.
intros Hr Hrows. unfold world_of, selectAllMatched, get_ui, set_ui, message, emit.
unfold mbind, M_bind. by rewrite Hr, Hrows.
Qed.

Lemma handleCreateWatchlistFromResults_auto_select
  (w : World) (r : Results) (rows : list ResultRow) :
results (ui w) = Some r → results_rows r = Some rows →
selectedStocks (ui w) = [] → matched_symbols rows ≠ [] →
ui (world_of handleCreateWatchlistFromResults w)
= with_createWatchlistModal true
    (with_selectedStocks (matched_symbols rows) (ui w)).
Proof.
intros Hr Hrows Hsel Hm.
unfold world_of, handleCreateWatchlistFromResults, get_ui, set_ui, message,
  emit, get_today.
unfold mbind at 1. unfold M_bind at 1. simpl. rewrite Hr. simpl. rewrite Hrows, Hsel.
simpl. rewrite bool_decide_eq_false_2.
2: { intros Hl. by apply nil_length_inv in Hl. }
reflexivity.
Qed.

Lemma handleCreateWatchlistFromResults_selection (w : World) :
selection_matched (ui w) →
selection_matched (ui (world_of handleCreateWatchlistFromResults w)).
Proof.
intros Hinv.
destruct (results (ui w)) as [r|] eqn:Hr;
  [destruct (results_rows r) as [rows|] eqn:Hrows|].
- destruct (selectedStocks (ui w)) as [|s l] eqn:Hsel;
    [destruct (matched_symbols rows) as [|m ms] eqn:Hm|].
  + unfold world_of, handleCreateWatchlistFromResults, get_ui, message, emit.
    unfold mbind at 1. unfold M_bind at 1. simpl.
    by rewrite Hr; simpl; rewrite Hrows, Hsel; simpl; rewrite Hm.
  + rewrite (handleCreateWatchlistFromResults_auto_select w r rows)
      by (rewrite ?Hm; done).
    apply (selection_matched_stable
             (with_selectedStocks (matched_symbols rows) (ui w)));
      [left; by destruct (ui w) | by destruct (ui w) |].
    apply selection_matched_set. unfold table_rows. by rewrite Hr; simpl; rewrite Hrows.
  + unfold world_of, handleCreateWatchlistFromResults, get_ui, set_ui, message,
      emit, get_today.
    unfold mbind at 1. unfold M_bind at 1. simpl.
    rewrite Hr; simpl; rewrite Hrows, Hsel; simpl.
    apply (selection_matched_stable (ui w));
      [left; by destruct (ui w) | by destruct (ui w) | done].
- unfold world_of, handleCreateWatchlistFromResults, get_ui, message, emit.
  unfold mbind at 1. unfold M_bind at 1. simpl.
  by rewrite Hr; simpl; rewrite Hrows.
- unfold world_of, handleCreateWatchlistFromResults, get_ui, message, emit.
  unfold mbind at 1. unfold M_bind at 1. simpl. by rewrite Hr.
Qed.

Lemma selectAllMatched_selection (w : World) :
selection_matched (ui w) → selection_matched (ui (world_of selectAllMatched w)).
Proof.
intros Hinv.
destruct (results (ui w)) as [r|] eqn:Hr;
  [destruct (results_rows r) as [rows|] eqn:Hrows|].
- rewrite (selectAllMatched_run w r rows) by done.
  apply selection_matched_set. unfold table_rows. by rewrite Hr; simpl; rewrite Hrows.
- unfold world_of, selectAllMatched, get_ui. unfold mbind, M_bind. simpl.
  by rewrite Hr, Hrows.
- unfold world_of, selectAllMatched, get_ui. unfold mbind, M_bind. simpl.
  by rewrite Hr.
Qed.

(** A gesture that only sets state outside the selection and the results. *)
Ltac plain_set IH :=
match goal with
| |- selection_matched (?f (ui ?w)) =>
    apply (selection_matched_stable (ui w));
      [left; by destruct (ui w) | by destruct (ui w) | exact IH]
end.

Lemma reachable_selection_matched (refresh : bool) (w : World) :
reachable (page_props refresh) w → selection_matched (ui w).
Proof.
induction 1 as [w Hinit|w a Hreach IH Hen].
- rewrite Hinit. by intros sym ?%elem_of_nil.
- destruct a; simpl in *; try plain_set IH.
  + intros sym. rewrite handleExecute_clears_selection.
    intros Hs. by apply elem_of_nil in Hs.
  + apply (selection_matched_stable (ui w)); [| |exact IH].
    * apply (stable_bind _); [apply handleUpload_stable|intros; apply stable_ret; apply _].
    * apply (stable_bind _); [apply handleUpload_stable|intros; apply stable_ret; apply _].
  + apply (selection_matched_stable (ui w)); [| |exact IH]; apply handleScan_stable.
  + apply (selection_matched_stable (ui w)); [| |exact IH]; apply handleDelete_stable.
  + destruct Hen as (_ & Hrow & Hdis). apply selection_matched_toggle; [done|].
    right. exists record. split; [done|]. split; [done|].
    unfold select_render in Hdis. simpl in Hdis.
    apply bool_decide_eq_false in Hdis. lia.
  + destruct Hen as (_ & _ & [Hrow Hpos]%list_elem_of_filter).
    apply selection_matched_toggle; [done|]. right. by exists record.
  + by apply selectAllMatched_selection.
  + by apply handleCreateWatchlistFromResults_selection.
  + intros sym Hs. exfalso. destruct (ui w). simpl in Hs. by apply elem_of_nil in Hs.
  + destruct Hen as [_ Hin]. apply selection_matched_toggle; [done|]. by left.
  + apply (selection_matched_stable (ui w)); [| |exact IH].
    * apply handleSubmitWatchlist_selection.
    * apply handleSubmitWatchlist_results.
Qed.

(** C8: in every state the component can reach, every selected symbol is
  the symbol of a displayed result row with total_matches > 0.  The
  checkbox of a row is disabled exactly when its total_matches is 0, and
  the auto-select path of [handleCreateWatchlistFromResults] and
  [selectAllMatched] both set the selection to the symbols of the rows
  with total_matches > 0, and to nothing else. *)
Theorem selection_only_matched (refresh : bool) :
(∀ w, reachable (page_props refresh) w → selection_matched (ui w))
∧ (∀ selected record,
     disabled (select_render selected record) = true ↔ total_matches record = 0)
∧ (∀ w r rows,
     results (ui w) = Some r → results_rows r = Some rows →
     selectedStocks (ui w) = [] → matched_symbols rows ≠ [] →
     selectedStocks (ui (world_of handleCreateWatchlistFromResults w))
     = matched_symbols rows)
∧ (∀ w r rows,
     results (ui w) = Some r → results_rows r = Some rows →
     selectedStocks (ui (world_of selectAllMatched w)) = matched_symbols rows)
∧ (∀ rows sym,
     sym ∈ matched_symbols rows ↔
     ∃ record, record ∈ rows ∧ symbol record = sym ∧ 0 < total_matches record).
Proof.
split; [apply reachable_selection_matched|]. split; [|split; [|split]].
- intros selected record. unfold select_render. simpl.
  apply bool_decide_eq_true.
- intros w r rows Hr Hrows Hsel Hm.
  rewrite (handleCreateWatchlistFromResults_auto_select w r rows) by done.
  by destruct (ui w).
- intros w r rows Hr Hrows. rewrite (selectAllMatched_run w r rows) by done.
  by destruct (ui w).
- apply matched_symbols_spec.
Qed.

Lemma selection_only_matched_after_select_all :
selectedStocks (ui after_select_all) = ["AAA"]
∧ selection_matched (ui after_select_all).
Proof.
split; [reflexivity|].
destruct (selection_only_matched false) as [Hinv _]. apply Hinv.
unfold after_select_all.
apply reach_step; [apply reach_step; [apply reach_step; [by apply reach_mount|]|]|].
- exact I.
- split; reflexivity.
- split; [split; [reflexivity|by eexists]|].
  eexists. split; [reflexivity|]. simpl. lia.
Defined.

End Selection.

(** ** Scanning twice *)

Section Scan.
Import Registry.

Lemma scan_candidate_other loc now reg rep c (id : string) :
  id ≠ candidateId c →
  (scan_candidate loc now (reg, rep) c).1 !! id = reg !! id.
Proof.
  intros Hne. unfold scan_candidate.
  destruct (load c) as [d|why]; [|done].
  destruct (reg !! candidateId c) as [m|] eqn:E; simpl.
  - case_decide; simpl; [done|]. by rewrite lookup_insert_ne.
  - by rewrite lookup_insert_ne.
Qed.

Lemma scan_fold_other loc now (l : list Candidate) reg rep (id : string) :
  id ∉ candidateId <$> l →
  (foldl (scan_candidate loc now) (reg, rep) l).1 !! id = reg !! id.
Proof.
  revert reg rep. induction l as [|c l IH]; intros reg rep Hid; [done|].
  cbn [foldl]. destruct (scan_candidate loc now (reg, rep) c) as [reg1 rep1] eqn:E.
  rewrite IH by (intros ?; apply Hid; by right).
  change reg1 with (reg1, rep1).1. rewrite <- E.
  apply scan_candidate_other. intros ->. apply Hid. by left.
Qed.

Lemma scan_candidate_known loc now reg rep c d :
  load c = Implements d →
  ∃ m, (scan_candidate loc now (reg, rep) c).1 !! candidateId c = Some m
       ∧ described m = d.
Proof.
  intros Hl. unfold scan_candidate. rewrite Hl.
  destruct (reg !! candidateId c) as [m|] eqn:E; simpl.
  - case_decide; simpl; [by exists m|].
    eexists. by rewrite lookup_insert_eq.
  - eexists. by rewrite lookup_insert_eq.
Qed.

(** After a scan the registry is up to date with the candidates. *)
Lemma scan_fold_up_to_date loc now (l : list Candidate) reg rep :
  NoDup (candidateId <$> l) →
  up_to_date (foldl (scan_candidate loc now) (reg, rep) l).1 l.
Proof.
  revert reg rep. induction l as [|c l IH]; intros reg rep Hnd.
  - by intros c d ?%elem_of_nil.
  - rewrite fmap_cons in Hnd. apply NoDup_cons in Hnd as [Hc Hnd]. cbn [foldl].
    destruct (scan_candidate loc now (reg, rep) c) as [reg1 rep1] eqn:E.
    intros c' d [->|Hin]%elem_of_cons Hl.
    + rewrite scan_fold_other by done.
      change reg1 with (reg1, rep1).1. rewrite <- E.
      by apply scan_candidate_known.
    + by apply (IH reg1 rep1 Hnd).
Qed.

(** Scanning candidates the registry is up to date with changes neither
    the registry nor the added and updated lists. *)
Lemma scan_fold_idle loc now (l : list Candidate) reg rep :
  up_to_date reg l →
  ∃ rep', foldl (scan_candidate loc now) (reg, rep) l = (reg, rep')
          ∧ added rep' = added rep ∧ updated rep' = updated rep
          ∧ scanned rep' = scanned rep.
Proof.
  revert rep. induction l as [|c l IH]; intros rep Hup; [by exists rep|].
  cbn [foldl].
  assert (∃ rep1, scan_candidate loc now (reg, rep) c = (reg, rep1)
                  ∧ added rep1 = added rep ∧ updated rep1 = updated rep
                  ∧ scanned rep1 = scanned rep) as (rep1 & -> & Ha & Hu & Hs).
  { unfold scan_candidate. destruct (load c) as [d|why] eqn:Hl.
    - destruct (Hup c d) as (m & -> & Hd); [by left|done|].
      rewrite decide_True by done. by exists rep.
    - by eexists. }
  destruct (IH rep1) as (rep' & -> & Ha' & Hu' & Hs').
  { intros c' d Hin. apply Hup. by right. }
  exists rep'. rewrite Ha', Hu', Hs'. by rewrite Ha, Hu, Hs.
Qed.

(** C7: with the strategies folder unchanged (the same candidates, with
    distinct script ids, loading to the same descriptions), a second scan
    reports nothing added and nothing updated, and leaves the registry as
    the first scan made it. *)
Theorem scan_twice_adds_and_updates_nothing
    (candidates : list Candidate) (loc : string) (now later : nat)
    (reg : gmap string StrategyMetadata) :
  NoDup (candidateId <$> candidates) →
  let first := scan candidates loc now reg in
  let second := scan candidates loc later first.1 in
  added second.2 = [] ∧ updated second.2 = [] ∧ second.1 = first.1
  ∧ scanned second.2 = length candidates.
Proof.
  intros Hnd first second. subst second. unfold scan at 1 2 3 4.
  destruct (scan_fold_idle loc later candidates first.1
              {| scanned := length candidates; added := []; updated := [];
                 failed := [] |}) as (rep' & -> & Ha & Hu & Hs).
  { by apply scan_fold_up_to_date. }
  done.
Qed.

Lemma scan_twice_adds_and_updates_nothing_folder :
  let first := scan strategies_folder "strategies" 1 ∅ in
  let second := scan strategies_folder "strategies" 2 first.1 in
  added first.2 = ["nifty_swing"]
  ∧ added second.2 = [] ∧ updated second.2 = [].
Proof.
  split; [reflexivity|].
  destruct (scan_twice_adds_and_updates_nothing strategies_folder "strategies" 1 2 ∅)
    as (Ha & Hu & _).
  - apply (bool_decide_unpack _). reflexivity.
  - split; [exact Ha | exact Hu].
Defined.
End Scan.


(** * Further properties of the embedded code *)

(** ** Selecting stocks *)





(** ** Stepping through a handler *)

Lemma run_set_ui_bind {A} (f : UI → UI) (k : unit → M A) (w : World) :
  (set_ui f ≫= k) w
  = k tt {| server := server w; ui := f (ui w); fresh := fresh w; today := today w |}.
Proof.
  rewrite run_bind. unfold set_ui at 1.
  match goal with |- context [k tt ?w1] => by destruct (k tt w1) as [[??]?] end.
Qed.

Lemma run_get_ui_bind {A} (k : UI → M A) (w : World) :
  (get_ui ≫= k) w = k (ui w) w.
Proof. rewrite run_bind. unfold get_ui at 1. by destruct (k (ui w) w) as [[??]?]. Qed.

Lemma run_ret_bind {A B} (a : A) (k : A → M B) (w : World) :
  (mret a ≫= k) w = k a w.
Proof. rewrite run_bind. unfold mret at 1, M_ret at 1. by destruct (k a w) as [[??]?]. Qed.

Lemma run_emit_bind {A} (e : Event) (k : unit → M A) (w : World) :
  (emit e ≫= k) w = let '(t, w', r) := k tt w in (e :: t, w', r).
Proof. rewrite run_bind. unfold emit at 1. by destruct (k tt w) as [[??]?]. Qed.

Lemma run_new_AbortController_bind {A} (k : nat → M A) (w : World) :
  (new_AbortController ≫= k) w
  = k (fresh w) {| server := server w; ui := ui w; fresh := S (fresh w);
                   today := today w |}.
Proof.
  rewrite run_bind. unfold new_AbortController at 1.
  match goal with |- context [k (fresh w) ?w1] => by destruct (k (fresh w) w1) as [[??]?] end.
Qed.

Lemma opt_or_nonempty (o : option string) (d : string) :
  d ≠ EmptyString → Js.opt_or o d ≠ EmptyString.
Proof.
  intros Hd. unfold Js.opt_or, Js.str_or, Js.truthy_str. destruct o as [s|]; [|done].
  destruct (bool_decide (s = EmptyString)) eqn:E; simpl; [done|].
  by apply bool_decide_eq_false in E.
Qed.

Lemma str_or_nonempty (s d : string) : s ≠ EmptyString → Js.str_or s d = s.
Proof.
  intros Hs. unfold Js.str_or, Js.truthy_str. by rewrite bool_decide_eq_false_2.
Qed.

Lemma scan_error_nonempty (body : option Payload) : scan_error body ≠ EmptyString.
Proof. destruct body; [|done]. simpl. by apply opt_or_nonempty, opt_or_nonempty. Qed.

(** ** Scanning for strategies *)

Section Scanning.
Import Strategies.

(** The run of [handleScan] up to the answer to its request. *)
Lemma handleScan_started (props : Props) (w : World) :
  scanning (ui w) = false →
  ∃ tail w',
    handleScan props w
    = (abort_previous (ui w)
         ++ EvMessageDestroy
         :: EvFetch (scan_request (fresh w))
              (serves (server w) (scan_request (fresh w))).2 :: tail,
       w', Ok tt)
    ∧ server w' = (serves (server w) (scan_request (fresh w))).1
    ∧ ui w' = with_scanAbortController None
                (with_scanning false
                   (with_error None
                      (with_scanning true
                         (with_scanAbortController (Some (fresh w)) (ui w)))))
    ∧ fresh w' = S (fresh w)
    ∧ (∀ req res, EvFetch req res ∉ tail)
    ∧ (∀ c, EvAbort c ∉ tail).
Proof.
  intros Hscan. unfold handleScan. rewrite run_get_ui_bind, Hscan.
  unfold abort_previous.
  destruct (scanAbortController (ui w)) as [c|] eqn:Hc;
    [rewrite run_emit_bind | rewrite run_ret_bind];
    rewrite run_new_AbortController_bind, !run_set_ui_bind, run_emit_bind;
    unfold finally, try_catch; unfold mbind, M_bind; rewrite run_fetch; simpl;
    destruct (serves (server w) (scan_request (fresh w))) as [sv [[[] [p|]]|e]];
    simpl; try destruct p; simpl; try destruct (onRefresh props); simpl;
    try case_bool_decide; simpl;
    (eexists _, _; split; [reflexivity|]; simpl;
     repeat split; try done;
     intros; intros Hin; in_trace Hin; discriminate).
Qed.

(** X2: [handleScan] does nothing while a scan is in progress.  Otherwise
    it never throws, issues exactly one request (the scan POST, carrying
    the signal of a fresh controller) and, whatever the answer, ends with
    [scanning] false and no controller left in the state. *)
Theorem handleScan_guarded (props : Props) (w : World) :
  (scanning (ui w) = true → handleScan props w = ([], w, Ok tt))
  ∧ (scanning (ui w) = false →
     let c := fresh w in
     result_of (handleScan props) w = Ok tt
     ∧ requests (trace_of (handleScan props) w) = [scan_request c]
     ∧ signal (scan_request c) = Some c
     ∧ scanning (ui (world_of (handleScan props) w)) = false
     ∧ scanAbortController (ui (world_of (handleScan props) w)) = None
     ∧ fresh (world_of (handleScan props) w) = S c).
Proof.
  split.
  - intros Hscan. unfold handleScan. by rewrite run_get_ui_bind, Hscan.
  - intros Hscan c. unfold result_of, trace_of, world_of.
    destruct (handleScan_started props w Hscan)
      as (tail & w' & -> & Hsrv & Hui & Hfresh & Hreq & _).
    simpl. rewrite Hui, Hfresh. repeat split; try by destruct (ui w).
    rewrite requests_app. simpl.
    assert (requests (abort_previous (ui w)) = []) as ->
      by (unfold abort_previous; by destruct (scanAbortController (ui w))).
    assert (requests tail = []) as ->; [|done].
    clear -Hreq. induction tail as [|e tail IH]; [done|].
    destruct e; simpl; try (apply IH; intros req' res' ?; apply (Hreq req' res'); by right).
    destruct (Hreq req res). by left.
Qed.

Lemma handleScan_guarded_busy :
  handleScan Page.strategies_props
    (showing (scripted []) (with_scanning true initial_ui))
  = ([], showing (scripted []) (with_scanning true initial_ui), Ok tt).
Proof.
  destruct (handleScan_guarded Page.strategies_props
              (showing (scripted []) (with_scanning true initial_ui))) as [Hbusy _].
  apply Hbusy. reflexivity.
Defined.

(** X3: what [handleScan] reports once its request is answered.  A reply
    that is not ok gives exactly one message, an error with the detail
    the server sent, else its message, else "Scan failed" (also when the
    body does not parse), and no refresh.  The list is refreshed exactly
    when the reply is ok, carries a scan report and the caller passed
    [onRefresh]; the report is then the only message. *)
Theorem handleScan_reports (props : Props) (w : World) (r : Response) :
  scanning (ui w) = false →
  (serves (server w) (scan_request (fresh w))).2 = Resolved r →
  let t := trace_of (handleScan props) w in
  (ok r = false →
     messages t = [(Failure, Some (scan_error (payload r)))] ∧ EvRefresh ∉ t)
  ∧ (EvRefresh ∈ t ↔
       onRefresh props = true ∧ ok r = true
       ∧ ∃ n a u, payload r = Some (PScanReport n a u))
  ∧ (∀ n a u, ok r = true → payload r = Some (PScanReport n a u) →
       messages t
       = [(Success, Some ("Scanned " +:+ pretty n +:+ " files. Added: "
                            +:+ pretty (length a) +:+ ", Updated: "
                            +:+ pretty (length u)))]).
Proof.
  intros Hscan Hsrv t. subst t. unfold trace_of, handleScan.
  rewrite run_get_ui_bind, Hscan.
  destruct (scanAbortController (ui w)) as [c|] eqn:Hc;
    [rewrite run_emit_bind | rewrite run_ret_bind];
    rewrite run_new_AbortController_bind, !run_set_ui_bind, run_emit_bind;
    unfold finally, try_catch; unfold mbind, M_bind; rewrite run_fetch; simpl;
    rewrite Hsrv; destruct r as [[] [p|]]; simpl; try destruct p; simpl;
    try destruct (onRefresh props); simpl;
    rewrite ?str_or_nonempty by (repeat apply opt_or_nonempty; done);
    (split; [|split]);
    try (intros; discriminate);
    try (intros _; split; [done|intros Hin; in_trace Hin; discriminate]);
    try (split; [intros Hin; in_trace Hin; discriminate
                |intros (? & ? & ? & ? & ? & ?); discriminate]);
    try (intros ? ? ? _ [= -> -> ->]; done).
  all: try (split; [intros _; eauto 10 | intros _; repeat constructor]).
  all: try (split; [intros Hin; in_trace Hin; discriminate | intros (? & _); discriminate]).
Qed.

Lemma handleScan_reports_detail :
  messages (trace_of (handleScan Page.strategies_props)
              (mount (scripted [reply false (PProblem (Some "Folder missing") None)])))
  = [(Failure, Some "Folder missing")].
Proof.
  destruct (handleScan_reports Page.strategies_props
              (mount (scripted [reply false (PProblem (Some "Folder missing") None)]))
              {| ok := false; payload := Some (PProblem (Some "Folder missing") None) |})
    as [Hbad _]; [reflexivity..|].
  destruct (Hbad eq_refl) as [Hm _]. exact Hm.
Defined.
End Scanning.


(** ** Deleting a strategy *)

(** X4: [handleDelete] sends one DELETE that keeps the source file
    ([delete_file=false]), never throws and leaves the React state alone.
    What the user is told depends on the answer only: an ok reply gives
    "Strategy deleted" and a refresh when the caller passed [onRefresh];
    when it did not, as in the page, the success message is followed by
    "Failed to delete strategy".  Any other answer gives the failure
    message alone. *)
Theorem handleDelete_outcome (props : Props) (strategyId : nat) (w : World) :
  let run := Strategies.handleDelete props strategyId w in
  let deleted :=
    match (serves (server w) (strategy_deletion strategyId)).2 with
    | Resolved r => ok r
    | Rejected _ => false
    end in
  run.2 = Ok tt
  ∧ requests run.1.1 = [strategy_deletion strategyId]
  ∧ ui run.1.2 = ui w
  ∧ messages run.1.1
    = (if deleted then [(Success, Some "Strategy deleted")] else [])
        ++ (if deleted && onRefresh props then []
            else [(Failure, Some "Failed to delete strategy")])
  ∧ (EvRefresh ∈ run.1.1 ↔ deleted = true ∧ onRefresh props = true).
Proof.
  unfold Strategies.handleDelete, Strategies.call_onRefresh, strategy_deletion.
  run. answer. destruct res as [[[] pl]|e]; simpl;
    try destruct (onRefresh props); simpl; repeat split; try done;
    try (intros Hin; in_trace Hin; discriminate);
    try (match goal with H : _ ∈ _ |- _ => in_trace H; discriminate end);
    try (intros [? ?]; discriminate);
    try (intros _; repeat constructor).
Qed.

Lemma handleDelete_outcome_page :
  messages (trace_of (Strategies.handleDelete Page.strategies_props 4)
              (mount (scripted [no_content])))
  = [(Success, Some "Strategy deleted"); (Failure, Some "Failed to delete strategy")].
Proof.
  exact (proj1 (proj2 (proj2 (proj2 (handleDelete_outcome Page.strategies_props 4
           (mount (scripted [no_content]))))))).
Defined.

(** ** Executing strategies *)

(** X5: [handleExecute], wired as in the page, never throws, and ends
    with [loading] false and nothing selected.  Any reply with a body,
    ok or not, is stored as the results, closes the modal and is reported
    as a success; a rejected request or a reply without a body leaves no
    results, keeps the modal and sets the error banner to the error's
    message. *)
Theorem handleExecute_outcome
    (refresh : bool) (values : Strategies.ExecuteValues) (w : World) :
  let run := Strategies.handleExecute (page_props refresh) values w in
  let u' := ui run.1.2 in
  let req := execute_request (Strategies.watchlist_id values)
               (Strategies.strategy_ids values) in
  run.2 = Ok tt
  ∧ loading u' = false
  ∧ selectedStocks u' = []
  ∧ match (serves (server w) req).2 with
    | Resolved {| ok := _; payload := Some p |} =>
        results u' = Some (as_results p)
        ∧ error u' = None
        ∧ executeModal u' = false
        ∧ ∃ text, messages run.1.1 = [(Success, Some text)]
    | Resolved {| ok := _; payload := None |} =>
        results u' = None
        ∧ error u' = Some "Unexpected end of JSON input"
        ∧ executeModal u' = executeModal (ui w)
        ∧ messages run.1.1 = [(Failure, Some "Failed to execute strategies")]
    | Rejected e =>
        results u' = None
        ∧ error u' = Some (Js.str_or (exn_message e) "Failed to execute strategies")
        ∧ executeModal u' = executeModal (ui w)
        ∧ messages run.1.1 = [(Failure, Some "Failed to execute strategies")]
    end.
Proof.
  unfold Strategies.handleExecute, page_props, Page.handleExecuteStrategies,
    AppLibApi.executeMultipleStrategies. simpl. rewrite execute_request_eq.
  run. answer. destruct res as [[o [p|]]|e]; simpl;
    destruct (ui w); simpl; repeat split; eauto.
Qed.

(** X6: a reply to the execute request that carries a body other than a
    run, such as the error object of a refused execution, is not treated
    as a failure: the page announces "Executed undefined strategies!
    Found 0 stocks with matches", no error banner is set, and the summary
    cards show 0 stocks, 0 matches and a match rate of 0.0. *)
Theorem handleExecute_error_reply_shown_as_success
    (refresh : bool) (values : Strategies.ExecuteValues) (w : World)
    (r : Response) (p : Payload) :
  (serves (server w) (execute_request (Strategies.watchlist_id values)
                        (Strategies.strategy_ids values))).2 = Resolved r →
  payload r = Some p →
  (∀ run, p ≠ PRun run) →
  let run := Strategies.handleExecute (page_props refresh) values w in
  messages run.1.1
  = [(Success, Some "Executed undefined strategies! Found 0 stocks with matches")]
  ∧ error (ui run.1.2) = None
  ∧ Strategies.getSummary (results (ui run.1.2)) = Some empty_summary.
Proof.
  intros Hsrv Hp Hrun.
  unfold Strategies.handleExecute, page_props, Page.handleExecuteStrategies,
    AppLibApi.executeMultipleStrategies. simpl. rewrite execute_request_eq.
  run. answer. simpl in Hsrv. subst res. destruct r as [o pl]. simpl in Hp. subst pl.
  simpl. destruct p; try (by destruct (Hrun r)); by destruct (ui w).
Qed.

Lemma handleExecute_error_reply_shown_as_success_refused :
  messages (trace_of (Strategies.handleExecute (page_props false) two_strategies)
              (mount (scripted [reply false (PProblem (Some "Watchlist not found") None)])))
  = [(Success, Some "Executed undefined strategies! Found 0 stocks with matches")].
Proof.
  refine (proj1 (handleExecute_error_reply_shown_as_success false two_strategies
            (mount (scripted [reply false (PProblem (Some "Watchlist not found") None)]))
            {| ok := false; payload := Some (PProblem (Some "Watchlist not found") None) |}
            (PProblem (Some "Watchlist not found") None) _ _ _));
    [reflexivity | reflexivity | intros run; discriminate].
Defined.


(** ** Adding the missing stocks *)

Lemma messages_app (t1 t2 : list Event) : messages (t1 ++ t2) = messages t1 ++ messages t2.
Proof. apply omap_app. Qed.

Lemma messages_of_fetches (t : list Event) :
  (∀ e, e ∈ t → ∃ req res, e = EvFetch req res) → messages t = [].
Proof.
  induction t as [|e t IH]; [done|]. intros Hall.
  destruct (Hall e) as (req & res & ->); [by left|]. simpl.
  apply IH. intros e' He'. apply Hall. by right.
Qed.

(** X7: [ensureStocksExist] never throws, and returns [true] whenever the
    stock list was read.  Its message is fixed by that list alone: when
    symbols are missing from it, "Added N new stocks to database" is shown
    with N the number of missing symbols, whatever the answers to the
    creation requests are, and nothing is shown otherwise. *)
Theorem ensureStocksExist_reports_attempts (symbols : list string) (w : World) :
  let run := Strategies.ensureStocksExist symbols w in
  (∃ b, run.2 = Ok b)
  ∧ (is_Some (fetched_stocks w) → run.2 = Ok true)
  ∧ messages run.1.1
    = match to_create w symbols with
      | [] => []
      | _ :: _ =>
          [(Success, Some ("Added " +:+ pretty (length (to_create w symbols))
                             +:+ " new stocks to database"))]
      end.
Proof.
  unfold Strategies.ensureStocksExist, try_catch, to_create, fetched_stocks.
  unfold mbind, M_bind. rewrite run_fetch.
  destruct (serves (server w) (get Strategies.stocks_url)) as [sv [[[] p]|e]];
    simpl; try (split; [by eexists|split; [by intros [? [=]]|done]]).
  destruct p as [p|]; simpl; try (split; [by eexists|split; [by intros [? [=]]|done]]).
  rewrite stock_array_run.
  destruct (as_stocks p) as [allStocks|]; [|destruct symbols];
    simpl; try (split; [by eexists|split; [by intros [? [=]]|done]]).
  case_bool_decide as Hlen; simpl.
  - match goal with
    | |- context [for_of _ _ ?w1] =>
        destruct (add_missing_loop (Strategies.missing_stocks allStocks symbols) w1)
          as (t & w' & -> & Hreq & Hev & Hui & Hfr & Hto)
    end.
    simpl. split; [by eexists|]. split; [done|].
    rewrite !messages_app, (messages_of_fetches t Hev). simpl.
    by destruct (Strategies.missing_stocks allStocks symbols); [simpl in Hlen; lia|].
  - split; [by eexists|]. split; [done|].
    by destruct (Strategies.missing_stocks allStocks symbols); [|simpl in Hlen; lia].
Qed.

(** A catalog that refuses every new stock: the message still says one
    stock was added. *)
Lemma ensureStocksExist_reports_attempts_refused :
  messages (trace_of (Strategies.ensureStocksExist ["AAA.NS"; "BBB.NS"])
              (at_catalog refuse_all one_stock (mount (scripted []))))
  = [(Success, Some "Added 1 new stocks to database")].
Proof.
  exact (proj2 (proj2 (ensureStocksExist_reports_attempts ["AAA.NS"; "BBB.NS"]
           (at_catalog refuse_all one_stock (mount (scripted [])))))).
Defined.

(** ** Opening the create-watchlist modal *)

Section CreateFromResults.
Import Strategies Gestures.

Lemma matched_symbols_length (rows : list ResultRow) :
  length (matched_symbols rows) = length (filter (λ r, 0 < total_matches r) rows).
Proof. unfold matched_symbols. by rewrite length_fmap. Qed.

(** X8: the "Create Watchlist" buttons are enabled only when the
    summary counts at least one stock with matches.  From such a state
    [handleCreateWatchlistFromResults] never warns and never throws: it
    opens the modal with a selection that is not empty, and when nothing
    was selected it selects as many symbols as the summary card counts. *)
Theorem handleCreateWatchlistFromResults_enabled (w : World) :
  has_matches (ui w) →
  let run := handleCreateWatchlistFromResults w in
  run.2 = Ok tt
  ∧ createWatchlistModal (ui run.1.2) = true
  ∧ selectedStocks (ui run.1.2) ≠ []
  ∧ (∀ content, EvMessage Warning content ∉ run.1.1)
  ∧ (selectedStocks (ui w) = [] →
     ∀ s, getSummary (results (ui w)) = Some s →
       length (selectedStocks (ui run.1.2)) = stocksWithMatches s).
Proof.
  intros (s & Hs & Hpos). unfold getSummary in Hs.
  destruct (results (ui w)) as [r|] eqn:Hr; [|done].
  injection Hs as <-. simpl in Hpos.
  destruct (results_rows r) as [rows|] eqn:Hrows; [|simpl in Hpos; lia].
  simpl in Hpos. rewrite <- matched_symbols_length in Hpos.
  cbv zeta. unfold handleCreateWatchlistFromResults.
  rewrite run_get_ui_bind, Hr. simpl. rewrite Hrows.
  destruct (selectedStocks (ui w)) as [|x l] eqn:Hsel; simpl.
  - rewrite bool_decide_eq_false_2 by lia. run.
    repeat split; try (by destruct (ui w)).
    + destruct (ui w); simpl. intros E. rewrite E in Hpos. simpl in Hpos. lia.
    + intros content Hin. in_trace Hin; discriminate.
    + intros _ s [= <-]. simpl.
      rewrite <- matched_symbols_length. by destruct (ui w).
  - run. repeat split; try (by destruct (ui w)).
    + destruct (ui w); simpl in *. by rewrite Hsel.
    + intros content Hin. in_trace Hin; discriminate.
Qed.

Lemma handleCreateWatchlistFromResults_enabled_one_match :
  let w := showing (scripted []) (with_results (Some one_match_run) initial_ui) in
  selectedStocks (ui (world_of handleCreateWatchlistFromResults w)) ≠ [].
Proof.
  intros w.
  refine (proj1 (proj2 (proj2 (handleCreateWatchlistFromResults_enabled w _)))).
  eexists. split; [reflexivity|]. simpl. lia.
Defined.

End CreateFromResults.


(** ** Submitting the create-watchlist form *)

Section Submit.
Import Strategies.

(** The events [ensureStocksExist] can produce. *)
Lemma ensureStocksExist_quiet (symbols : list string) (w : World) (e : Event) :
  e ∈ trace_of (ensureStocksExist symbols) w →
  match e with
  | EvFetch _ _ | EvJson _ | EvMessage Success _ | EvDelay _ => True
  | _ => False
  end.
Proof.
  unfold trace_of, ensureStocksExist, try_catch.
  unfold mbind, M_bind. rewrite run_fetch.
  destruct (serves (server w) (get stocks_url)) as [sv [[[] p]|e0]];
    simpl; try (intros Hin; in_trace Hin; by subst).
  destruct p as [p|]; simpl; try (intros Hin; in_trace Hin; by subst).
  rewrite stock_array_run.
  destruct (as_stocks p) as [allStocks|]; [|destruct symbols];
    simpl; try (intros Hin; in_trace Hin; by subst).
  case_bool_decide as Hlen; simpl; try (intros Hin; in_trace Hin; by subst).
  match goal with
  | |- context [for_of _ _ ?w1] =>
      destruct (add_missing_loop (missing_stocks allStocks symbols) w1)
        as (t & w' & -> & Hreq & Hev & Hui & Hfr & Hto)
  end.
  simpl. intros Hin; in_trace Hin; try by subst.
  by destruct (Hev e Hin) as (? & ? & ->).
Qed.

(** Find an event in a computed trace. *)
Ltac find_event := solve [repeat first [constructor | apply elem_of_app; right]].

(** Close a branch in which the run has been computed and has failed. *)
Ltac failed_run :=
  match goal with
  | Hfail : (∀ tl u1, _), Hrun : _ = _, Hui : ui _ = ui (now_loading ?w) |- _ =>
      eapply Hfail;
        [ by rewrite Hrun; simpl; rewrite <- ?app_assoc
        | reflexivity | by rewrite Hrun
        | rewrite Hrun; simpl; rewrite Hui; unfold now_loading; simpl;
          try (match goal with H : selectedStocks (ui w) = [] |- _ => rewrite <- H end);
          by destruct (ui w) ..
        | intros Hin; in_trace Hin; discriminate
        | eexists; find_event ]
  end.

(** The outcome of a run of [handleSubmitWatchlist]. *)
Lemma handleSubmitWatchlist_run
    (props : Props) (values : WatchlistValues) (w : World) :
  let run := handleSubmitWatchlist props values w in
  let u' := ui run.1.2 in
  run.2 = Ok tt
  ∧ loading u' = false
  ∧ ((EvReload 1000 ∈ run.1.1
      ∧ createWatchlistModal u' = false
      ∧ selectedStocks u' = []
      ∧ (∀ content, EvMessage Failure content ∉ run.1.1)
      ∧ ∃ req r, (EvFetch req (Resolved r) ∈ run.1.1)
                 ∧ creates_watchlist req ∧ ok r = true)
     ∨ ((EvReload 1000 ∉ run.1.1)
        ∧ createWatchlistModal u' = createWatchlistModal (ui w)
        ∧ selectedStocks u' = selectedStocks (ui w)
        ∧ ∃ content, EvMessage Failure content ∈ run.1.1)).
Proof.
  intros run u'. subst u'.
  assert (Hrun : run = handleSubmitWatchlist props values w) by reflexivity.
  clearbody run.
  destruct (ensureStocksExist_run (selectedStocks (ui w)) (now_loading w))
    as (t1 & w1 & b & E & _ & Hui & _).
  pose proof (ensureStocksExist_quiet (selectedStocks (ui w)) (now_loading w)) as Hq.
  unfold trace_of in Hq. rewrite E in Hq. simpl in Hq.
  assert (Hfail : ∀ tl u1,
    run.1.1 = t1 ++ tl → ui run.1.2 = u1 → run.2 = Ok tt →
    createWatchlistModal u1 = createWatchlistModal (ui w) →
    selectedStocks u1 = selectedStocks (ui w) →
    loading u1 = false →
    (EvReload 1000 ∉ tl) →
    (∃ content, EvMessage Failure content ∈ tl) →
    run.2 = Ok tt
    ∧ loading (ui run.1.2) = false
    ∧ ((EvReload 1000 ∈ run.1.1
        ∧ createWatchlistModal (ui run.1.2) = false
        ∧ selectedStocks (ui run.1.2) = []
        ∧ (∀ content, EvMessage Failure content ∉ run.1.1)
        ∧ ∃ req r, (EvFetch req (Resolved r) ∈ run.1.1)
                   ∧ creates_watchlist req ∧ ok r = true)
       ∨ ((EvReload 1000 ∉ run.1.1)
          ∧ createWatchlistModal (ui run.1.2) = createWatchlistModal (ui w)
          ∧ selectedStocks (ui run.1.2) = selectedStocks (ui w)
          ∧ ∃ content, EvMessage Failure content ∈ run.1.1))).
  { intros tl u1 -> -> -> Hm Hs Hl Hno [content Hc].
    split; [done|]. split; [done|]. right. split.
    - intros [Hin|Hin]%elem_of_app; [by apply Hq in Hin|done].
    - split; [done|]. split; [done|]. exists content. apply elem_of_app. by right. }
  assert (Hdone : ∀ tl u1 req r,
    run.1.1 = t1 ++ tl → ui run.1.2 = u1 → run.2 = Ok tt →
    createWatchlistModal u1 = false →
    selectedStocks u1 = [] →
    loading u1 = false →
    EvReload 1000 ∈ tl →
    (∀ content, EvMessage Failure content ∉ tl) →
    EvFetch req (Resolved r) ∈ tl → creates_watchlist req → ok r = true →
    run.2 = Ok tt
    ∧ loading (ui run.1.2) = false
    ∧ ((EvReload 1000 ∈ run.1.1
        ∧ createWatchlistModal (ui run.1.2) = false
        ∧ selectedStocks (ui run.1.2) = []
        ∧ (∀ content, EvMessage Failure content ∉ run.1.1)
        ∧ ∃ req r, (EvFetch req (Resolved r) ∈ run.1.1)
                   ∧ creates_watchlist req ∧ ok r = true)
       ∨ ((EvReload 1000 ∉ run.1.1)
          ∧ createWatchlistModal (ui run.1.2) = createWatchlistModal (ui w)
          ∧ selectedStocks (ui run.1.2) = selectedStocks (ui w)
          ∧ ∃ content, EvMessage Failure content ∈ run.1.1))).
  { intros tl u1 req r -> -> -> Hm Hs Hl Hre Hno Hreq Hc Hok.
    split; [done|]. split; [done|]. left. split; [apply elem_of_app; by right|].
    split; [done|]. split; [done|]. split.
    - intros content [Hin|Hin]%elem_of_app; [by apply Hq in Hin|by apply (Hno content)].
    - exists req, r. split; [apply elem_of_app; by right|done]. }
  unfold handleSubmitWatchlist, finally, try_catch in Hrun.
  unfold mbind, M_bind, get_ui, set_ui in Hrun. simpl in Hrun.
  fold (now_loading w) in Hrun. rewrite E in Hrun. simpl in Hrun.
  rewrite run_fetch in Hrun.
  destruct (serves (server w1) (get stocks_url)) as [sv [[[] [p|]]|e]];
    simpl in Hrun.
  2-5: failed_run.
  rewrite stock_array_run in Hrun.
  destruct (as_stocks p) as [allStocks|];
    [|destruct (selectedStocks (ui w)) eqn:Hsel; simpl in Hrun].
  2-3: failed_run.
  simpl in Hrun.
  destruct (map_symbols allStocks (selectedStocks (ui w))) as [stockIds notFoundStocks].
  simpl in Hrun.
  case_bool_decide as Hnf; case_bool_decide as Hids; simpl in Hrun.
  1, 3: failed_run.
  all: rewrite run_fetch in Hrun;
    match type of Hrun with
    | context [serves ?sv1 ?req] =>
        destruct (serves sv1 req) as [sv2 [[[] [p2|]]|e2]]
    end;
    simpl in Hrun; try destruct (onRefresh props); simpl in Hrun.
  all: try failed_run.
  all: eapply (Hdone _ _ (post_json watchlists_url (new_watchlist values stockIds))
                 {| ok := true; payload := Some p2 |});
    [ by rewrite Hrun; simpl; rewrite <- ?app_assoc
    | reflexivity | by rewrite Hrun
    | rewrite Hrun; simpl; rewrite Hui; unfold now_loading; simpl; by destruct (ui w) ..
    | find_event
    | intros content Hin; in_trace Hin; discriminate
    | find_event
    | reflexivity
    | reflexivity ].
Qed.
(** X9: [handleSubmitWatchlist] never throws and always ends with
    [loading] false.  A run either schedules the page reload, and then it
    has closed the modal, emptied the selection, shown no error and had
    its watchlist-creation request answered ok; or it schedules no
    reload, and then it has shown an error and kept both the modal and
    the selection as they were. *)
Theorem handleSubmitWatchlist_outcome
    (props : Props) (values : WatchlistValues) (w : World) :
  let run := handleSubmitWatchlist props values w in
  let u' := ui run.1.2 in
  run.2 = Ok tt
  ∧ loading u' = false
  ∧ ((EvReload 1000 ∈ run.1.1
      ∧ createWatchlistModal u' = false
      ∧ selectedStocks u' = []
      ∧ (∀ content, EvMessage Failure content ∉ run.1.1)
      ∧ ∃ req r, (EvFetch req (Resolved r) ∈ run.1.1)
                 ∧ creates_watchlist req ∧ ok r = true)
     ∨ ((EvReload 1000 ∉ run.1.1)
        ∧ createWatchlistModal u' = createWatchlistModal (ui w)
        ∧ selectedStocks u' = selectedStocks (ui w)
        ∧ ∃ content, EvMessage Failure content ∈ run.1.1)).
Proof. apply handleSubmitWatchlist_run. Qed.

Lemma handleSubmitWatchlist_outcome_created :
  let w := at_catalog picky one_stock
             (showing (scripted []) (with_selectedStocks ["AAA.NS"; "ZZZ"] initial_ui)) in
  EvReload 1000 ∈ trace_of (handleSubmitWatchlist Page.strategies_props tech_watchlist) w
  ∧ selectedStocks (ui (world_of (handleSubmitWatchlist Page.strategies_props
                                    tech_watchlist) w)) = [].
Proof.
  intros w.
  destruct (handleSubmitWatchlist_outcome Page.strategies_props tech_watchlist w)
    as (_ & _ & [(Hre & _ & Hsel & _)|(Hno & _)]).
  - split; [exact Hre | exact Hsel].
  - exfalso. apply Hno. vm_compute. find_event.
Defined.

End Submit.


(** ** Busy flags *)

Section Busy.
Import Strategies Gestures.

#[local] Instance upload_and_scan_kept_refl : Reflexive upload_and_scan_kept.
Proof. by intros u. Qed.

#[local] Instance upload_and_scan_kept_trans : Transitive upload_and_scan_kept.
Proof.
  intros u1 u2 u3 (?&?&?) (?&?&?). unfold upload_and_scan_kept in *.
  repeat split; congruence.
Qed.

Lemma world_of_finally_set_ui {A} (m : M A) (f : UI → UI) (w : World) :
  ui (world_of (finally m (set_ui f)) w) = f (ui (world_of m w)).
Proof. unfold world_of, finally, set_ui. by destruct (m w) as [[t1 w1] r]. Qed.

Lemma world_of_get_ui_bind {A} (k : UI → M A) (w : World) :
  world_of (get_ui ≫= k) w = world_of (k (ui w)) w.
Proof. unfold world_of. by rewrite run_get_ui_bind. Qed.

Lemma handleSubmitWatchlist_busy props values :
  stable upload_and_scan_kept (handleSubmitWatchlist props values).
Proof.
  unfold handleSubmitWatchlist, ensureStocksExist, add_missing_stock.
  repeat first
    [ first
        [ apply stable_bind | apply stable_try_catch | apply stable_finally
        | apply stable_for_of | apply stable_ret | apply stable_throw
        | apply stable_emit | apply stable_message | apply stable_get_ui
        | apply stable_get_today | apply stable_fetch
        | apply stable_response_json | apply stock_array_stable ];
      try typeclasses eauto; intros
    | match goal with
      | |- stable _ (if ?b then _ else _) => destruct b
      | |- stable _ (match ?x with _ => _ end) => destruct x
      end ];
    try (apply stable_set_ui; by intros []).
Qed.

Lemma handleSubmitWatchlist_idle props values (w : World) :
  idle (ui w) → idle (ui (world_of (handleSubmitWatchlist props values) w)).
Proof.
  intros (Hl & Hu & Hs & Hc).
  destruct (handleSubmitWatchlist_busy props values w) as (Hu' & Hs' & Hc').
  split; [|by rewrite Hu', Hs', Hc'].
  unfold handleSubmitWatchlist.
  rewrite world_of_get_ui_bind, world_of_finally_set_ui.
  by match goal with |- loading (with_loading false ?u) = _ => destruct u end.
Qed.

Lemma handleExecute_idle refresh values (w : World) :
  idle (ui w) → idle (ui (world_of (handleExecute (page_props refresh) values) w)).
Proof.
  intros (Hl & Hu & Hs & Hc).
  unfold handleExecute, page_props, Page.handleExecuteStrategies,
    AppLibApi.executeMultipleStrategies. run.
  answer. destruct res as [[o [p|]]|e]; simpl; by destruct (ui w).
Qed.

Lemma handleUpload_idle props file (w : World) :
  idle (ui w) → idle (ui (world_of (handleUpload props file) w)).
Proof.
  intros (Hl & Hu & Hs & Hc). unfold handleUpload, call_onRefresh. run.
  answer. destruct res as [[[] [p|]]|e]; simpl;
    try destruct (onRefresh props); simpl; by destruct (ui w).
Qed.

Lemma handleDelete_idle props strategyId (w : World) :
  idle (ui w) → idle (ui (world_of (handleDelete props strategyId) w)).
Proof.
  intros (Hl & Hu & Hs & Hc). unfold handleDelete, call_onRefresh. run.
  answer. destruct res as [[[] p]|e]; simpl;
    try destruct (onRefresh props); simpl; by destruct (ui w).
Qed.

Lemma handleScan_idle props (w : World) :
  scanning (ui w) = false → idle (ui w) →
  idle (ui (world_of (handleScan props) w)).
Proof.
  intros Hscan (Hl & Hu & Hs & Hc). unfold world_of.
  destruct (handleScan_started props w Hscan) as (tail & w' & -> & _ & Hui & _).
  simpl. rewrite Hui. by destruct (ui w).
Qed.

Lemma reachable_idle (refresh : bool) (w : World) :
  reachable (page_props refresh) w → idle (ui w).
Proof.
  induction 1 as [w Hinit|w a Hreach IH Hen].
  - by rewrite Hinit.
  - destruct a; simpl in *;
      try (destruct IH as (?&?&?&?); unfold world_of; simpl; by destruct (ui w)).
    + by apply handleExecute_idle.
    + unfold world_of. rewrite run_bind.
      pose proof (handleUpload_idle (page_props refresh) file w IH) as Hup.
      unfold world_of in Hup.
      by destruct (handleUpload (page_props refresh) file w) as [[t1 w1] [b|e]].
    + by apply handleScan_idle.
    + by apply handleDelete_idle.
    + destruct IH as (?&?&?&?). unfold selectAllMatched.
      rewrite world_of_get_ui_bind.
      destruct (results (ui w)) as [r|]; [destruct (results_rows r)|];
        unfold world_of; simpl; by destruct (ui w).
    + destruct IH as (?&?&?&?). unfold handleCreateWatchlistFromResults.
      rewrite world_of_get_ui_bind.
      destruct (results (ui w) ≫= results_rows) as [rows|]; [|done].
      repeat case_bool_decide; unfold world_of; simpl; by destruct (ui w).
    + by apply handleSubmitWatchlist_idle.
Qed.

(** X10: the busy flags are always reset.  In every state the component
    reaches once its handlers have run to completion, whatever the server
    answered, [loading], [uploading] and [scanning] are false and no scan
    controller is kept.  So no spinner outlives its handler, and
    [handleScan] never finds a previous controller to abort: none of its
    runs aborts a request. *)
Theorem busy_flags_always_reset (refresh : bool) (w : World) :
  reachable (page_props refresh) w →
  idle (ui w)
  ∧ ∀ controller,
      EvAbort controller ∉ trace_of (handleScan (page_props refresh)) w.
Proof.
  intros Hreach. pose proof (reachable_idle refresh w Hreach) as Hidle.
  split; [done|]. destruct Hidle as (_ & _ & Hscan & Hc).
  intros controller. unfold trace_of.
  destruct (handleScan_started (page_props refresh) w Hscan)
    as (tail & w' & -> & _ & _ & _ & _ & Hno).
  simpl. unfold abort_previous. rewrite Hc. simpl.
  intros Hin. in_trace Hin; try discriminate. by apply (Hno controller).
Qed.

Lemma busy_flags_always_reset_after_execute :
  idle (ui after_select_all).
Proof.
  refine (proj1 (busy_flags_always_reset false after_select_all _)).
  unfold after_select_all.
  apply reach_step; [apply reach_step; [apply reach_step; [by apply reach_mount|]|]|].
  - exact I.
  - split; reflexivity.
  - split; [split; [reflexivity|by eexists]|].
    eexists. split; [reflexivity|]. simpl. lia.
Defined.

End Busy.


(** ** Rendering a reason *)

Lemma substring0_length (n : nat) (s : string) :
  n ≤ String.length s → String.length (String.substring 0 n s) = n.
Proof.
  revert n. induction s as [|c s IH]; intros [|n] Hn; simpl in *; try done; try lia.
  rewrite IH; lia.
Qed.

Lemma substring0_all (s : string) : String.substring 0 (String.length s) s = s.
Proof. induction s as [|c s IH]; [done|]. simpl. by rewrite IH. Qed.

Lemma substring0_prefix (n : nat) (s : string) :
  ∃ rest, s = String.substring 0 n s +:+ rest.
Proof.
  revert n. induction s as [|c s IH]; intros [|n]; simpl.
  - by exists EmptyString.
  - by exists EmptyString.
  - by eexists.
  - destruct (IH n) as [rest Hrest]. exists rest.
    rewrite string_app_cons. by rewrite <- Hrest.
Qed.

(** X11: the reason shown in a match box is a prefix of the reason of at
    most 80 characters; it is followed by an ellipsis exactly when the
    reason is longer than 80 characters, and is the whole reason
    otherwise.  An empty or absent reason shows nothing. *)
Theorem reason_child_at_most_80 (s : string) :
  Strategies.reason_child None = None
  ∧ (Strategies.reason_child (Some s) = None ↔ s = EmptyString)
  ∧ ∀ shown ellipsis,
      Strategies.reason_child (Some s) = Some (shown, ellipsis) →
      String.length shown ≤ 80
      ∧ (∃ rest, s = shown +:+ rest)
      ∧ (ellipsis = true ↔ 80 < String.length s)
      ∧ (ellipsis = false → shown = s).
Proof.
  split; [done|]. unfold Strategies.reason_child, Js.truthy_str.
  split.
  - case_bool_decide; simpl; [done|]. split; [done|]. intros ->. done.
  - intros shown ellipsis. case_bool_decide; simpl; [done|].
    intros [= <- <-]. unfold Js.substring0. split; [|split; [|split]].
    + rewrite substring0_length; lia.
    + apply substring0_prefix.
    + apply bool_decide_eq_true.
    + intros Hle%bool_decide_eq_false.
      rewrite Nat.min_r by lia. apply substring0_all.
Qed.

Lemma reason_child_at_most_80_short :
  String.length "RSI above 60" ≤ 80
  ∧ Strategies.reason_child (Some "RSI above 60") = Some ("RSI above 60", false).
Proof.
  split; [|reflexivity].
  destruct (reason_child_at_most_80 "RSI above 60") as (_ & _ & Hshown).
  exact (proj1 (Hshown "RSI above 60" false eq_refl)).
Defined.

(** ** Naming a new stock *)

Section Naming.
Import Stdlib.Strings.Ascii.

Lemma substring_none (n : nat) (s : string) : String.substring n 0 s = EmptyString.
Proof. revert n. induction s as [|c s IH]; intros [|n]; simpl; auto. Qed.

Lemma substring_app (s t : string) (n : nat) :
  String.substring (String.length s) n (s +:+ t) = String.substring 0 n t.
Proof. induction s as [|c s IH]; [done|]. rewrite string_app_cons. apply IH. Qed.

Lemma length_app (s t : string) :
  String.length (s +:+ t) = String.length s + String.length t.
Proof. induction s as [|c s IH]; [done|]. rewrite string_app_cons. simpl. by rewrite IH. Qed.

Lemma prefix_refl (p : string) : String.prefix p p = true.
Proof. apply String.prefix_correct, substring0_all. Qed.

Lemma replace_unfold (pat rep s : string) :
  Js.replace pat rep s
  = if String.prefix pat s
    then rep +:+ String.substring (String.length pat)
                   (String.length s - String.length pat) s
    else match s with
         | EmptyString => EmptyString
         | String c s' => String c (Js.replace pat rep s')
         end.
Proof. by destruct s. Qed.

Lemma prefix_dot (pat : string) (a : Ascii.ascii) (s : string) :
  Ascii.eqb a "."%char = false → String.prefix (String "."%char pat) (String a s) = false.
Proof.
  intros Ha.
  change (String.prefix (String "."%char pat) (String a s))
    with (if Ascii.ascii_dec "."%char a then String.prefix pat s else false).
  destruct (Ascii.ascii_dec "."%char a) as [<-|Hne]; [|done].
  by rewrite Ascii.eqb_refl in Ha.
Qed.

(** A pattern that starts with a dot does not occur in a dotless string. *)
Lemma replace_dotless (pat : string) (s : string) :
  dotless s = true → Js.replace (String "."%char pat) EmptyString s = s.
Proof.
  induction s as [|a s IH]; [done|]. simpl dotless.
  intros [Ha Hs]%andb_true_iff. apply negb_true_iff in Ha.
  rewrite replace_unfold, prefix_dot by done. by rewrite IH.
Qed.

(** A dotted suffix after a dotless base is the first occurrence. *)
Lemma replace_suffix (pat : string) (s : string) :
  dotless s = true →
  Js.replace (String "."%char pat) EmptyString (s +:+ String "."%char pat) = s.
Proof.
  induction s as [|a s IH].
  - intros _. change (EmptyString +:+ String "."%char pat) with (String "."%char pat).
    by rewrite replace_unfold, prefix_refl, Nat.sub_diag, substring_none.
  - simpl dotless. intros [Ha Hs]%andb_true_iff. apply negb_true_iff in Ha.
    rewrite string_app_cons, replace_unfold, prefix_dot by done. by rewrite IH.
Qed.

(** The other suffix is left alone. *)
Lemma replace_other_suffix (s : string) :
  dotless s = true →
  Js.replace ".NS" EmptyString (s +:+ ".BO") = s +:+ ".BO".
Proof.
  induction s as [|a s IH]; [done|].
  simpl dotless. intros [Ha Hs]%andb_true_iff. apply negb_true_iff in Ha.
  rewrite string_app_cons, replace_unfold, prefix_dot by done. by rewrite IH.
Qed.

Lemma endsWith_app (s suf : string) : Js.endsWith (s +:+ suf) suf = true.
Proof.
  unfold Js.endsWith. rewrite length_app. case_decide; [|lia].
  apply bool_decide_eq_true.
  replace (String.length s + String.length suf - String.length suf)
    with (String.length s) by lia.
  by rewrite substring_app, substring0_all.
Qed.

Lemma endsWith_other (s : string) : Js.endsWith (s +:+ ".BO") ".NS" = false.
Proof.
  unfold Js.endsWith. rewrite length_app. case_decide; [|done].
  apply bool_decide_eq_false.
  replace (String.length s + String.length ".BO" - String.length ".NS")
    with (String.length s) by (simpl; lia).
  by rewrite substring_app.
Qed.

Lemma substring_dotless (n m : nat) (s : string) :
  dotless s = true → dotless (String.substring n m s) = true.
Proof.
  revert n m. induction s as [|a s IH]; intros [|n] [|m]; simpl; try done.
  - intros [Ha Hs]%andb_true_iff. rewrite Ha. simpl. by apply IH.
  - intros [Ha Hs]%andb_true_iff. by apply IH.
  - intros [Ha Hs]%andb_true_iff. by apply IH.
Qed.

Lemma endsWith_dotless (s : string) : dotless s = true → Js.endsWith s ".NS" = false.
Proof.
  intros Hs. unfold Js.endsWith. case_decide; [|done].
  apply bool_decide_eq_false. intros E.
  pose proof (substring_dotless (String.length s - String.length ".NS")
                (String.length ".NS") s Hs) as Hd.
  by rewrite E in Hd.
Qed.

(** X12: how [ensureStocksExist] names a stock it creates.  For a symbol
    made of a base without dots and the suffix .NS the name is the base
    and the exchange NSE; with the suffix .BO the name is the base and the
    exchange BSE; a symbol without dots keeps its name and is filed under
    BSE as well. *)
Theorem new_stock_naming (base : string) :
  dotless base = true →
  Strategies.new_stock (base +:+ ".NS") = stock_named (base +:+ ".NS") base "NSE"
  ∧ Strategies.new_stock (base +:+ ".BO") = stock_named (base +:+ ".BO") base "BSE"
  ∧ Strategies.new_stock base = stock_named base base "BSE".
Proof.
  intros Hbase. unfold Strategies.new_stock, stock_named. repeat split.
  - by rewrite replace_suffix, replace_dotless, endsWith_app.
  - by rewrite replace_other_suffix, replace_suffix, endsWith_other.
  - rewrite (replace_dotless "NS"), (replace_dotless "BO") by done.
    by rewrite endsWith_dotless.
Qed.

Lemma new_stock_naming_reliance :
  Strategies.new_stock "RELIANCE.NS" = stock_named "RELIANCE.NS" "RELIANCE" "NSE".
Proof. exact (proj1 (new_stock_naming "RELIANCE" eq_refl)). Defined.

End Naming.


(** ** Uploading a strategy file *)

Section Handlers.
Import Strategies Gestures.

(** X13: [handleUpload] sends the file in one request, always returns
    [false] and always ends with [uploading] false.  The modal is closed
    exactly when the reply is ok and has a body; the success message is
    then followed by a refresh if the caller passed [onRefresh], and by
    the error "onRefresh is not a function" if it did not, as in the
    page.  Every other answer gives one error message and leaves the modal
    open. *)
Theorem handleUpload_outcome (props : Props) (file : File) (w : World) :
  let run := handleUpload props file w in
  let u' := ui run.1.2 in
  run.2 = Ok false
  ∧ requests run.1.1 = [upload_request file]
  ∧ uploading u' = false
  ∧ match (serves (server w) (upload_request file)).2 with
    | Resolved {| ok := true; payload := Some result |} =>
        uploadModal u' = false
        ∧ messages run.1.1
          = (Success, get_message result)
              :: (if onRefresh props then []
                  else [(Failure, Some "onRefresh is not a function")])
        ∧ (EvRefresh ∈ run.1.1 ↔ onRefresh props = true)
    | Resolved {| ok := false; payload := Some err |} =>
        uploadModal u' = uploadModal (ui w)
        ∧ messages run.1.1
          = [(Failure, Some (Js.opt_or (get_detail err) "Upload failed"))]
        ∧ (EvRefresh ∉ run.1.1)
    | Resolved {| ok := _; payload := None |} =>
        uploadModal u' = uploadModal (ui w)
        ∧ messages run.1.1 = [(Failure, Some "Unexpected end of JSON input")]
        ∧ (EvRefresh ∉ run.1.1)
    | Rejected e =>
        uploadModal u' = uploadModal (ui w)
        ∧ messages run.1.1
          = [(Failure, Some (Js.str_or (exn_message e) "Failed to upload strategy"))]
        ∧ (EvRefresh ∉ run.1.1)
    end.
Proof.
  cbv zeta. unfold handleUpload, call_onRefresh. run. answer.
  destruct res as [[[] [p|]]|e]; simpl; try destruct (onRefresh props); simpl;
    rewrite ?opt_or_truthy by done;
    repeat split; try (by destruct (ui w));
    try (intros Hin; in_trace Hin; discriminate);
    try (match goal with H : _ ∈ _ |- _ => in_trace H; discriminate end);
    try (intros _; repeat constructor).
Qed.

Lemma handleUpload_outcome_page :
  messages (trace_of (handleUpload Page.strategies_props strategy_file)
              (mount (scripted [reply true (PUploaded (Some "Strategy uploaded"))])))
  = [(Success, Some "Strategy uploaded");
     (Failure, Some "onRefresh is not a function")].
Proof.
  exact (proj1 (proj2 (proj2 (proj2 (proj2 (handleUpload_outcome
           Page.strategies_props strategy_file
           (mount (scripted [reply true (PUploaded (Some "Strategy uploaded"))])))))))).
Defined.

(** ** No handler throws *)

Lemma handleExecute_returns refresh values (w : World) :
  result_of (handleExecute (page_props refresh) values) w = Ok tt.
Proof.
  unfold handleExecute, page_props, Page.handleExecuteStrategies,
    AppLibApi.executeMultipleStrategies. run.
  answer. by destruct res as [[o [p|]]|e].
Qed.

Lemma handleUpload_returns props file (w : World) :
  result_of (handleUpload props file) w = Ok false.
Proof.
  unfold handleUpload, call_onRefresh. run. answer.
  destruct res as [[[] [p|]]|e]; simpl; try destruct (onRefresh props); done.
Qed.

Lemma handleDelete_returns props strategyId (w : World) :
  result_of (handleDelete props strategyId) w = Ok tt.
Proof.
  unfold handleDelete, call_onRefresh. run. answer.
  destruct res as [[[] p]|e]; simpl; try destruct (onRefresh props); done.
Qed.

Lemma handleScan_returns props (w : World) :
  result_of (handleScan props) w = Ok tt.
Proof.
  unfold result_of. destruct (scanning (ui w)) eqn:Hscan.
  - unfold handleScan. by rewrite run_get_ui_bind, Hscan.
  - by destruct (handleScan_started props w Hscan) as (tail & w' & -> & _).
Qed.

Lemma handleCreateWatchlistFromResults_returns (w : World) :
  result_of handleCreateWatchlistFromResults w = Ok tt.
Proof.
  unfold result_of, handleCreateWatchlistFromResults. rewrite run_get_ui_bind.
  destruct (results (ui w) ≫= results_rows) as [rows|]; [|done].
  by repeat case_bool_decide.
Qed.

Lemma selectAllMatched_returns (w : World) :
  has_matches (ui w) → result_of selectAllMatched w = Ok tt.
Proof.
  intros (s & Hs & Hpos). unfold getSummary in Hs.
  destruct (results (ui w)) as [r|] eqn:Hr; [|done].
  injection Hs as <-. simpl in Hpos.
  destruct (results_rows r) as [rows|] eqn:Hrows; [|simpl in Hpos; lia].
  unfold result_of, selectAllMatched. by rewrite run_get_ui_bind, Hr, Hrows.
Qed.

(** X14: no gesture ends in an uncaught error.  In every state, the
    handler of every gesture the page offers in that state runs to
    completion without throwing, whatever the server answers and whether
    or not the caller passed [onRefresh]: the one handler that can throw,
    [selectAllMatched] on results without rows, is behind a button that
    is rendered only when a row matched. *)
Theorem handlers_never_throw (refresh : bool) (w : World) (a : Action) :
  enabled (ui w) a →
  result_of (handler (page_props refresh) a) w = Ok tt.
Proof.
  intros Hen. destruct a; simpl in *; try done.
  - apply handleExecute_returns.
  - unfold result_of. rewrite run_bind.
    pose proof (handleUpload_returns (page_props refresh) file w) as Hup.
    unfold result_of in Hup.
    destruct (handleUpload (page_props refresh) file w) as [[t1 w1] r].
    simpl in Hup. by subst r.
  - apply handleScan_returns.
  - apply handleDelete_returns.
  - apply selectAllMatched_returns, Hen.
  - apply handleCreateWatchlistFromResults_returns.
  - unfold result_of.
    by destruct (handleSubmitWatchlist_run (page_props refresh) values w) as [-> _].
Qed.

Lemma handlers_never_throw_select_all :
  result_of (handler (page_props false) SelectAllMatched)
    (world_of (handler (page_props false) (SubmitExecute two_strategies))
       (world_of (handler (page_props false) OpenExecuteModal)
          (mount (scripted [reply true (PRun one_match_run)]))))
  = Ok tt.
Proof.
  apply handlers_never_throw.
  split; [split; [reflexivity|by eexists]|].
  eexists. split; [reflexivity|]. simpl. lia.
Defined.

End Handlers.


(** ** The toast and the summary *)

(** X15: the success toast of the page and the summary card of the
    component count the same rows.  When the execute reply is a run,
    [handleExecuteStrategies] announces "Found N stocks with matches" and
    [getSummary] on the stored results gives the same N as
    [stocksWithMatches]. *)
Theorem execute_toast_agrees_with_summary
    (refresh : bool) (values : Strategies.ExecuteValues) (w : World)
    (r : Response) (outcome : Results) :
  (serves (server w) (execute_request (Strategies.watchlist_id values)
                        (Strategies.strategy_ids values))).2 = Resolved r →
  payload r = Some (PRun outcome) →
  let run := Strategies.handleExecute (page_props refresh) values w in
  ∃ s, Strategies.getSummary (results (ui run.1.2)) = Some s
    ∧ messages run.1.1
      = [(Success,
          Some ("Executed " +:+ Js.show_count (strategy_count outcome)
                  +:+ " strategies! Found "
                  +:+ pretty (Strategies.stocksWithMatches s)
                  +:+ " stocks with matches"))].
Proof.
  intros Hsrv Hp.
  unfold Strategies.handleExecute, page_props, Page.handleExecuteStrategies,
    AppLibApi.executeMultipleStrategies. simpl. rewrite execute_request_eq.
  run. answer. simpl in Hsrv. subst res. destruct r as [o pl]. simpl in Hp. subst pl.
  simpl. eexists. split; [by destruct (ui w)|]. done.
Qed.

Lemma execute_toast_agrees_with_summary_one_match :
  messages (trace_of (Strategies.handleExecute (page_props false) two_strategies)
              (mount (scripted [reply true (PRun one_match_run)])))
  = [(Success, Some "Executed 1 strategies! Found 1 stocks with matches")].
Proof.
  destruct (execute_toast_agrees_with_summary false two_strategies
              (mount (scripted [reply true (PRun one_match_run)]))
              {| ok := true; payload := Some (PRun one_match_run) |} one_match_run
              eq_refl eq_refl) as (s & Hs & Hm).
  vm_compute in Hs. injection Hs as <-. exact Hm.
Defined.

(** ** The delete calls of the older copy *)

(** X16: the delete calls of [lib/api.ts] never look at the status of the
    reply: they return the parsed body of any reply that has one, and
    throw on every reply without a body.  So they report the 204 of a
    successful deletion as an error, and a refusal that explains itself as
    a result. *)
Theorem older_delete_calls_need_a_body (id : nat) (w : World) :
  let outcome (req : Request) : Res Payload :=
    match (serves (server w) req).2 with
    | Resolved r =>
        match payload r with
        | Some p => Ok p
        | None => Err SyntaxError
        end
    | Rejected e => Err e
    end in
  let stock := delete_req ("http://localhost:8000/api/stocks/" +:+ pretty id) in
  let watchlist := delete_req ("http://localhost:8000/api/watchlists/" +:+ pretty id) in
  requests (trace_of (LibApi.deleteStock id) w) = [stock]
  ∧ result_of (LibApi.deleteStock id) w = outcome stock
  ∧ requests (trace_of (LibApi.deleteWatchlist id) w) = [watchlist]
  ∧ result_of (LibApi.deleteWatchlist id) w = outcome watchlist.
Proof.
  cbv zeta. unfold LibApi.deleteStock, LibApi.deleteWatchlist.
  change (API_BASE_URL +:+ "/api/stocks/" +:+ pretty id)
    with ("http://localhost:8000/api/stocks/" +:+ pretty id).
  change (API_BASE_URL +:+ "/api/watchlists/" +:+ pretty id)
    with ("http://localhost:8000/api/watchlists/" +:+ pretty id).
  run. repeat split; answer; by destruct res as [[o [p|]]|e].
Qed.

(** The same 204 reply in the two copies. *)
Example delete_204_in_both_copies :
  result_of (LibApi.deleteWatchlist 7) (mount (scripted [no_content])) = Err SyntaxError
  ∧ result_of (AppLibApi.deleteWatchlist 7) (mount (scripted [no_content])) = Ok tt.
Proof. by vm_compute. Qed.


(** ** Loading the page data *)

Section Loading.
Import Home.

Lemma run_settled_json_bind {A} (req : Request) (k : Res Payload → M A) (w : World) :
  (settled (response ← fetch req; response_json response) ≫= k) w
  = let '(t, w', r) :=
      k match (serves (server w) req).2 with
        | Resolved r => match payload r with
                        | Some p => Ok p
                        | None => Err SyntaxError
                        end
        | Rejected e => Err e
        end
        {| server := (serves (server w) req).1; ui := ui w; fresh := fresh w;
           today := today w |} in
    (EvFetch req (serves (server w) req).2
       :: match (serves (server w) req).2 with
          | Resolved r => [EvJson r]
          | Rejected _ => []
          end ++ t, w', r).
Proof.
  rewrite run_bind. unfold settled. rewrite run_bind, run_fetch.
  destruct (serves (server w) req) as [sv [[o [p|]]|e]]; simpl;
    match goal with |- context [k ?r ?w1] => by destruct (k r w1) as [[??]?] end.
Qed.

(** The run of [fetchAll]. *)
Lemma fetchAll_run (s : State) (w : World) :
  let run := fetchAll s w in
  requests run.1.1 = load_requests
  ∧ server run.1.2 = served (server w) load_requests
  ∧ ui run.1.2 = ui w
  ∧ match parsed <$> answers (server w) load_requests with
    | [Some statsData; Some stocksData; Some watchlistsData; Some strategiesData] =>
        run.2 = Ok {| page := page s; stocks := Loaded stocksData;
                      watchlists := Loaded watchlistsData;
                      strategies := Loaded strategiesData;
                      stats := Loaded statsData |}
        ∧ messages run.1.1 = []
    | _ =>
        run.2 = Ok s
        ∧ messages run.1.1 = [(Failure, Some "Failed to load data")]
    end.
Proof.
  cbv zeta. unfold fetchAll, try_catch, Api.getStats, AppLibApi.getStocks,
    Api.getWatchlists, Api.getStrategies.
  rewrite !run_settled_json_bind. unfold load_requests, served.
  change (API_BASE_URL +:+ "/api/stats") with "http://localhost:8000/api/stats".
  change (API_BASE_URL +:+ "/api/stocks/") with "http://localhost:8000/api/stocks/".
  change (API_BASE_URL +:+ "/api/watchlists/?include_stocks=true")
    with "http://localhost:8000/api/watchlists/?include_stocks=true".
  change (API_BASE_URL +:+ "/api/strategies/")
    with "http://localhost:8000/api/strategies/".
  simpl.
  repeat match goal with
  | |- context [serves ?sv ?req] =>
      let sv' := fresh "sv" in
      destruct (serves sv req) as [sv' [[? [?|]]|?]]; simpl
  end; done.
Qed.
(** X17: [fetchAll] is all or nothing.  It always issues its four GET
    requests, in the same order, and never throws.  When each of the four
    answers has a body, the four state variables are replaced by the four
    bodies, whatever the status of the replies, and nothing is shown; as
    soon as one request is rejected or one reply has no body, the state is
    left as it was and "Failed to load data" is shown once. *)
Theorem fetchAll_all_or_nothing (s : State) (w : World) :
  let run := fetchAll s w in
  requests run.1.1 = load_requests
  ∧ server run.1.2 = served (server w) load_requests
  ∧ ui run.1.2 = ui w
  ∧ match parsed <$> answers (server w) load_requests with
    | [Some statsData; Some stocksData; Some watchlistsData; Some strategiesData] =>
        run.2 = Ok {| page := page s; stocks := Loaded stocksData;
                      watchlists := Loaded watchlistsData;
                      strategies := Loaded strategiesData;
                      stats := Loaded statsData |}
        ∧ messages run.1.1 = []
    | _ =>
        run.2 = Ok s
        ∧ messages run.1.1 = [(Failure, Some "Failed to load data")]
    end.
Proof. apply fetchAll_run. Qed.

(** What [fetchAll] leaves for its caller. *)
Lemma fetchAll_shape (s : State) (w : World) :
  ∃ t w' s', fetchAll s w = (t, w', Ok s')
    ∧ requests t = load_requests
    ∧ (messages t = [] ∨ messages t = [(Failure, Some "Failed to load data")]).
Proof.
  pose proof (fetchAll_run s w) as (Hreq & _ & _ & Hres). cbv zeta in *.
  destruct (fetchAll s w) as [[t w'] r]. cbn [fst snd] in *.
  destruct (parsed <$> answers (server w) load_requests) as [|[a|] [|[b|] [|[c|] [|[d|] [|??]]]]];
    destruct Hres as [-> Hm]; eexists _, _, _; (split; [reflexivity|]); (split; [done|]);
    rewrite Hm; auto.
Qed.

(** A handler that reports on a call returning the parsed reply. *)
Lemma mutation_reports (req : Request) (success failure : string) :
  failure ≠ "Failed to load data" →
  reports
    (λ s, try_catch
            ((response ← fetch req; response_json response);;
             message Success success;;
             fetchAll s)
            (λ error, message Failure failure;; throw error))
    req success failure has_body.
Proof.
  intros Hne s w. cbv zeta. unfold try_catch, has_body, parsed.
  rewrite run_bind, run_bind, run_fetch.
  destruct (serves (server w) req) as [sv [[o [p|]]|e]]; simpl.
  - unfold message. rewrite run_emit_bind.
    match goal with
    | |- context [fetchAll s ?w1] =>
        destruct (fetchAll_shape s w1) as (t & w' & s' & -> & Hreq & Hmsg)
    end.
    simpl. rewrite Hreq. rewrite ?bool_decide_eq_true_2 by eauto.
    repeat split; try done; try (intros _; by left); eauto.
    intros [[=]|Hin]%elem_of_cons.
    destruct Hmsg as [Hmsg|Hmsg]; rewrite Hmsg in Hin;
      [by apply elem_of_nil in Hin|].
    apply list_elem_of_singleton in Hin. by injection Hin as ->.
  - rewrite ?bool_decide_eq_false_2 by (by intros [? [=]]).
    repeat split; try done; try (intros _; by left).
    + intros Hin. in_trace Hin; discriminate.
    + by intros [? [=]].
  - rewrite ?bool_decide_eq_false_2 by (by intros [? [=]]).
    repeat split; try done; try (intros _; by left).
    + intros Hin. in_trace Hin; discriminate.
    + by intros [? [=]].
Qed.

(** X18: the page handlers that add a stock, create or update a
    watchlist, or set the stocks of a watchlist never look at the status
    of the reply.  Each sends its one request; if the answer has a body,
    be it the error object of a refused request, the handler announces
    success and reloads the page data; only a rejected request or a reply
    without a body is reported as a failure and rethrown. *)
Theorem page_mutations_report_any_body :
  (∀ stock,
     reports (handleAddStock stock)
       (post_json "http://localhost:8000/api/stocks/" stock)
       "Stock added successfully!" "Failed to add stock" has_body)
  ∧ (∀ watchlist,
       reports (handleCreateWatchlist watchlist)
         (post_json "http://localhost:8000/api/watchlists/" watchlist)
         "Watchlist created successfully!" "Failed to create watchlist" has_body)
  ∧ (∀ id watchlist,
       reports (handleUpdateWatchlist id watchlist)
         (put_json ("http://localhost:8000/api/watchlists/" +:+ pretty id) watchlist)
         "Watchlist updated successfully!" "Failed to update watchlist" has_body)
  ∧ (∀ watchlistId stockIds,
       reports (handleManageStocks watchlistId stockIds)
         (post_json ("http://localhost:8000/api/watchlists/" +:+ pretty watchlistId
                       +:+ "/stocks")
            (JObj [("stock_ids", JArr (JNum <$> stockIds))]))
         "Stocks updated in watchlist!" "Failed to update watchlist stocks" has_body).
Proof.
  split; [|split; [|split]]; intros; by apply mutation_reports.
Qed.

Lemma page_mutations_report_any_body_duplicate :
  (Success, Some "Stock added successfully!")
  ∈ messages (trace_of (handleAddStock (JObj [("symbol", JStr "TCS")]) initial)
                (mount (scripted [duplicate_stock]))).
Proof.
  destruct page_mutations_report_any_body as [Hadd _].
  destruct (Hadd (JObj [("symbol", JStr "TCS")]) initial
              (mount (scripted [duplicate_stock]))) as (_ & Hok & _).
  apply Hok. reflexivity.
Defined.

(** A handler that reports on a call that throws unless the reply is ok. *)
Lemma deletion_reports (req : Request) (msg success failure : string) :
  failure ≠ "Failed to load data" →
  reports
    (λ s, try_catch
            ((response ← fetch req;
              if negb (ok response) then throw (Error msg) else mret tt);;
             message Success success;;
             fetchAll s)
            (λ error, message Failure failure;; throw error))
    req success failure is_ok.
Proof.
  intros Hne s w. cbv zeta. unfold try_catch, is_ok.
  rewrite run_bind, run_bind, run_fetch.
  destruct (serves (server w) req) as [sv [[[] p]|e]]; simpl.
  - unfold message. rewrite run_emit_bind.
    match goal with
    | |- context [fetchAll s ?w1] =>
        destruct (fetchAll_shape s w1) as (t & w' & s' & -> & Hreq & Hmsg)
    end.
    simpl. rewrite Hreq.
    repeat split; try done; try (intros _; by left); eauto.
    intros [[=]|Hin]%elem_of_cons.
    destruct Hmsg as [Hmsg|Hmsg]; rewrite Hmsg in Hin;
      [by apply elem_of_nil in Hin|].
    apply list_elem_of_singleton in Hin. by injection Hin as ->.
  - repeat split; try done; try (intros _; by left).
    + intros Hin. in_trace Hin; discriminate.
    + by intros [? [=]].
  - repeat split; try done; try (intros _; by left).
    + intros Hin. in_trace Hin; discriminate.
    + by intros [? [=]].
Qed.

(** X19: the two delete handlers of the page do look at the status.  Each
    sends its one DELETE; an ok reply, with or without a body, is
    announced with the name of what was deleted and followed by a reload
    of the page data; a reply that is not ok, or a rejected request, is
    reported as a failure and rethrown, and nothing is reloaded. *)
Theorem page_deletions_report_status :
  (∀ id symbol,
     reports (handleDeleteStock id symbol)
       (delete_req ("http://localhost:8000/api/stocks/" +:+ pretty id))
       ("Stock " +:+ symbol +:+ " deleted") "Failed to delete stock" is_ok)
  ∧ (∀ id name,
       reports (handleDeleteWatchlist id name)
         (delete_req ("http://localhost:8000/api/watchlists/" +:+ pretty id))
         ("Watchlist " +:+ Strategies.quote +:+ name +:+ Strategies.quote
            +:+ " deleted")
         "Failed to delete watchlist" is_ok).
Proof.
  split; intros; by apply deletion_reports.
Qed.

Lemma page_deletions_report_status_204 :
  (Success, Some "Stock TCS deleted")
  ∈ messages (trace_of (handleDeleteStock 7 "TCS" initial)
                (mount (scripted [no_content]))).
Proof.
  destruct page_deletions_report_status as [Hdel _].
  destruct (Hdel 7 "TCS" initial (mount (scripted [no_content]))) as (_ & Hok & _).
  apply Hok. reflexivity.
Defined.

End Loading.


(** ** Managing the stocks of a watchlist *)

Section ManageStocks.
Import Watchlists.

Lemma digit_value_pretty (d : N) :
  (d < 10)%N → JsText.digit_value 10 (pretty_N_char d) = Some d.
Proof.
  intros Hd.
  assert (d = 0 ∨ d = 1 ∨ d = 2 ∨ d = 3 ∨ d = 4 ∨ d = 5 ∨ d = 6 ∨ d = 7
          ∨ d = 8 ∨ d = 9)%N as Hcases by lia.
  repeat (destruct Hcases as [->|Hcases]; [reflexivity|]). by subst.
Qed.

Lemma digits_only_app (s t : string) :
  digits_only (s +:+ t) = digits_only s && digits_only t.
Proof.
  induction s as [|c s IH]; [done|]. rewrite string_app_cons. simpl.
  by rewrite IH, andb_assoc.
Qed.

(** Reading back the digits [pretty_N_go] writes. *)
Lemma parse_digits_pretty (x : N) :
  (0 < x)%N →
  ∃ k c rest,
    (∀ s, pretty_N_go x s = String c (rest +:+ s))
    ∧ digits_only (String c rest) = true
    ∧ ∀ acc s, JsText.parse_digits 10 acc (pretty_N_go x s)
               = JsText.parse_digits 10 (Some (default 0 acc * k + x)%N) s.
Proof.
  induction (N.lt_wf_0 x) as [x _ IH]. intros Hx.
  destruct (decide (x `div` 10 = 0)%N) as [Hz|Hpos%N.neq_0_lt_0].
  - exists 10%N, (pretty_N_char (x `mod` 10)), EmptyString.
    assert (x < 10)%N by (apply N.div_small_iff in Hz; lia).
    split; [|split].
    + intros s. by rewrite pretty_N_go_step, Hz, pretty_N_go_0.
    + simpl. rewrite digit_value_pretty by (apply N.mod_lt; lia).
      rewrite bool_decide_eq_true_2; [done|by eexists].
    + intros acc s. rewrite pretty_N_go_step, Hz, pretty_N_go_0 by done.
      simpl. rewrite digit_value_pretty by (apply N.mod_lt; lia).
      do 2 f_equal. rewrite N.mod_small by done. lia.
  - destruct (IH (x `div` 10)%N) as (k & c & rest & Hshape & Hc & Hparse);
      [apply N.div_lt; lia | done |].
    exists (k * 10)%N, c, (rest +:+ String (pretty_N_char (x `mod` 10)) EmptyString).
    split; [|split].
    + intros s. rewrite pretty_N_go_step, Hshape by done.
      f_equal. by rewrite string_app_assoc.
    + simpl in *. apply andb_true_iff in Hc as [Hc Hrest].
      rewrite Hc, digits_only_app, Hrest. simpl.
      rewrite digit_value_pretty by (apply N.mod_lt; lia).
      rewrite bool_decide_eq_true_2; [done|by eexists].
    + intros acc s. rewrite pretty_N_go_step, Hparse by done.
      simpl. rewrite digit_value_pretty by (apply N.mod_lt; lia).
      do 2 f_equal. simpl. pose proof (N.div_mod x 10). lia.
Qed.

Lemma digit_is_plain (c : Ascii.ascii) :
  is_Some (JsText.digit_value 10 c) →
  JsText.is_space c = false ∧ JsText.is_char 45 c = false
  ∧ JsText.is_char 43 c = false ∧ JsText.is_char 120 c = false
  ∧ JsText.is_char 88 c = false.
Proof.
  destruct c as [[] [] [] [] [] [] [] []]; vm_compute; intros [? [=]]; done.
Qed.

(** [parseInt(n.toString())] is [n]. *)
Lemma parseInt_pretty (n : nat) : JsText.parseInt (pretty n) = Some (Z.of_nat n).
Proof.
  unfold pretty, pretty_nat, pretty, pretty_N. case_decide as Hn.
  - replace n with 0 by lia. reflexivity.
  - destruct (parse_digits_pretty (N.of_nat n)) as (k & c & rest & Hshape & Hc & Hparse);
      [lia|].
    pose proof (Hparse None EmptyString) as Hval. simpl in Hval.
    rewrite Hshape in *. rewrite string_app_nil_r in *.
    simpl in Hc. apply andb_true_iff in Hc as [Hc Hrest].
    apply bool_decide_eq_true in Hc.
    destruct (digit_is_plain c Hc) as (Hsp & Hminus & Hplus & _).
    unfold JsText.parseInt. simpl JsText.skip_space. rewrite Hsp, Hminus, Hplus.
    destruct rest as [|x rest].
    + rewrite Hval. simpl. f_equal. lia.
    + simpl in Hrest. apply andb_true_iff in Hrest as [Hx _].
      apply bool_decide_eq_true in Hx.
      destruct (digit_is_plain x Hx) as (_ & _ & _ & Hx1 & Hx2).
      rewrite Hx1, Hx2, andb_false_r. rewrite Hval. simpl. f_equal. lia.
Qed.

Lemma parseInt_keys (chosen : list Stock) :
  JsText.parseInt <$> (stock_key <$> chosen) = stock_number <$> chosen.
Proof.
  rewrite <- list_fmap_compose. apply list_fmap_ext. intros _ s _.
  apply parseInt_pretty.
Qed.

(** X20: the ids of the stocks survive the transfer list.  The keys of
    the list are the ids printed as text, and [handleManageStocks] reads
    them back with [parseInt]: it calls [onManageStocks] once, for the
    selected watchlist, with exactly the ids of the chosen stocks, in
    order, and then closes the modal and empties the keys.  Opening the
    modal chooses the stocks the watchlist has.  For a watchlist whose id
    is 0 the handler does nothing. *)
Theorem handleManageStocks_sends_chosen_ids
    (props : Props) (st : State) (watchlistId : nat) (chosen : list Stock) :
  selectedWatchlistId st = Some watchlistId →
  targetKeys st = stock_key <$> chosen →
  (watchlistId ≠ 0 →
   handleManageStocks props st
   = (onManageStocks props watchlistId (stock_number <$> chosen);;
      mret {| createModal := createModal st; editModal := editModal st;
              manageStocksModal := false;
              editingWatchlist := editingWatchlist st;
              selectedWatchlistId := Some watchlistId;
              targetKeys := [] |}))
  ∧ (watchlistId = 0 → handleManageStocks props st = mret st)
  ∧ (∀ watchlist before,
       wl_stocks watchlist = Some chosen →
       targetKeys (openManageStocks watchlist before) = stock_key <$> chosen
       ∧ selectedWatchlistId (openManageStocks watchlist before)
         = Some (wl_id watchlist)).
Proof.
  intros Hsel Hkeys. unfold handleManageStocks. rewrite Hsel.
  split; [|split].
  - intros Hid. rewrite bool_decide_eq_false_2 by done.
    by rewrite Hkeys, parseInt_keys.
  - intros ->. done.
  - intros watchlist before Hstocks. unfold openManageStocks. simpl.
    by rewrite Hstocks.
Qed.

Lemma handleManageStocks_sends_chosen_ids_energy :
  requests (trace_of (handleManageStocks managed_by_page
                        (openManageStocks energy_watchlist initial))
              (mount (scripted [])))
  = [post_json "http://localhost:8000/api/watchlists/5/stocks"
       (JObj [("stock_ids", JArr [JNum 3; JNum 12])])].
Proof.
  rewrite (proj1 (handleManageStocks_sends_chosen_ids managed_by_page
             (openManageStocks energy_watchlist initial) 5
             [ {| stock_id := 3; stock_symbol := "RELIANCE" |};
               {| stock_id := 12; stock_symbol := "ONGC" |} ] eq_refl eq_refl));
    [reflexivity | discriminate].
Defined.

End ManageStocks.


(** ** The stocks of the selected watchlists *)

Section News.
Import NewsAnalysis.

(** One step of the two nested loops. *)
Lemma add_watchlist_offered (watchlists : list Watchlist) (selected : list nat)
    (allStocks : list (string * Row)) :
  foldl (add_watchlist watchlists) allStocks selected
  = foldl (λ m p, add_stock p.1 m p.2) allStocks (offered watchlists selected).
Proof.
  revert allStocks. induction selected as [|watchlistId rest IH]; intros allStocks.
  - done.
  - unfold offered. rewrite bind_cons. fold (offered watchlists rest).
    rewrite foldl_app. simpl. rewrite IH. f_equal.
    unfold add_watchlist.
    destruct (List.find _ watchlists) as [watchlist|]; [|done].
    destruct (wl_stocks watchlist) as [l|]; [|done]. simpl.
    generalize allStocks. induction l as [|s l IHl]; intros m; [done|].
    simpl. apply IHl.
Qed.

Lemma has_keys (m : list (string * Row)) (sym : string) :
  has m sym = true ↔ sym ∈ m.*1.
Proof.
  unfold has. rewrite existsb_exists. setoid_rewrite <- list_elem_of_In.
  rewrite list_elem_of_fmap. split.
  - intros ([k row] & Hin & Hk%bool_decide_eq_true). simpl in *. subst.
    by exists (sym, row).
  - intros ([k row] & -> & Hin). exists (k, row). split; [done|].
    by apply bool_decide_eq_true.
Qed.

Lemma push_watchlist_keys (sym name : string) (m : list (string * Row)) :
  (push_watchlist sym name m).*1 = m.*1.
Proof.
  induction m as [|[k row] m IH]; [done|]. cbn [push_watchlist].
  case_bool_decide; rewrite !fmap_cons; [done|]. by rewrite IH.
Qed.

Lemma push_watchlist_entries (sym name : string) (m : list (string * Row))
    (k : string) (row : Row) :
  NoDup m.*1 →
  (k, row) ∈ push_watchlist sym name m ↔
  (k ≠ sym ∧ (k, row) ∈ m)
  ∨ (k = sym ∧ ∃ existing, (sym, existing) ∈ m
       ∧ row = {| row_stock := row_stock existing;
                  row_watchlists := row_watchlists existing ++ [name] |}).
Proof.
  induction m as [|[k0 row0] m IH]; simpl.
  - intros _. split; [by intros ?%elem_of_nil|].
    intros [[_ ?%elem_of_nil]|(_ & ? & ?%elem_of_nil & _)]; done.
  - intros [Hk0 Hnd]%NoDup_cons. specialize (IH Hnd).
    case_bool_decide as Heq.
    + subst k0. rewrite !elem_of_cons. split.
      * intros [[= -> ->]|Hin].
        -- right. split; [done|]. exists row0. split; [by left|done].
        -- left. split; [|by right]. intros ->. apply Hk0.
           apply list_elem_of_fmap. by exists (sym, row).
      * intros [[Hne [[= -> ->]|Hin]]|(-> & existing & Hex & ->)]; [done|by right|].
        apply elem_of_cons in Hex as [[= <-]|Hex]; [by left|].
        destruct Hk0. apply list_elem_of_fmap. by exists (sym, existing).
    + rewrite !elem_of_cons, IH. split.
      * intros [[= -> ->]|[[Hne Hin]|(-> & existing & Hex & ->)]].
        -- left. split; [done|by left].
        -- left. split; [done|by right].
        -- right. split; [done|]. exists existing. split; [by right|done].
      * intros [[Hne [[= -> ->]|Hin]]|(-> & existing & Hex & ->)].
        -- by left.
        -- right. left. done.
        -- apply elem_of_cons in Hex as [[= -> ->]|Hex]; [done|].
           right. right. split; [done|]. by exists existing.
Qed.

Lemma offers_of_snoc (k : string) (seen : list (string * Stock)) (name : string)
    (stock : Stock) :
  offers_of k (seen ++ [(name, stock)])
  = offers_of k seen ++ (if decide (stock_symbol stock = k) then [(name, stock)] else []).
Proof.
  unfold offers_of. rewrite filter_app, filter_cons, filter_nil. simpl.
  by destruct (decide (stock_symbol stock = k)).
Qed.

Lemma expected_row_symbol (k : string) (seen : list (string * Stock)) (row : Row) :
  expected_row k seen = Some row → stock_symbol (row_stock row) = k.
Proof.
  unfold expected_row. destruct (offers_of k seen) as [|[name stock] l] eqn:E; [done|].
  intros [= <-]. simpl.
  assert ((name, stock) ∈ offers_of k seen) as Hin by (rewrite E; left).
  by apply list_elem_of_filter in Hin as [? _].
Qed.

Lemma expected_row_snoc_other (k : string) (seen : list (string * Stock))
    (name : string) (stock : Stock) :
  stock_symbol stock ≠ k →
  expected_row k (seen ++ [(name, stock)]) = expected_row k seen.
Proof.
  intros Hne. unfold expected_row. rewrite offers_of_snoc.
  destruct (decide (stock_symbol stock = k)); [done|]. by rewrite app_nil_r.
Qed.

Lemma expected_row_snoc_same (seen : list (string * Stock)) (name : string)
    (stock : Stock) :
  expected_row (stock_symbol stock) (seen ++ [(name, stock)])
  = Some match expected_row (stock_symbol stock) seen with
         | Some existing =>
             {| row_stock := row_stock existing;
                row_watchlists := row_watchlists existing ++ [name] |}
         | None => {| row_stock := stock; row_watchlists := [name] |}
         end.
Proof.
  unfold expected_row. rewrite offers_of_snoc.
  destruct (decide (stock_symbol stock = stock_symbol stock)); [|done].
  destruct (offers_of (stock_symbol stock) seen) as [|[n s] l]; simpl; [done|].
  by rewrite fmap_app.
Qed.

Lemma tracks_step (m : list (string * Row)) (seen : list (string * Stock))
    (name : string) (stock : Stock) :
  tracks m seen → tracks (add_stock name m stock) (seen ++ [(name, stock)]).
Proof.
  intros [Hnd Hm]. unfold add_stock.
  destruct (has m (stock_symbol stock)) eqn:Hhas; simpl.
  - apply has_keys in Hhas.
    apply list_elem_of_fmap in Hhas as ([k existing] & Hk & Hin). simpl in Hk. subst k.
    pose proof (proj1 (Hm _ _) Hin) as Hex.
    split; [by rewrite push_watchlist_keys|].
    intros k row. rewrite push_watchlist_entries by done. split.
    + intros [[Hne Hrow]|(-> & existing' & Hin' & ->)].
      * rewrite expected_row_snoc_other by done. by apply Hm.
      * rewrite expected_row_snoc_same.
        apply Hm in Hin'. by rewrite Hin'.
    + destruct (decide (k = stock_symbol stock)) as [->|Hne].
      * rewrite expected_row_snoc_same, Hex. intros [= <-].
        right. split; [done|]. by exists existing.
      * rewrite expected_row_snoc_other by done. intros Hrow.
        left. split; [done|]. by apply Hm.
  - assert (stock_symbol stock ∉ m.*1) as Hnew.
    { intros Hin%has_keys. by rewrite Hin in Hhas. }
    assert (expected_row (stock_symbol stock) seen = None) as Hnone.
    { destruct (expected_row (stock_symbol stock) seen) as [row|] eqn:E; [|done].
      destruct Hnew. apply list_elem_of_fmap.
      exists (stock_symbol stock, row). split; [done|]. by apply Hm. }
    split.
    + rewrite fmap_app. apply NoDup_app. split; [done|]. split.
      * intros k Hk ->%list_elem_of_singleton. done.
      * apply NoDup_singleton.
    + intros k row. rewrite elem_of_app, list_elem_of_singleton. split.
      * intros [Hin|[= -> ->]].
        -- rewrite expected_row_snoc_other; [by apply Hm|].
           intros <-. destruct Hnew. apply list_elem_of_fmap. by exists (stock_symbol stock, row).
        -- by rewrite expected_row_snoc_same, Hnone.
      * destruct (decide (k = stock_symbol stock)) as [->|Hne].
        -- rewrite expected_row_snoc_same, Hnone. intros [= <-]. by right.
        -- rewrite expected_row_snoc_other by done. intros Hrow. left. by apply Hm.
Qed.

Lemma tracks_fold (l : list (string * Stock)) (m : list (string * Row))
    (seen : list (string * Stock)) :
  tracks m seen → tracks (foldl (λ m p, add_stock p.1 m p.2) m l) (seen ++ l).
Proof.
  revert m seen. induction l as [|[name stock] l IH]; intros m seen Hm; simpl.
  - by rewrite app_nil_r.
  - replace (seen ++ (name, stock) :: l) with ((seen ++ [(name, stock)]) ++ l)
      by (by rewrite <- app_assoc).
    apply IH. by apply tracks_step.
Qed.

(** X21: the table of [NewsAnalysis] lists every stock of the selected
    watchlists once.  No two rows have the same symbol; a row is shown
    exactly for the symbols some selected watchlist offers, it carries the
    first stock offered under its symbol, and it names every selected
    watchlist that offers the symbol, in the order of the selection.  With
    nothing selected the table is empty. *)
Theorem loadStocksFromWatchlists_groups_by_symbol
    (watchlists : list Watchlist) (st : State) :
  let rows := stocks (loadStocksFromWatchlists watchlists st) in
  let pairs := offered watchlists (selectedWatchlists st) in
  NoDup ((λ row, stock_symbol (row_stock row)) <$> rows)
  ∧ (∀ row, row ∈ rows ↔ ∃ sym, expected_row sym pairs = Some row)
  ∧ (selectedWatchlists st = [] → rows = [])
  ∧ selectedWatchlists (loadStocksFromWatchlists watchlists st) = selectedWatchlists st.
Proof.
  intros rows pairs.
  assert (∃ m, rows = snd <$> m ∧ tracks m pairs) as (m & Hrows & Hnd & Hm).
  { subst rows pairs. unfold loadStocksFromWatchlists. case_bool_decide as Hlen.
    - apply nil_length_inv in Hlen. rewrite Hlen. exists []. split; [done|].
      split; [constructor|]. intros k row. split; [by intros ?%elem_of_nil|done].
    - eexists. split; [reflexivity|]. rewrite add_watchlist_offered.
      apply (tracks_fold _ [] []). split; [constructor|].
      intros k row. split; [by intros ?%elem_of_nil|done]. }
  split; [|split; [|split]].
  - rewrite Hrows, <- list_fmap_compose.
    replace ((λ row, stock_symbol (row_stock row)) ∘ snd <$> m) with (m.*1); [done|].
    apply list_fmap_ext. intros i [k row] Hi%list_elem_of_lookup_2. simpl.
    symmetry. apply (expected_row_symbol k pairs). by apply Hm.
  - intros row. rewrite Hrows, list_elem_of_fmap. split.
    + intros ([k row'] & -> & Hin). exists k. by apply Hm.
    + intros (sym & Hrow). exists (sym, row). split; [done|]. by apply Hm.
  - intros Hsel. subst rows. unfold loadStocksFromWatchlists.
    by rewrite Hsel.
  - unfold loadStocksFromWatchlists. by case_bool_decide.
Qed.

Lemma loadStocksFromWatchlists_groups_by_symbol_shared :
  stocks (handleWatchlistChange [energy_watchlist; it_watchlist] [5; 6] initial)
  = [ {| row_stock := {| stock_id := 3; stock_symbol := "RELIANCE" |};
         row_watchlists := ["Energy"; "IT"] |};
      {| row_stock := {| stock_id := 12; stock_symbol := "ONGC" |};
         row_watchlists := ["Energy"] |};
      {| row_stock := {| stock_id := 20; stock_symbol := "TCS" |};
         row_watchlists := ["IT"] |} ]
  ∧ {| row_stock := {| stock_id := 3; stock_symbol := "RELIANCE" |};
       row_watchlists := ["Energy"; "IT"] |}
    ∈ stocks (handleWatchlistChange [energy_watchlist; it_watchlist] [5; 6] initial).
Proof.
  split; [reflexivity|].
  apply (proj1 (proj2 (loadStocksFromWatchlists_groups_by_symbol
           [energy_watchlist; it_watchlist]
           {| selectedWatchlists := [5; 6]; stocks := []; loading := false;
              autoRefresh := false |}))).
  exists "RELIANCE". reflexivity.
Defined.

End News.
